(** * fast-skiplist: a shallow embedding of the skip list and its properties

    The Go sources (the generic [SkipList[T]], its [Element[T]] nodes and the
    operations [Set], [Get], [Remove], [Front], [Len], [getPrevElementNodes],
    [randLevel], [probabilityTable], [NewWithMaxLevel], [New]) are embedded as
    executable Rocq functions over an explicit memory.

    Modelling choices.
    - The key type [T] is instantiated at Go's integer types: a key is a [Z]
      and [<], [<=], [==], [>] are the integer comparisons (keys are only ever
      compared, never computed with).  The proofs use of the keys only that
      they are totally ordered; a floating-point NaN, which no comparison
      orders, is outside this model.  Module [Keyed] has the operations once
      more, for any key type with its four comparisons; the behaviour of NaN
      keys is proved there, at [float64], and that the operations neither
      panic nor loop whatever the comparisons answer.
    - [value interface{}] is an arbitrary type [V].
    - A [*Element] is [option ptr]: [None] is [nil], [Some p] is the address
      of the [p]-th element ever allocated.  Go never frees an element that
      is still referenced, so the arena [heap] only grows.
    - A [*elementNode] is [option nodeRef]: the node embedded in the list
      itself ([Header]) or the node embedded in an element ([Node p]).
    - Go's [int] is a 64-bit integer: [Length] is kept in range by [int_wrap].
      The struct declares the counter as [Length]; the operations read and
      write it as [list.length].  It is one field here, named [Length].
    - [float64] is Rocq's primitive binary64 float.  [math.Pow] and the random
      source are outside the repository: [Pow] is a parameter, and each call
      of [randSource.Int63()] is an explicit argument [rnd] of [Set_]
      ([Set] is a reserved word of Rocq, so the operation is named [Set_]).
    - A run-time panic (index out of range, nil dereference, the explicit
      [panic] of [NewWithMaxLevel]) is the result [Panic]; a loop that does
      not terminate is [Diverge].
    - The mutex is not modelled: operations run one at a time. *)

From Stdlib Require Import ZArith Lia String.
From Stdlib Require Import PrimFloat Uint63 SpecFloat FloatOps FloatAxioms.
From stdpp Require Import base tactics option list gmap sorting.

Open Scope Z_scope.

(** ** Results of fallible operations *)

Inductive result (A : Type) : Type :=
| Ok (a : A)
| Panic
| Diverge.
Arguments Ok {A} a.
Arguments Panic {A}.
Arguments Diverge {A}.

Definition bind {A B} (m : result A) (f : A -> result B) : result B :=
  match m with
  | Ok a => f a
  | Panic => Panic
  | Diverge => Diverge
  end.

Notation "x <- m ;; k" := (bind m (fun x => k))
  (at level 100, m at next level, right associativity).

(** [xs[i]] for a slice: a panic outside [0, len xs). *)
Definition index {A} (xs : list A) (i : nat) : result A :=
  match xs !! i with
  | Some x => Ok x
  | None => Panic
  end.

(** [xs[i] = x] for a slice: a panic outside [0, len xs). *)
Definition store {A} (xs : list A) (i : nat) (x : A) : result (list A) :=
  if decide (i < length xs)%nat then Ok (<[i:=x]> xs) else Panic.

(** The same with an index of type [int]. *)
Definition indexZ {A} (xs : list A) (i : Z) : result A :=
  if decide (0 ≤ i) then index xs (Z.to_nat i) else Panic.

(** [make([]T, n)]: [n] zero values, a panic for a negative [n]. *)
Definition make {A} (zero : A) (n : Z) : result (list A) :=
  if decide (0 ≤ n) then Ok (replicate (Z.to_nat n) zero) else Panic.

(** Two's complement wrap-around of a 64-bit [int]. *)
Definition int_wrap (z : Z) : Z := (z + 2 ^ 63) `mod` 2 ^ 64 - 2 ^ 63.

(** ** Data model (type.go) *)

(** The address of an element: its index in the arena. *)
Abbreviation ptr := nat (only parsing).

Inductive nodeRef : Type :=
| Header
| Node (p : ptr).

#[global] Instance nodeRef_eq_dec : EqDecision nodeRef.
Proof. solve_decision. Defined.

Record elementNode : Type := mkNode { next : list (option ptr) }.

Definition DefaultMaxLevel : Z := 18.

(** [1 / math.E], rounded to the nearest binary64 value. *)
Definition DefaultProbability : float := 0x1.78b56362cef38p-2%float.

Section SkipList.

Context {V : Type}.

(** [Pow x n] stands for [math.Pow(x, float64(n))]. *)
Variable Pow : float -> Z -> float.

Record Element : Type := mkElement {
  e_node :> elementNode;
  key : Z;
  value : V
}.

Record SkipList : Type := mkSkipList {
  sl_node :> elementNode;
  maxLevel : Z;
  Length : Z;
  probability : float;
  probTable : list float;
  prevNodesCache : list (option nodeRef)
}.

(** The memory the operations run in: the list, the elements allocated so
    far, and the keys written to standard output by [fmt.Println]. *)
Record Memory : Type := mkMemory {
  sl :> SkipList;
  heap : list Element;
  stdout : list Z
}.

Definition Key (e : Element) : Z := key e.
Definition Value (e : Element) : V := value e.
Definition Next (e : Element) : result (option ptr) := index (next e) 0.

(** *** Memory access *)

Definition deref (s : Memory) (p : ptr) : result Element :=
  match heap s !! p with
  | Some e => Ok e
  | None => Panic
  end.

(** [r.next]. *)
Definition node_next (s : Memory) (r : nodeRef) : result (list (option ptr)) :=
  match r with
  | Header => Ok (next s)
  | Node p => e <- deref s p;; Ok (next e)
  end.

(** [r.next[i]]. *)
Definition read_next (s : Memory) (r : nodeRef) (i : nat) : result (option ptr) :=
  nx <- node_next s r;; index nx i.

Definition set_list (s : Memory) (l : SkipList) : Memory :=
  {| sl := l; heap := heap s; stdout := stdout s |}.

Definition set_heap (s : Memory) (h : list Element) : Memory :=
  {| sl := sl s; heap := h; stdout := stdout s |}.

Definition with_next (l : SkipList) (nx : list (option ptr)) : SkipList :=
  {| sl_node := mkNode nx; maxLevel := maxLevel l; Length := Length l;
     probability := probability l; probTable := probTable l;
     prevNodesCache := prevNodesCache l |}.

Definition with_Length (l : SkipList) (n : Z) : SkipList :=
  {| sl_node := sl_node l; maxLevel := maxLevel l; Length := n;
     probability := probability l; probTable := probTable l;
     prevNodesCache := prevNodesCache l |}.

Definition with_cache (l : SkipList) (c : list (option nodeRef)) : SkipList :=
  {| sl_node := sl_node l; maxLevel := maxLevel l; Length := Length l;
     probability := probability l; probTable := probTable l;
     prevNodesCache := c |}.

Definition with_probability (l : SkipList) (p : float) (t : list float) : SkipList :=
  {| sl_node := sl_node l; maxLevel := maxLevel l; Length := Length l;
     probability := p; probTable := t;
     prevNodesCache := prevNodesCache l |}.

Definition elem_with_next (e : Element) (nx : list (option ptr)) : Element :=
  {| e_node := mkNode nx; key := key e; value := value e |}.

Definition elem_with_value (e : Element) (v : V) : Element :=
  {| e_node := e_node e; key := key e; value := v |}.

(** [r.next[i] = v]. *)
Definition write_next (s : Memory) (r : nodeRef) (i : nat) (v : option ptr) : result Memory :=
  match r with
  | Header =>
      nx <- store (next s) i v;;
      Ok (set_list s (with_next s nx))
  | Node p =>
      e <- deref s p;;
      nx <- store (next e) i v;;
      Ok (set_heap s (<[p := elem_with_next e nx]> (heap s)))
  end.

(** [p.value = v]. *)
Definition write_value (s : Memory) (p : ptr) (v : V) : result Memory :=
  e <- deref s p;;
  Ok (set_heap s (<[p := elem_with_value e v]> (heap s))).

(** [&Element{...}]: the new element gets the next free address. *)
Definition alloc (s : Memory) (e : Element) : ptr * Memory :=
  (length (heap s), set_heap s (heap s ++ [e])).

(** [fmt.Println(k)]. *)
Definition Println (s : Memory) (k : Z) : Memory :=
  {| sl := sl s; heap := heap s; stdout := stdout s ++ [k] |}.

(** A [*elementNode] read from a slice and then dereferenced. *)
Definition nonnil (r : option nodeRef) : result nodeRef :=
  match r with
  | Some r => Ok r
  | None => Panic
  end.

(** *** Len, Front *)

Definition Len (s : Memory) : Z := Length s.

Definition Front (s : Memory) : result (option ptr) := index (next s) 0.

(** *** The predecessor search *)

(** The inner loop of [getPrevElementNodes] and of [Get]:
    [for next != nil && key > next.key { prev = &next.elementNode; next = next.next[i] }]. *)
Fixpoint advance (fuel : nat) (s : Memory) (k : Z) (i : nat)
    (prev : nodeRef) (nxt : option ptr) : result (nodeRef * option ptr) :=
  match fuel with
  | O => Diverge
  | S fuel =>
      match nxt with
      | None => Ok (prev, None)
      | Some p =>
          e <- deref s p;;
          if decide (k > key e) then
            nxt' <- index (next e) i;;
            advance fuel s k i (Node p) nxt'
          else Ok (prev, Some p)
      end
  end.

(** A walk along one level visits each element at most once unless it runs
    forever, so it needs no more steps than there are elements. *)
Definition walk_fuel (s : Memory) : nat := S (length (heap s)).

(** The values [n - 1, ..., 1, 0] the loop variable of
    [for i := n - 1; i >= 0; i--] takes. *)
Definition levels_down (n : nat) : list nat := reverse (seq 0 n).

(** The iterations of [for i := list.maxLevel - 1; i >= 0; i--]. *)
Definition level_count (s : Memory) : nat := Z.to_nat (int_wrap (maxLevel s - 1) + 1).

(** The outer loop of [getPrevElementNodes], over the levels still to visit. *)
Fixpoint getPrevElementNodes_loop (s : Memory) (k : Z) (levels : list nat)
    (prev : nodeRef) (prevs : list (option nodeRef)) : result (list (option nodeRef)) :=
  match levels with
  | [] => Ok prevs
  | i :: levels =>
      nxt <- read_next s prev i;;
      pr <- advance (walk_fuel s) s k i prev nxt;; let '(prev', _) := pr in
      prevs' <- store prevs i (Some prev');;
      getPrevElementNodes_loop s k levels prev' prevs'
  end.

(** [prevs] is the slice [list.prevNodesCache] itself: the writes land in the
    cache. *)
Definition getPrevElementNodes (s : Memory) (k : Z) : result (list (option nodeRef) * Memory) :=
  prevs <- getPrevElementNodes_loop s k (levels_down (level_count s)) Header
             (prevNodesCache s);;
  Ok (prevs, set_list s (with_cache s prevs)).

(** *** Get *)

(** The loop of [Get], over the levels still to visit. *)
Fixpoint Get_loop (s : Memory) (k : Z) (levels : list nat)
    (prev : nodeRef) (nxt : option ptr) : result (nodeRef * option ptr) :=
  match levels with
  | [] => Ok (prev, nxt)
  | i :: levels =>
      nxt0 <- read_next s prev i;;
      pr <- advance (walk_fuel s) s k i prev nxt0;; let '(prev', nxt') := pr in
      Get_loop s k levels prev' nxt'
  end.

Definition Get (s : Memory) (k : Z) : result (option ptr) :=
  pr <- Get_loop s k (levels_down (level_count s)) Header None;;
  let '(_, nxt) := pr in
  match nxt with
  | Some p =>
      e <- deref s p;;
      if decide (key e = k) then Ok (Some p) else Ok None
  | None => Ok None
  end.

(** *** The level oracle *)

(** [float64(list.randSource.Int63()) / (1 << 63)] for the draw [rnd]. *)
Definition rand_float (rnd : Z) : float :=
  PrimFloat.div (PrimFloat.of_uint63 (Uint63.of_Z rnd)) 0x1p63%float.

(** [for level < list.maxLevel && r < list.probTable[level] { level++ }]. *)
Fixpoint randLevel_loop (fuel : nat) (s : Memory) (r : float) (level : Z) : result Z :=
  match fuel with
  | O => Diverge
  | S fuel =>
      if decide (level < maxLevel s) then
        t <- indexZ (probTable s) level;;
        if PrimFloat.ltb r t then randLevel_loop fuel s r (int_wrap (level + 1))
        else Ok level
      else Ok level
  end.

Definition randLevel (s : Memory) (rnd : Z) : result Z :=
  randLevel_loop (S (Z.to_nat (maxLevel s))) s (rand_float rnd) 1.

(** [for i := 1; i <= MaxLevel; i++ { table = append(table, Pow(probability, float64(i-1))) }]. *)
Definition probabilityTable (p : float) (MaxLevel : Z) : list float :=
  (fun i => Pow p (i - 1)) <$> seqZ 1 MaxLevel.

Definition SetProbability (s : Memory) (newProbability : float) : Memory :=
  set_list s (with_probability s newProbability
                (probabilityTable newProbability (maxLevel s))).

(** *** Set *)

(** [for i := range element.next { element.next[i] = prevs[i].next[i]; prevs[i].next[i] = element }]. *)
Fixpoint Set_link (s : Memory) (prevs : list (option nodeRef)) (p : ptr)
    (levels : list nat) : result Memory :=
  match levels with
  | [] => Ok s
  | i :: levels =>
      r <- index prevs i;;
      r <- nonnil r;;
      v <- read_next s r i;;
      s <- write_next s (Node p) i v;;
      s <- write_next s r i (Some p);;
      Set_link s prevs p levels
  end.

Definition Set_insert (s : Memory) (prevs : list (option nodeRef))
    (k : Z) (v : V) (rnd : Z) : result (ptr * Memory) :=
  level <- randLevel s rnd;;
  nx <- make None level;;
  let '(p, s) := alloc s {| e_node := mkNode nx; key := k; value := v |} in
  s <- Set_link s prevs p (seq 0 (length nx));;
  Ok (p, set_list s (with_Length s (int_wrap (Length s + 1)))).

Definition Set_ (s : Memory) (k : Z) (v : V) (rnd : Z) : result (ptr * Memory) :=
  pr <- getPrevElementNodes s k;; let '(prevs, s) := pr in
  r <- index prevs 0;;
  r <- nonnil r;;
  element <- read_next s r 0;;
  match element with
  | Some p =>
      e <- deref s p;;
      if decide (key e ≤ k) then
        let s := if decide (key e < k) then Println s (key e) else s in
        s <- write_value s p v;;
        Ok (p, s)
      else Set_insert s prevs k v rnd
  | None => Set_insert s prevs k v rnd
  end.

(** *** Remove *)

(** [for k, v := range element.next { prevs[k].next[k] = v }]. *)
Fixpoint Remove_unlink (s : Memory) (prevs : list (option nodeRef)) (p : ptr)
    (levels : list nat) : result Memory :=
  match levels with
  | [] => Ok s
  | i :: levels =>
      v <- read_next s (Node p) i;;
      r <- index prevs i;;
      r <- nonnil r;;
      s <- write_next s r i v;;
      Remove_unlink s prevs p levels
  end.

Definition Remove (s : Memory) (k : Z) : result (option ptr * Memory) :=
  pr <- getPrevElementNodes s k;; let '(prevs, s) := pr in
  r <- index prevs 0;;
  r <- nonnil r;;
  element <- read_next s r 0;;
  match element with
  | Some p =>
      e <- deref s p;;
      if decide (key e ≤ k) then
        s <- Remove_unlink s prevs p (seq 0 (length (next e)));;
        Ok (Some p, set_list s (with_Length s (int_wrap (Length s - 1))))
      else Ok (None, s)
  | None => Ok (None, s)
  end.

(** *** Construction *)

Definition NewWithMaxLevel (maxLevel : Z) : result Memory :=
  if decide (maxLevel < 1 ∨ maxLevel > 64) then Panic
  else
    nx <- make None maxLevel;;
    cache <- make None maxLevel;;
    Ok {| sl := {| sl_node := mkNode nx;
                   maxLevel := maxLevel;
                   Length := 0;
                   probability := DefaultProbability;
                   probTable := probabilityTable DefaultProbability maxLevel;
                   prevNodesCache := cache |};
          heap := [];
          stdout := [] |}.

Definition New : result Memory := NewWithMaxLevel DefaultMaxLevel.

End SkipList.

Arguments Element : clear implicits.
Arguments SkipList : clear implicits.
Arguments Memory : clear implicits.

(** ** Observing a memory

    The forward pointers of every node, seen as one partial function of a
    node and a level, and the key, value and height of an element. *)

Section Observers.

Context {V : Type}.
Implicit Types (s : Memory V) (r : nodeRef) (p q : ptr) (i j : nat).

(** [slot s r i] is [Some v] when [r.next[i]] exists and holds [v]. *)
Definition slot s r i : option (option ptr) :=
  match r with
  | Header => next s !! i
  | Node p =>
      match (heap s !! p : option (Element V)) with
      | Some e => next e !! i
      | None => None
      end
  end.

Definition keyOf s p : Z :=
  match (heap s !! p : option (Element V)) with
  | Some e => key e
  | None => 0
  end.

Definition valueOf s p : option V := value <$> heap s !! p.

Definition heightOf s p : nat :=
  match (heap s !! p : option (Element V)) with
  | Some e => length (next e)
  | None => 0%nat
  end.

(** What no write to a forward pointer changes. *)
Record same_shape s s' : Prop := {
  ss_len : length (heap s') = length (heap s);
  ss_key : forall p, keyOf s' p = keyOf s p;
  ss_value : forall p, valueOf s' p = valueOf s p;
  ss_height : forall p, heightOf s' p = heightOf s p;
  ss_hlen : length (next s') = length (next s);
  ss_maxLevel : maxLevel s' = maxLevel s;
  ss_Length : Length s' = Length s;
  ss_probability : probability s' = probability s;
  ss_probTable : probTable s' = probTable s;
  ss_cache : prevNodesCache s' = prevNodesCache s;
  ss_stdout : stdout s' = stdout s
}.

(** The node reached from [r] by following [qs]. *)
Definition last_ref r (qs : list ptr) : nodeRef :=
  match last qs with
  | Some q => Node q
  | None => r
  end.

(** [chain s i r qs]: at level [i], the nodes after [r] are exactly [qs],
    in this order, and the last of them points to nil. *)
Fixpoint chain s i r (qs : list ptr) : Prop :=
  match qs with
  | [] => slot s r i = Some None
  | q :: qs => slot s r i = Some (Some q) /\ chain s i (Node q) qs
  end.

(** The elements of [ps] that take part in level [i]. *)
Definition level_list s i (ps : list ptr) : list ptr :=
  filter (fun p => (i < heightOf s p)%nat) ps.

(** The elements of [ps] whose key is below [k], and the others. *)
Definition below s (k : Z) (ps : list ptr) : list ptr :=
  filter (fun p => keyOf s p < k) ps.

Definition above s (k : Z) (ps : list ptr) : list ptr :=
  filter (fun p => ~ keyOf s p < k) ps.

(** The last element of level [i] below [k], or the header. *)
Definition pred_at s (k : Z) (ps : list ptr) i : nodeRef :=
  last_ref Header (level_list s i (below s k ps)).

(** The element of [ps] with key [k], if there is one: the first element
    that is not below [k], when its key is [k]. *)
Definition find_key s (k : Z) (ps : list ptr) : option ptr :=
  match head (above s k ps) with
  | Some p => if decide (keyOf s p = k) then Some p else None
  | None => None
  end.

(** The slots once [Set] has linked a new element [p] of height [h] at the
    levels below [j]: the predecessor points to [p], [p] points to what the
    predecessor pointed to. *)
Definition link_slot s (k : Z) (ps : list ptr) p (h j : nat) r i : option (option ptr) :=
  if decide (i < j)%nat then
    if decide (r = pred_at s k ps i) then Some (Some p)
    else if decide (r = Node p) then Some (head (level_list s i (above s k ps)))
    else slot s r i
  else if decide (r = Node p) then (if decide (i < h)%nat then Some None else None)
  else slot s r i.

(** The slots once [Remove] has unlinked [p] at the levels below [j]: the
    predecessor points to what [p] points to. *)
Definition unlink_slot s (k : Z) (ps : list ptr) p (j : nat) r i : option (option ptr) :=
  if decide ((i < j)%nat /\ r = pred_at s k ps i) then slot s (Node p) i
  else slot s r i.

(** [m] holds exactly the entries of the elements [ps]. *)
Definition models s (ps : list ptr) (m : gmap Z V) : Prop :=
  forall k v, m !! k = Some v <->
    exists p, p ∈ ps /\ keyOf s p = k /\ valueOf s p = Some v.

(** [s'] is [s] with a new element of key [k], value [v] and height [h]
    linked in. *)
Record inserted s s' (ps : list ptr) (k : Z) (v : V) (h : nat) : Prop := {
  ins_len : length (heap s') = S (length (heap s));
  ins_key : forall q, keyOf s' q = if decide (q = length (heap s)) then k else keyOf s q;
  ins_value : forall q,
      valueOf s' q = if decide (q = length (heap s)) then Some v else valueOf s q;
  ins_height : forall q,
      heightOf s' q = if decide (q = length (heap s)) then h else heightOf s q;
  ins_slot : forall r i, slot s' r i = link_slot s k ps (length (heap s)) h h r i;
  ins_hlen : length (next s') = length (next s);
  ins_maxLevel : maxLevel s' = maxLevel s;
  ins_Length : Length s' = int_wrap (Length s + 1);
  ins_probability : probability s' = probability s;
  ins_probTable : probTable s' = probTable s;
  ins_cache : length (prevNodesCache s') = length (prevNodesCache s);
  ins_stdout : stdout s' = stdout s
}.

(** [s'] is [s] with the element [p] unlinked. *)
Record removed s s' (ps : list ptr) (k : Z) (p : ptr) : Prop := {
  rem_heap_len : length (heap s') = length (heap s);
  rem_key : forall q, keyOf s' q = keyOf s q;
  rem_value : forall q, valueOf s' q = valueOf s q;
  rem_height : forall q, heightOf s' q = heightOf s q;
  rem_slot : forall r i, slot s' r i = unlink_slot s k ps p (heightOf s p) r i;
  rem_hlen : length (next s') = length (next s);
  rem_maxLevel : maxLevel s' = maxLevel s;
  rem_Length : Length s' = int_wrap (Length s - 1);
  rem_probability : probability s' = probability s;
  rem_probTable : probTable s' = probTable s;
  rem_cache : length (prevNodesCache s') = length (prevNodesCache s);
  rem_stdout : stdout s' = stdout s
}.

(** The representation invariant: [ps] lists the live elements in order. *)
Record Inv s (ps : list ptr) : Prop := {
  inv_maxLevel : 1 <= maxLevel s <= 64;
  inv_header : length (next s) = Z.to_nat (maxLevel s);
  inv_cache : length (prevNodesCache s) = Z.to_nat (maxLevel s);
  inv_probTable : length (probTable s) = Z.to_nat (maxLevel s);
  inv_heights : forall p, (p < length (heap s))%nat ->
      (1 <= heightOf s p <= Z.to_nat (maxLevel s))%nat;
  inv_valid : Forall (fun p => (p < length (heap s))%nat) ps;
  inv_sorted : StronglySorted Z.lt (keyOf s <$> ps);
  inv_chain : forall i, (i < Z.to_nat (maxLevel s))%nat ->
      chain s i Header (level_list s i ps);
  inv_Length : Length s = int_wrap (Z.of_nat (length ps));
  inv_stdout : stdout s = []
}.

(** *** Walking the list as a client does *)

(** Follow [succ] from [cur] to nil, collecting the elements met. *)
Fixpoint follow (fuel : nat) s (succ : Element V -> result (option ptr))
    (cur : option ptr) : result (list (ptr * Element V)) :=
  match fuel with
  | O => Diverge
  | S fuel =>
      match cur with
      | None => Ok []
      | Some p =>
          e <- deref s p;;
          nxt <- succ e;;
          rest <- follow fuel s succ nxt;;
          Ok ((p, e) :: rest)
      end
  end.

(** The in-order walk: [for e := list.Front(); e != nil; e = e.Next()]. *)
Definition in_order s : result (list (ptr * Element V)) :=
  f <- Front s;; follow (walk_fuel s) s Next f.

(** The nodes linked at level [i], from the header on. *)
Definition level_nodes s i : result (list (ptr * Element V)) :=
  f <- index (next s) i;; follow (walk_fuel s) s (fun e => index (next e) i) f.

Definition entry (pe : ptr * Element V) : Z * V := (Key pe.2, Value pe.2).


Definition absent s (k : Z) : Prop :=
  exists es, in_order s = Ok es /\ k ∉ (entry <$> es).*1.

(** The entries met by the in-order walk, and the value [Get] finds. *)
Definition walk_entries s : result (list (Z * V)) :=
  es <- in_order s;; Ok (entry <$> es).

Definition lookup_value s (k : Z) : result (option V) :=
  found <- Get s k;;
  match found with
  | Some p => e <- deref s p;; Ok (Some (Value e))
  | None => Ok None
  end.

(** The elements a walk returned are the ones stored at their addresses. *)
Definition stored s (es : list (ptr * Element V)) : Prop :=
  Forall (fun pe => heap s !! pe.1 = Some pe.2) es.

(** *** Sequences of operations *)

Inductive op : Type :=
| OpSet (k : Z) (v : V) (rnd : Z)
| OpRemove (k : Z)
| OpGet (k : Z)
| OpSetProbability (p : float).

Variable Pow : float -> Z -> float.

Definition step s (o : op) : result (Memory V) :=
  match o with
  | OpSet k v rnd => pr <- Set_ s k v rnd;; Ok pr.2
  | OpRemove k => pr <- Remove s k;; Ok pr.2
  | OpGet k => _ <- Get s k;; Ok s
  | OpSetProbability p => Ok (SetProbability Pow s p)
  end.

Fixpoint run s (ops : list op) : result (Memory V) :=
  match ops with
  | [] => Ok s
  | o :: ops => s' <- step s o;; run s' ops
  end.

(** The operations applied to a freshly constructed list. *)
Definition run_new (m : Z) (ops : list op) : result (Memory V) :=
  s <- NewWithMaxLevel Pow m;; run s ops.

Definition reachable s : Prop := exists m ops, run_new m ops = Ok s.

(** The key an operation is about: [Set] and [Remove] name one, the other
    operations none. *)
Definition targets (o : op) (k : Z) : Prop :=
  match o with
  | OpSet k0 _ _ => k0 = k
  | OpRemove k0 => k0 = k
  | _ => False
  end.

(** What each operation did, as its caller sees it. *)
Inductive outcome : Type :=
| Inserted
| Updated
| Removed
| NotFound
| Other.

#[global] Instance outcome_eq_dec : EqDecision outcome.
Proof. solve_decision. Defined.

Definition outcome_of s (o : op) : result outcome :=
  match o with
  | OpSet k _ _ =>
      g <- Get s k;;
      Ok (match g with Some _ => Updated | None => Inserted end)
  | OpRemove k =>
      pr <- Remove s k;;
      Ok (match pr.1 with Some _ => Removed | None => NotFound end)
  | _ => Ok Other
  end.

Fixpoint trace s (ops : list op) : result (list outcome) :=
  match ops with
  | [] => Ok []
  | o :: ops =>
      x <- outcome_of s o;;
      s' <- step s o;;
      xs <- trace s' ops;;
      Ok (x :: xs)
  end.

Definition trace_new (m : Z) (ops : list op) : result (list outcome) :=
  s <- NewWithMaxLevel Pow m;; trace s ops.

(** By how much an operation with this outcome changes the number of
    entries. *)
Definition delta (x : outcome) : Z :=
  match x with
  | Inserted => 1
  | Removed => -1
  | _ => 0
  end.

Definition count (x : outcome) (xs : list outcome) : Z :=
  Z.of_nat (length (filter (fun y => y = x) xs)).


(** *** The reference model: a finite map from keys to values *)

Definition model_step (m : gmap Z V) (o : op) : gmap Z V :=
  match o with
  | OpSet k v _ => <[k := v]> m
  | OpRemove k => delete k m
  | _ => m
  end.

Definition model_run (m : gmap Z V) (ops : list op) : gmap Z V :=
  foldl model_step m ops.


End Observers.

Arguments op : clear implicits.

(** ** Keys of any sortable type

    [SkipList[T Sortable]] again, for an arbitrary key type [T] with the four
    comparisons the operations use; the definitions follow those of the
    integer-keyed list above one by one.  At [float64] the comparisons are
    those of IEEE 754, under which a NaN is neither below, nor above, nor
    equal to any key. *)

Module Keyed.

(** [a > b], [a <= b], [a < b], [a == b] on keys. *)
Class Sortable (T : Type) : Type := {
  key_gt : T -> T -> bool;
  key_le : T -> T -> bool;
  key_lt : T -> T -> bool;
  key_eq : T -> T -> bool
}.

#[global] Instance float64_Sortable : Sortable float := {|
  key_gt a b := PrimFloat.ltb b a;
  key_le a b := PrimFloat.leb a b;
  key_lt a b := PrimFloat.ltb a b;
  key_eq a b := PrimFloat.eqb a b
|}.

Section Keyed.

Context {T V : Type} `{!Sortable T}.

Variable Pow : float -> Z -> float.

Record Element : Type := mkElement {
  e_node :> elementNode;
  key : T;
  value : V
}.

Record Memory : Type := mkMemory {
  sl :> SkipList;
  heap : list Element;
  stdout : list T
}.

Definition Key (e : Element) : T := key e.
Definition Value (e : Element) : V := value e.
Definition Next (e : Element) : result (option ptr) := index (next e) 0.

Definition deref (s : Memory) (p : ptr) : result Element :=
  match heap s !! p with
  | Some e => Ok e
  | None => Panic
  end.

Definition node_next (s : Memory) (r : nodeRef) : result (list (option ptr)) :=
  match r with
  | Header => Ok (next s)
  | Node p => e <- deref s p;; Ok (next e)
  end.

Definition read_next (s : Memory) (r : nodeRef) (i : nat) : result (option ptr) :=
  nx <- node_next s r;; index nx i.

Definition set_list (s : Memory) (l : SkipList) : Memory :=
  {| sl := l; heap := heap s; stdout := stdout s |}.

Definition set_heap (s : Memory) (h : list Element) : Memory :=
  {| sl := sl s; heap := h; stdout := stdout s |}.

Definition elem_with_next (e : Element) (nx : list (option ptr)) : Element :=
  {| e_node := mkNode nx; key := key e; value := value e |}.

Definition elem_with_value (e : Element) (v : V) : Element :=
  {| e_node := e_node e; key := key e; value := v |}.

Definition write_next (s : Memory) (r : nodeRef) (i : nat) (v : option ptr) : result Memory :=
  match r with
  | Header =>
      nx <- store (next s) i v;;
      Ok (set_list s (with_next s nx))
  | Node p =>
      e <- deref s p;;
      nx <- store (next e) i v;;
      Ok (set_heap s (<[p := elem_with_next e nx]> (heap s)))
  end.

Definition write_value (s : Memory) (p : ptr) (v : V) : result Memory :=
  e <- deref s p;;
  Ok (set_heap s (<[p := elem_with_value e v]> (heap s))).

Definition alloc (s : Memory) (e : Element) : ptr * Memory :=
  (length (heap s), set_heap s (heap s ++ [e])).

Definition Println (s : Memory) (k : T) : Memory :=
  {| sl := sl s; heap := heap s; stdout := stdout s ++ [k] |}.

Definition Len (s : Memory) : Z := Length s.

Definition Front (s : Memory) : result (option ptr) := index (next s) 0.

(** [for next != nil && key > next.key { prev = &next.elementNode; next = next.next[i] }]. *)
Fixpoint advance (fuel : nat) (s : Memory) (k : T) (i : nat)
    (prev : nodeRef) (nxt : option ptr) : result (nodeRef * option ptr) :=
  match fuel with
  | O => Diverge
  | S fuel =>
      match nxt with
      | None => Ok (prev, None)
      | Some p =>
          e <- deref s p;;
          if key_gt k (key e) then
            nxt' <- index (next e) i;;
            advance fuel s k i (Node p) nxt'
          else Ok (prev, Some p)
      end
  end.

Definition walk_fuel (s : Memory) : nat := S (length (heap s)).

Definition level_count (s : Memory) : nat := Z.to_nat (int_wrap (maxLevel s - 1) + 1).

Fixpoint getPrevElementNodes_loop (s : Memory) (k : T) (levels : list nat)
    (prev : nodeRef) (prevs : list (option nodeRef)) : result (list (option nodeRef)) :=
  match levels with
  | [] => Ok prevs
  | i :: levels =>
      nxt <- read_next s prev i;;
      pr <- advance (walk_fuel s) s k i prev nxt;; let '(prev', _) := pr in
      prevs' <- store prevs i (Some prev');;
      getPrevElementNodes_loop s k levels prev' prevs'
  end.

Definition getPrevElementNodes (s : Memory) (k : T) : result (list (option nodeRef) * Memory) :=
  prevs <- getPrevElementNodes_loop s k (levels_down (level_count s)) Header
             (prevNodesCache s);;
  Ok (prevs, set_list s (with_cache s prevs)).

Fixpoint Get_loop (s : Memory) (k : T) (levels : list nat)
    (prev : nodeRef) (nxt : option ptr) : result (nodeRef * option ptr) :=
  match levels with
  | [] => Ok (prev, nxt)
  | i :: levels =>
      nxt0 <- read_next s prev i;;
      pr <- advance (walk_fuel s) s k i prev nxt0;; let '(prev', nxt') := pr in
      Get_loop s k levels prev' nxt'
  end.

Definition Get (s : Memory) (k : T) : result (option ptr) :=
  pr <- Get_loop s k (levels_down (level_count s)) Header None;;
  let '(_, nxt) := pr in
  match nxt with
  | Some p =>
      e <- deref s p;;
      if key_eq (key e) k then Ok (Some p) else Ok None
  | None => Ok None
  end.

Fixpoint randLevel_loop (fuel : nat) (s : Memory) (r : float) (level : Z) : result Z :=
  match fuel with
  | O => Diverge
  | S fuel =>
      if decide (level < maxLevel s) then
        t <- indexZ (probTable s) level;;
        if PrimFloat.ltb r t then randLevel_loop fuel s r (int_wrap (level + 1))
        else Ok level
      else Ok level
  end.

Definition randLevel (s : Memory) (rnd : Z) : result Z :=
  randLevel_loop (S (Z.to_nat (maxLevel s))) s (rand_float rnd) 1.

Definition SetProbability (s : Memory) (newProbability : float) : Memory :=
  set_list s (with_probability s newProbability
                (probabilityTable Pow newProbability (maxLevel s))).

Fixpoint Set_link (s : Memory) (prevs : list (option nodeRef)) (p : ptr)
    (levels : list nat) : result Memory :=
  match levels with
  | [] => Ok s
  | i :: levels =>
      r <- index prevs i;;
      r <- nonnil r;;
      v <- read_next s r i;;
      s <- write_next s (Node p) i v;;
      s <- write_next s r i (Some p);;
      Set_link s prevs p levels
  end.

Definition Set_insert (s : Memory) (prevs : list (option nodeRef))
    (k : T) (v : V) (rnd : Z) : result (ptr * Memory) :=
  level <- randLevel s rnd;;
  nx <- make None level;;
  let '(p, s) := alloc s {| e_node := mkNode nx; key := k; value := v |} in
  s <- Set_link s prevs p (seq 0 (length nx));;
  Ok (p, set_list s (with_Length s (int_wrap (Length s + 1)))).

Definition Set_ (s : Memory) (k : T) (v : V) (rnd : Z) : result (ptr * Memory) :=
  pr <- getPrevElementNodes s k;; let '(prevs, s) := pr in
  r <- index prevs 0;;
  r <- nonnil r;;
  element <- read_next s r 0;;
  match element with
  | Some p =>
      e <- deref s p;;
      if key_le (key e) k then
        let s := if key_lt (key e) k then Println s (key e) else s in
        s <- write_value s p v;;
        Ok (p, s)
      else Set_insert s prevs k v rnd
  | None => Set_insert s prevs k v rnd
  end.

Fixpoint Remove_unlink (s : Memory) (prevs : list (option nodeRef)) (p : ptr)
    (levels : list nat) : result Memory :=
  match levels with
  | [] => Ok s
  | i :: levels =>
      v <- read_next s (Node p) i;;
      r <- index prevs i;;
      r <- nonnil r;;
      s <- write_next s r i v;;
      Remove_unlink s prevs p levels
  end.

Definition Remove (s : Memory) (k : T) : result (option ptr * Memory) :=
  pr <- getPrevElementNodes s k;; let '(prevs, s) := pr in
  r <- index prevs 0;;
  r <- nonnil r;;
  element <- read_next s r 0;;
  match element with
  | Some p =>
      e <- deref s p;;
      if key_le (key e) k then
        s <- Remove_unlink s prevs p (seq 0 (length (next e)));;
        Ok (Some p, set_list s (with_Length s (int_wrap (Length s - 1))))
      else Ok (None, s)
  | None => Ok (None, s)
  end.

Definition NewWithMaxLevel (maxLevel : Z) : result Memory :=
  if decide (maxLevel < 1 ∨ maxLevel > 64) then Panic
  else
    nx <- make None maxLevel;;
    cache <- make None maxLevel;;
    Ok {| sl := {| sl_node := mkNode nx;
                   maxLevel := maxLevel;
                   Length := 0;
                   probability := DefaultProbability;
                   probTable := probabilityTable Pow DefaultProbability maxLevel;
                   prevNodesCache := cache |};
          heap := [];
          stdout := [] |}.

(** Follow [Next] from [cur] to nil, collecting the elements met. *)
Fixpoint follow (fuel : nat) (s : Memory) (cur : option ptr) :
    result (list (ptr * Element)) :=
  match fuel with
  | O => Diverge
  | S fuel =>
      match cur with
      | None => Ok []
      | Some p =>
          e <- deref s p;;
          nxt <- Next e;;
          rest <- follow fuel s nxt;;
          Ok ((p, e) :: rest)
      end
  end.

(** The in-order walk: [for e := list.Front(); e != nil; e = e.Next()]. *)
Definition in_order (s : Memory) : result (list (ptr * Element)) :=
  f <- Front s;; follow (walk_fuel s) s f.

(** Sequences of operations, applied to a freshly constructed list. *)
Inductive op : Type :=
| OpSet (k : T) (v : V) (rnd : Z)
| OpRemove (k : T)
| OpGet (k : T)
| OpSetProbability (p : float).

Definition step (s : Memory) (o : op) : result Memory :=
  match o with
  | OpSet k v rnd => pr <- Set_ s k v rnd;; Ok pr.2
  | OpRemove k => pr <- Remove s k;; Ok pr.2
  | OpGet k => _ <- Get s k;; Ok s
  | OpSetProbability p => Ok (SetProbability s p)
  end.

Fixpoint run (s : Memory) (ops : list op) : result Memory :=
  match ops with
  | [] => Ok s
  | o :: ops => s' <- step s o;; run s' ops
  end.

Definition run_new (m : Z) (ops : list op) : result Memory :=
  s <- NewWithMaxLevel m;; run s ops.

Definition reachable (s : Memory) : Prop := exists m ops, run_new m ops = Ok s.

(** A key that no comparison relates to any key: what a NaN is among the
    [float64]. *)
Record unordered (k : T) : Prop := {
  un_gt : forall x, key_gt k x = false;
  un_lt : forall x, key_gt x k = false;
  un_le : forall x, key_le x k = false;
  un_eq : forall x, key_eq x k = false;
  un_eq_l : forall x, key_eq k x = false
}.

(** No element right behind the header, at any level, has a key below [k]:
    the search for [k] has nowhere to go. *)
Definition not_above_front (s : Memory) (k : T) : Prop :=
  forall (i : nat) p e,
    next s !! i = Some (Some p) -> heap s !! p = Some e -> key_gt k (key e) = false.

(** Every pointer stored in an element is at an allocated element. *)
Definition ptrs_ok (s : Memory) : Prop :=
  forall (p : ptr) (e : Element) (i : nat) (q : ptr),
    heap s !! p = Some e -> next e !! i = Some (Some q) -> (q < length (heap s))%nat.

(** A well-formed header: [maxLevel] slots in the header, the cache and the
    table, and every pointer of the header at an allocated element. *)
Record header_ok (s : Memory) : Prop := {
  ok_maxLevel : 1 <= maxLevel s <= 64;
  ok_header : length (next s) = Z.to_nat (maxLevel s);
  ok_cache : length (prevNodesCache s) = Z.to_nat (maxLevel s);
  ok_probTable : length (probTable s) = Z.to_nat (maxLevel s);
  ok_valid : forall (i : nat) p, next s !! i = Some (Some p) -> (p < length (heap s))%nat
}.

(** All the pointers of a memory are at allocated elements. *)
Definition valid (s : Memory) : Prop :=
  (forall (i : nat) (q : ptr), next s !! i = Some (Some q) -> (q < length (heap s))%nat) /\
  ptrs_ok s.

(** What a write to a forward pointer or to a value keeps. *)
Definition frame (s s' : Memory) : Prop :=
  length (next s') = length (next s) /\
  maxLevel s' = maxLevel s /\ Length s' = Length s /\
  probTable s' = probTable s /\ prevNodesCache s' = prevNodesCache s.

Definition wf (s : Memory) : Prop := header_ok s /\ ptrs_ok s.

(** The memory once the linking loop of [Set] has put the new element right
    behind the header at the levels below [j]. *)
Definition linked_front (s : Memory) (k : T) (v : V) (c : list (option nodeRef))
    (h j : nat) : Memory :=
  {| sl := with_next (with_cache s c)
             (replicate j (Some (length (heap s))) ++ drop j (next s));
     heap := heap s ++
       [ {| e_node := mkNode (take j (next s) ++ replicate (h - j) None);
            key := k; value := v |} ];
     stdout := stdout s |}.

End Keyed.

Arguments Element : clear implicits.
Arguments Memory : clear implicits.
Arguments op : clear implicits.

End Keyed.

Coercion Keyed.sl : Keyed.Memory >-> SkipList.
Coercion Keyed.e_node : Keyed.Element >-> elementNode.

(** ** The two models side by side

    A list with keys of any type and a list with integer keys that hold the
    same pointers: the structure the operations build does not depend on
    what the keys are. *)

Section Side_by_side.

Context {T V : Type} `{!Keyed.Sortable T}.

(** [key > p.key] for the element at [p]. *)
Definition key_above (s : Keyed.Memory T V) (k : T) (p : ptr) : bool :=
  match Keyed.heap s !! p with
  | Some e => Keyed.key_gt k (Keyed.key e)
  | None => false
  end.

(** The first element of a level list, if there is one, is not below [k]. *)
Definition stops (s : Keyed.Memory T V) (k : T) (qs : list ptr) : Prop :=
  match head qs with
  | Some q => key_above s k q = false
  | None => True
  end.

(** The same header, counters, cache and table, and the same forward
    pointers in every element. *)
Definition same_pointers (s : Keyed.Memory T V) (z : Memory V) : Prop :=
  Keyed.sl s = sl z /\ Keyed.e_node <$> Keyed.heap s = e_node <$> heap z.

(** Twice the position of [p] in [ps], counted from [j]. *)
Fixpoint rank_from (j : Z) (ps : list ptr) (p : ptr) : Z :=
  match ps with
  | [] => 0
  | q :: ps => if decide (q = p) then j else rank_from (j + 2) ps p
  end.

Definition rank (ps : list ptr) (p : ptr) : Z := rank_from 0 ps p.

(** The integer-keyed list with the keys replaced. *)
Definition rekey (f : ptr -> Z) (z : Memory V) : Memory V :=
  set_heap z (imap (fun p e => {| e_node := e_node e; key := f p; value := value e |})
                (heap z)).

(** The pointers of [s] form a skip list over the elements [ps]. *)
Definition keyed_inv (s : Keyed.Memory T V) (ps : list ptr) : Prop :=
  exists z, same_pointers s z /\ Inv z ps.

End Side_by_side.

(** ** A concrete scenario

    The scenario of the specification on a list of four levels: [Set(5, a)],
    [Set(2, b)], [Set(8, c)], [Set(5, z)].  [pow_iter] stands in for
    [math.Pow] at the integer exponents the table uses. *)

Definition pow_iter (x : float) (n : Z) : float := Z.iter n (PrimFloat.mul x) 1%float.

Definition demo_ops : list (op string) :=
  [OpSet 5 "a"%string 1000; OpSet 2 "b"%string (2 ^ 62);
   OpSet 8 "c"%string (2 ^ 61); OpSet 5 "z"%string (2 ^ 60)].

Definition empty_memory : Memory string :=
  {| sl := {| sl_node := mkNode []; maxLevel := 0; Length := 0;
              probability := 0%float; probTable := []; prevNodesCache := [] |};
     heap := []; stdout := [] |}.

Definition demo : Memory string :=
  match run_new pow_iter 4 demo_ops with
  | Ok s => s
  | _ => empty_memory
  end.

Definition demo_removed : Memory string :=
  match Remove demo 2 with
  | Ok (_, s) => s
  | _ => empty_memory
  end.

(** A key set, removed and set again. *)
Definition reset_ops : list (op string) :=
  [OpSet 1 "a"%string 0; OpRemove 1; OpSet 1 "b"%string 0].

(** A list with [float64] keys: [Set(1.5, a)], [Set(0.5, b)] on a list of
    four levels. *)
Definition float_ops : list (Keyed.op float string) :=
  [Keyed.OpSet 1.5%float "a"%string 1000; Keyed.OpSet 0.5%float "b"%string (2 ^ 62)].

Definition float_demo : Keyed.Memory float string :=
  match Keyed.run_new pow_iter 4 float_ops with
  | Ok s => s
  | _ => {| Keyed.sl := sl empty_memory; Keyed.heap := []; Keyed.stdout := [] |}
  end.

(** * Properties *)

(** ** The result monad *)

Lemma bind_Ok {A B} (m : result A) (f : A -> result B) b :
  bind m f = Ok b <-> exists a, m = Ok a /\ f a = Ok b.
Proof.
  destruct m; simpl; split; try (intros (a0 & Ha & Hf)); try discriminate; eauto.
  by inversion Ha; subst.
Qed.

Lemma index_Ok {A} (xs : list A) i x : index xs i = Ok x <-> xs !! i = Some x.
Proof. unfold index. destruct (xs !! i); split; intros H; by inversion H. Qed.

Lemma index_lt {A} (xs : list A) i :
  (i < length xs)%nat -> exists x, index xs i = Ok x /\ xs !! i = Some x.
Proof.
  intros Hi. apply lookup_lt_is_Some_2 in Hi as [x Hx].
  exists x. split; [by apply index_Ok | done].
Qed.

Lemma store_Ok {A} (xs : list A) i x :
  (i < length xs)%nat -> store xs i x = Ok (<[i:=x]> xs).
Proof. intros Hi. unfold store. by rewrite decide_True. Qed.

Lemma store_inv {A} (xs ys : list A) i x :
  store xs i x = Ok ys -> (i < length xs)%nat /\ ys = <[i:=x]> xs.
Proof. unfold store. case_decide; intros Hs; by inversion Hs. Qed.

Lemma int_wrap_small z : - 2 ^ 63 <= z < 2 ^ 63 -> int_wrap z = z.
Proof. intros Hz. unfold int_wrap. rewrite Z.mod_small; lia. Qed.

Lemma int_wrap_add z a : int_wrap (int_wrap z + a) = int_wrap (z + a).
Proof.
  unfold int_wrap. f_equal.
  replace ((z + 2 ^ 63) `mod` 2 ^ 64 - 2 ^ 63 + a + 2 ^ 63)
    with ((z + 2 ^ 63) `mod` 2 ^ 64 + a) by lia.
  replace (z + a + 2 ^ 63) with ((z + 2 ^ 63) + a) by lia.
  by rewrite Zplus_mod_idemp_l.
Qed.

(** ** Reading and writing the memory *)

Section Memory_lemmas.

Context {V : Type}.
Implicit Types (s : Memory V) (r : nodeRef) (p q : ptr) (i j : nat).

Lemma same_shape_refl s : same_shape s s.
Proof. by constructor. Qed.

Lemma same_shape_trans s1 s2 s3 :
  same_shape s1 s2 -> same_shape s2 s3 -> same_shape s1 s3.
Proof.
  intros [] []. constructor; intros; etrans; eauto.
Qed.

Lemma deref_Ok s p e : deref s p = Ok e <-> heap s !! p = Some e.
Proof. unfold deref. destruct (heap s !! p); split; intros H; by inversion H. Qed.

Lemma read_next_slot s r i :
  read_next s r i = match slot s r i with Some v => Ok v | None => Panic end.
Proof.
  unfold read_next, node_next, slot, deref, index.
  destruct r as [|p]; simpl; [done|].
  by destruct (heap s !! p).
Qed.


Lemma slot_height s p i v : slot s (Node p) i = Some v -> (i < heightOf s p)%nat.
Proof.
  unfold slot, heightOf. destruct (heap s !! p); [|done].
  apply lookup_lt_Some.
Qed.

Lemma height_slot s p i : (i < heightOf s p)%nat -> is_Some (slot s (Node p) i).
Proof.
  unfold slot, heightOf. destruct (heap s !! p); [|lia].
  apply lookup_lt_is_Some_2.
Qed.

Lemma height_valid s p : (0 < heightOf s p)%nat -> (p < length (heap s))%nat.
Proof.
  unfold heightOf. destruct (heap s !! p) eqn:E; [|lia].
  intros _. by apply lookup_lt_Some in E.
Qed.

(** A write to [r.next[i]] changes that slot and nothing else. *)
Lemma write_next_spec s r i v :
  is_Some (slot s r i) ->
  exists s', write_next s r i v = Ok s' /\ same_shape s s' /\
    forall r' i', slot s' r' i' =
      if decide (r' = r /\ i' = i) then Some v else slot s r' i'.
Proof.
  intros [w Hw]. destruct r as [|p]; simpl in Hw; unfold write_next.
  - apply lookup_lt_Some in Hw as Hlt.
    rewrite (store_Ok _ _ _ Hlt). simpl. eexists. split; [done|]. split.
    + constructor; simpl; try done. by rewrite length_insert.
    + intros r' i'. case_decide as Hd.
      * destruct Hd as [-> ->]. simpl. by apply list_lookup_insert_eq.
      * destruct r' as [|p']; simpl; [|done].
        apply list_lookup_insert_ne. naive_solver.
  - unfold deref. destruct (heap s !! p) as [e|] eqn:He; [|done]. simpl.
    apply lookup_lt_Some in Hw as Hlt. apply lookup_lt_Some in He as Hp.
    rewrite (store_Ok _ _ _ Hlt). simpl. eexists. split; [done|]. split.
    + constructor; simpl; try done.
      * by rewrite length_insert.
      * intros q. unfold keyOf. simpl. destruct (decide (q = p)) as [->|Hne].
        -- by rewrite list_lookup_insert_eq, He.
        -- by rewrite list_lookup_insert_ne.
      * intros q. unfold valueOf. simpl. destruct (decide (q = p)) as [->|Hne].
        -- by rewrite list_lookup_insert_eq, He.
        -- by rewrite list_lookup_insert_ne.
      * intros q. unfold heightOf. simpl. destruct (decide (q = p)) as [->|Hne].
        -- rewrite list_lookup_insert_eq, He by done. simpl. by rewrite length_insert.
        -- by rewrite list_lookup_insert_ne.
    + intros r' i'. case_decide as Hd.
      * destruct Hd as [-> ->]. simpl. rewrite list_lookup_insert_eq by done.
        simpl. by apply list_lookup_insert_eq.
      * destruct r' as [|p']; simpl; [done|].
        destruct (decide (p' = p)) as [->|Hne].
        -- rewrite list_lookup_insert_eq by done. simpl. rewrite He.
           apply list_lookup_insert_ne. naive_solver.
        -- by rewrite list_lookup_insert_ne.
Qed.

End Memory_lemmas.

(** ** Chains of forward pointers *)

Section Chain_lemmas.

Context {V : Type}.
Implicit Types (s : Memory V) (r : nodeRef) (p q : ptr) (i j : nat).

Lemma last_ref_nil r : last_ref r [] = r.
Proof. done. Qed.

Lemma last_ref_cons r q qs : last_ref r (q :: qs) = last_ref (Node q) qs.
Proof.
  unfold last_ref. destruct qs as [|q' qs]; simpl; [done|].
  destruct (last (q' :: qs)) eqn:E; [done|]. by apply last_None in E.
Qed.

Lemma last_ref_app_cons r xs q ys :
  last_ref r (xs ++ q :: ys) = last_ref (Node q) ys.
Proof.
  revert r. induction xs as [|x xs IH]; intros r; simpl.
  - apply last_ref_cons.
  - rewrite last_ref_cons. apply IH.
Qed.

Lemma last_ref_elem r qs :
  last_ref r qs = r \/ exists q, last_ref r qs = Node q /\ q ∈ qs.
Proof.
  unfold last_ref. destruct (last qs) as [q|] eqn:E; [|by left].
  right. exists q. split; [done|]. apply last_Some in E as [l' ->].
  set_solver.
Qed.

Lemma chain_slot s i r qs : chain s i r qs -> slot s r i = Some (head qs).
Proof. destruct qs; simpl; naive_solver. Qed.

Lemma chain_app s i r xs ys :
  chain s i r (xs ++ ys) -> chain s i (last_ref r xs) ys.
Proof.
  revert r. induction xs as [|x xs IH]; intros r; simpl; [done|].
  intros [_ Hc]. rewrite last_ref_cons. by apply IH.
Qed.

Lemma chain_heights s i r qs :
  chain s i r qs -> Forall (fun q => (i < heightOf s q)%nat) qs.
Proof.
  revert r. induction qs as [|q qs IH]; intros r; simpl; [constructor|].
  intros [_ Hc]. constructor; [|by eapply IH].
  apply chain_slot in Hc. by eapply slot_height.
Qed.

(** A chain depends only on the slots of its own nodes at its own level. *)
Lemma chain_frame s s' i r qs :
  (forall r', r' = r \/ r' ∈ Node <$> qs -> slot s' r' i = slot s r' i) ->
  chain s i r qs -> chain s' i r qs.
Proof.
  revert r. induction qs as [|q qs IH]; intros r Hs; simpl.
  - intros <-. apply Hs. by left.
  - intros [H1 H2]. split.
    + rewrite <- H1. apply Hs. by left.
    + apply IH; [|done]. intros r' [->|Hr']; apply Hs; right; set_solver.
Qed.

(** Linking [p] between [last_ref r xs] and the rest [ys]. *)
Lemma chain_insert s s' i r xs ys p :
  chain s i r (xs ++ ys) ->
  NoDup (r :: (Node <$> xs ++ ys)) ->
  Node p ∉ r :: (Node <$> xs ++ ys) ->
  (forall r', slot s' r' i =
     if decide (r' = last_ref r xs) then Some (Some p)
     else if decide (r' = Node p) then Some (head ys)
     else slot s r' i) ->
  chain s' i r (xs ++ p :: ys).
Proof.
  revert r. induction xs as [|x xs IH]; intros r Hc Hnd Hp Hs.
  - simpl in *. rewrite last_ref_nil in Hs.
    apply NoDup_cons in Hnd as [Hr Hnd].
    split.
    + rewrite Hs. by rewrite decide_True.
    + assert (Hps : slot s' (Node p) i = Some (head ys)).
      { rewrite Hs. rewrite decide_False by set_solver. by rewrite decide_True. }
      assert (Hfr : forall r', r' ∈ Node <$> ys -> slot s' r' i = slot s r' i).
      { intros r' Hr'. rewrite Hs. rewrite decide_False by set_solver.
        rewrite decide_False by set_solver. done. }
      destruct ys as [|y ys]; simpl in *; [done|].
      split; [done|]. destruct Hc as [_ Hc].
      eapply chain_frame; [|done]. intros r' [->|Hr']; apply Hfr; set_solver.
  - simpl in *. destruct Hc as [Hc1 Hc2].
    apply NoDup_cons in Hnd as [Hr Hnd].
    rewrite last_ref_cons in Hs. split.
    + rewrite Hs. rewrite decide_False.
      * rewrite decide_False by set_solver. done.
      * intros ->. destruct (last_ref_elem (Node x) xs) as [E|(q & E & Hq)];
          rewrite E in Hr; apply Hr; set_solver.
    + apply IH; [done|done|set_solver|done].
Qed.

(** Unlinking [p] from between [last_ref r xs] and [ys]. *)
Lemma chain_remove s s' i r xs p ys :
  chain s i r (xs ++ p :: ys) ->
  NoDup (r :: (Node <$> xs ++ p :: ys)) ->
  (forall r', slot s' r' i =
     if decide (r' = last_ref r xs) then Some (head ys) else slot s r' i) ->
  chain s' i r (xs ++ ys).
Proof.
  revert r. induction xs as [|x xs IH]; intros r Hc Hnd Hs.
  - simpl in *. rewrite last_ref_nil in Hs.
    apply NoDup_cons in Hnd as [Hr Hnd]. destruct Hc as [_ Hc].
    apply NoDup_cons in Hnd as [Hp Hnd].
    assert (Hfr : forall r', r' ∈ Node <$> ys -> slot s' r' i = slot s r' i).
    { intros r' Hr'. rewrite Hs. rewrite decide_False by set_solver. done. }
    assert (Hr' : slot s' r i = Some (head ys)).
    { rewrite Hs. by rewrite decide_True. }
    destruct ys as [|y ys]; simpl in *; [done|].
    split; [done|]. destruct Hc as [_ Hc].
    eapply chain_frame; [|done]. intros r' [->|Hin]; apply Hfr; set_solver.
  - simpl in *. destruct Hc as [Hc1 Hc2].
    apply NoDup_cons in Hnd as [Hr Hnd].
    rewrite last_ref_cons in Hs. split.
    + rewrite Hs. rewrite decide_False; [done|].
      intros ->. destruct (last_ref_elem (Node x) xs) as [E|(q & E & Hq)];
        rewrite E in Hr; apply Hr; set_solver.
    + apply IH; [done|done|done].
Qed.

(** The inner loop stops at the last node below [k]. *)
Lemma advance_chain s k i xs ys :
  forall prev fuel,
  chain s i prev (xs ++ ys) ->
  Forall (fun q => keyOf s q < k) xs ->
  Forall (fun q => ~ keyOf s q < k) ys ->
  (length xs < fuel)%nat ->
  advance fuel s k i prev (head (xs ++ ys)) = Ok (last_ref prev xs, head ys).
Proof.
  induction xs as [|x xs IH]; intros prev fuel Hc Hxs Hys Hfuel.
  - destruct fuel as [|fuel]; [simpl in Hfuel; lia|].
    simpl. destruct ys as [|y ys]; simpl; [done|].
    destruct Hc as [_ Hc]. apply chain_slot in Hc.
    unfold slot in Hc. unfold deref.
    destruct (heap s !! y) as [e|] eqn:He; [|done]. simpl.
    apply Forall_cons in Hys as [Hy _]. unfold keyOf in Hy. rewrite He in Hy.
    rewrite decide_False by lia. done.
  - destruct fuel as [|fuel]; [simpl in Hfuel; lia|].
    simpl in *. destruct Hc as [_ Hc].
    apply Forall_cons in Hxs as [Hx Hxs].
    pose proof (chain_slot _ _ _ _ Hc) as Hsl.
    unfold slot in Hsl. unfold deref.
    destruct (heap s !! x) as [e|] eqn:He; [|done]. simpl.
    unfold keyOf in Hx. rewrite He in Hx.
    rewrite decide_True by lia.
    rewrite (proj2 (index_Ok _ _ _) Hsl). simpl.
    rewrite last_ref_cons. apply IH; [done|done|done|lia].
Qed.

End Chain_lemmas.

(** ** The predecessor search on a well-formed list *)

Arguments advance : simpl never.
Arguments walk_fuel : simpl never.

Section Search_lemmas.

Context {V : Type}.
Implicit Types (s : Memory V) (r : nodeRef) (p q : ptr) (i j : nat).

Lemma filter_none {A} (P : A -> Prop) `{!forall x, Decision (P x)} (l : list A) :
  Forall (fun x => ~ P x) l -> filter P l = [].
Proof.
  induction 1 as [|x l Hx Hl IH]; [done|].
  by rewrite filter_cons, decide_False.
Qed.

Lemma filter_all {A} (P : A -> Prop) `{!forall x, Decision (P x)} (l : list A) :
  Forall P l -> filter P l = l.
Proof.
  induction 1 as [|x l Hx Hl IH]; [done|].
  rewrite filter_cons, decide_True by done. by f_equal.
Qed.

Lemma filter_Forall {A} (P : A -> Prop) `{!forall x, Decision (P x)} (l : list A) :
  Forall P (filter P l).
Proof.
  apply Forall_forall. intros x Hx.
  by apply list_elem_of_filter in Hx as [? _].
Qed.

Lemma sorted_split s k ps :
  StronglySorted Z.lt (keyOf s <$> ps) -> ps = below s k ps ++ above s k ps.
Proof.
  unfold below, above. induction ps as [|p ps IH]; [done|].
  rewrite fmap_cons. intros Hs. apply StronglySorted_inv in Hs as [Hs Hp].
  rewrite !filter_cons. destruct (decide (keyOf s p < k)) as [Hlt|Hge].
  - rewrite decide_False by tauto. simpl. f_equal. by apply IH.
  - rewrite decide_True by done.
    assert (Hall : Forall (fun q => ~ keyOf s q < k) ps).
    { rewrite Forall_fmap in Hp. eapply Forall_impl; [done|]. simpl. lia. }
    rewrite (filter_none (fun q => keyOf s q < k)) by done.
    simpl. f_equal. symmetry. by apply filter_all.
Qed.

Lemma sorted_NoDup s ps : StronglySorted Z.lt (keyOf s <$> ps) -> NoDup ps.
Proof.
  intros Hs. apply (NoDup_fmap_1 (keyOf s)).
  induction Hs as [|x l Hs IH Hx]; constructor; [|done].
  intros Hin. rewrite Forall_forall in Hx. apply Hx in Hin. lia.
Qed.

Lemma sorted_key_inj s ps p q :
  StronglySorted Z.lt (keyOf s <$> ps) ->
  p ∈ ps -> q ∈ ps -> keyOf s p = keyOf s q -> p = q.
Proof.
  induction ps as [|x ps IH]; [by intros _ ?%elem_of_nil|].
  rewrite fmap_cons. intros [Hs Hx]%StronglySorted_inv.
  rewrite Forall_fmap, Forall_forall in Hx. simpl in Hx.
  intros [->|Hp]%elem_of_cons [->|Hq]%elem_of_cons Hk; [done| | |by apply IH].
  - apply Hx in Hq. lia.
  - apply Hx in Hp. lia.
Qed.

Lemma pigeonhole (ps : list nat) n :
  NoDup ps -> Forall (fun p => (p < n)%nat) ps -> (length ps <= n)%nat.
Proof.
  intros Hnd Hall. trans (length (seq 0 n)); [|by rewrite length_seq].
  apply submseteq_length, NoDup_submseteq; [done|].
  intros x Hx. rewrite Forall_forall in Hall.
  apply Hall in Hx. apply elem_of_seq. lia.
Qed.

Lemma level_list_app s i xs ys :
  level_list s i (xs ++ ys) = level_list s i xs ++ level_list s i ys.
Proof. apply filter_app. Qed.

Lemma level_list_le s i j ps :
  (i <= j)%nat -> level_list s j ps = level_list s j (level_list s i ps).
Proof.
  intros Hij. unfold level_list. induction ps as [|p ps IH]; [done|].
  rewrite !filter_cons. destruct (decide (j < heightOf s p)%nat).
  - rewrite decide_True by lia. rewrite filter_cons, decide_True by done.
    by f_equal.
  - destruct (decide (i < heightOf s p)%nat); [|done].
    rewrite filter_cons, decide_False by done. done.
Qed.

Section With_Inv.

Variables (s : Memory V) (ps : list ptr) (k : Z).
Hypothesis HInv : Inv s ps.

Lemma Inv_NoDup : NoDup ps.
Proof. eapply sorted_NoDup, inv_sorted, HInv. Qed.

Lemma Inv_levels : level_count s = Z.to_nat (maxLevel s).
Proof.
  pose proof (inv_maxLevel _ _ HInv). unfold level_count.
  rewrite int_wrap_small by lia. f_equal. lia.
Qed.

Lemma Inv_split : ps = below s k ps ++ above s k ps.
Proof. apply sorted_split, inv_sorted, HInv. Qed.

Lemma below_lt : Forall (fun q => keyOf s q < k) (below s k ps).
Proof. apply filter_Forall. Qed.

Lemma above_ge : Forall (fun q => ~ keyOf s q < k) (above s k ps).
Proof. apply (filter_Forall (fun q => ~ keyOf s q < k)). Qed.

Lemma Inv_fuel (qs : list ptr) : (length qs <= length ps)%nat -> (length qs < walk_fuel s)%nat.
Proof.
  intros Hle. unfold walk_fuel. apply Nat.lt_succ_r.
  etrans; [done|]. apply pigeonhole; [apply Inv_NoDup|]. apply HInv.
Qed.

Lemma level_list_top i xs :
  xs ⊆ ps -> (Z.to_nat (maxLevel s) <= i)%nat -> level_list s i xs = [].
Proof.
  intros Hsub Hi. apply filter_none, Forall_forall. intros x Hx.
  pose proof (inv_valid _ _ HInv) as Hv. rewrite Forall_forall in Hv.
  assert (x ∈ ps) as Hin%Hv by by apply Hsub.
  apply (inv_heights _ _ HInv) in Hin. lia.
Qed.

Lemma level_list_0 xs : xs ⊆ ps -> level_list s 0 xs = xs.
Proof.
  intros Hsub. apply filter_all, Forall_forall. intros x Hx.
  pose proof (inv_valid _ _ HInv) as Hv. rewrite Forall_forall in Hv.
  assert (x ∈ ps) as Hin%Hv by by apply Hsub.
  apply (inv_heights _ _ HInv) in Hin. lia.
Qed.

Lemma below_sub : below s k ps ⊆ ps.
Proof. intros x Hx. by apply list_elem_of_filter in Hx as [_ ?]. Qed.

Lemma above_sub : above s k ps ⊆ ps.
Proof. intros x Hx. by apply list_elem_of_filter in Hx as [_ ?]. Qed.

Lemma pred_at_top i : (Z.to_nat (maxLevel s) <= i)%nat -> pred_at s k ps i = Header.
Proof.
  intros Hi. unfold pred_at. by rewrite (level_list_top _ _ below_sub Hi).
Qed.

(** One level of the search: from the predecessor found one level up, the
    walk ends at the predecessor of this level. *)
Lemma search_step i :
  (i < Z.to_nat (maxLevel s))%nat ->
  exists nxt, slot s (pred_at s k ps (S i)) i = Some nxt /\
    advance (walk_fuel s) s k i (pred_at s k ps (S i)) nxt =
      Ok (pred_at s k ps i, head (level_list s i (above s k ps))).
Proof.
  intros Hi. pose proof (inv_chain _ _ HInv i Hi) as Hc.
  pose proof below_lt as HA. pose proof above_ge as HB.
  assert (HlenA : (length (below s k ps) <= length ps)%nat) by apply length_filter.
  set (A := below s k ps) in *. set (B := above s k ps) in *.
  assert (Hps : ps = A ++ B) by apply Inv_split.
  rewrite Hps, level_list_app in Hc. unfold pred_at. fold A.
  assert (HBi : Forall (fun q => ~ keyOf s q < k) (level_list s i B)).
  { apply Forall_forall. intros x Hx. apply list_elem_of_filter in Hx as [_ Hx].
    rewrite Forall_forall in HB. by apply HB. }
  destruct (last (level_list s (S i) A)) as [q|] eqn:E.
  - pose proof E as Hq. apply last_Some in Hq as [l' Hq].
    assert (q ∈ level_list s (S i) A) as Hqin by (rewrite Hq; set_solver).
    apply list_elem_of_filter in Hqin as [Hqh _].
    apply last_filter_Some in E as Hsplit. destruct Hsplit as (A1 & A2 & HA12 & HA2).
    assert (Hlast : last_ref Header (level_list s (S i) A) = Node q).
    { unfold last_ref. by rewrite E. }
    rewrite Hlast.
    assert (HLA : level_list s i A = level_list s i A1 ++ q :: level_list s i A2).
    { rewrite HA12, level_list_app. unfold level_list at 2.
      rewrite filter_cons, decide_True by lia. done. }
    rewrite HLA, <- app_assoc in Hc. apply chain_app in Hc.
    simpl in Hc. destruct Hc as [_ Hc].
    exists (head (level_list s i A2 ++ level_list s i B)).
    split; [by apply chain_slot|].
    rewrite HLA, last_ref_app_cons. apply advance_chain; [done| |done|].
    + apply Forall_forall. intros x Hx. apply list_elem_of_filter in Hx as [_ Hx].
      rewrite Forall_forall in HA. apply HA. rewrite HA12. set_solver.
    + apply Inv_fuel. etrans; [apply length_filter|]. etrans; [|exact HlenA].
      rewrite HA12, length_app. simpl. lia.
  - assert (Hlast : last_ref Header (level_list s (S i) A) = Header).
    { unfold last_ref. by rewrite E. }
    rewrite Hlast.
    exists (head (level_list s i A ++ level_list s i B)).
    split; [by apply chain_slot|].
    apply advance_chain; [done| |done|].
    + apply Forall_forall. intros x Hx. apply list_elem_of_filter in Hx as [_ Hx].
      rewrite Forall_forall in HA. by apply HA.
    + apply Inv_fuel. etrans; [apply length_filter|]. done.
Qed.

Lemma levels_down_S i m :
  reverse (seq i (S m)) = (i + m)%nat :: reverse (seq i m).
Proof. by rewrite seq_S, reverse_app. Qed.

(** The levels [i + m - 1, ..., i] of [getPrevElementNodes]. *)
Lemma getPrevElementNodes_loop_spec i m :
  forall prevs,
  (i + m <= Z.to_nat (maxLevel s))%nat ->
  (i + m <= length prevs)%nat ->
  exists prevs',
    getPrevElementNodes_loop s k (reverse (seq i m)) (pred_at s k ps (i + m)) prevs
      = Ok prevs' /\
    length prevs' = length prevs /\
    (forall j, (i <= j < i + m)%nat -> prevs' !! j = Some (Some (pred_at s k ps j))) /\
    (forall j, ~ (i <= j < i + m)%nat -> prevs' !! j = prevs !! j).
Proof.
  induction m as [|m IH]; intros prevs Hm Hlen.
  - simpl. exists prevs. split; [done|]. split; [done|]. split; [intros; lia | done].
  - rewrite levels_down_S. simpl.
    destruct (search_step (i + m)%nat) as (nxt & Hslot & Hadv); [lia|].
    replace (i + S m)%nat with (S (i + m)) by lia.
    rewrite read_next_slot, Hslot. simpl. rewrite Hadv. simpl.
    rewrite store_Ok by lia. simpl.
    destruct (IH (<[(i + m)%nat := Some (pred_at s k ps (i + m))]> prevs))
      as (prevs' & Hrun & Hl & Hin & Hout); [lia | rewrite length_insert; lia |].
    exists prevs'. split; [done|]. split; [by rewrite Hl, length_insert|]. split.
    + intros j Hj. destruct (decide (j = i + m)%nat) as [->|Hne].
      * rewrite Hout by lia. apply list_lookup_insert_eq. lia.
      * apply Hin. lia.
    + intros j Hj. rewrite Hout by lia. apply list_lookup_insert_ne. lia.
Qed.

(** The levels [i + m - 1, ..., i] of [Get]. *)
Lemma Get_loop_spec i m :
  forall nxt0,
  (i + m <= Z.to_nat (maxLevel s))%nat ->
  Get_loop s k (reverse (seq i m)) (pred_at s k ps (i + m)) nxt0 =
    Ok (pred_at s k ps i,
        match m with
        | O => nxt0
        | S _ => head (level_list s i (above s k ps))
        end).
Proof.
  induction m as [|m IH]; intros nxt0 Hm.
  - simpl. by rewrite Nat.add_0_r.
  - rewrite levels_down_S. simpl.
    destruct (search_step (i + m)%nat) as (nxt & Hslot & Hadv); [lia|].
    replace (i + S m)%nat with (S (i + m)) by lia.
    rewrite read_next_slot, Hslot. simpl. rewrite Hadv. simpl.
    rewrite IH by lia. destruct m; [|done]. by rewrite Nat.add_0_r.
Qed.

Lemma levels_down_count : levels_down (level_count s) = reverse (seq 0 (Z.to_nat (maxLevel s))).
Proof. unfold levels_down. by rewrite Inv_levels. Qed.

Lemma getPrevElementNodes_spec :
  exists prevs,
    getPrevElementNodes s k = Ok (prevs, set_list s (with_cache s prevs)) /\
    length prevs = Z.to_nat (maxLevel s) /\
    forall j, (j < Z.to_nat (maxLevel s))%nat ->
      prevs !! j = Some (Some (pred_at s k ps j)).
Proof.
  destruct (getPrevElementNodes_loop_spec 0 (Z.to_nat (maxLevel s)) (prevNodesCache s))
    as (prevs & Hrun & Hlen & Hin & _).
  { lia. } { rewrite (inv_cache _ _ HInv). lia. }
  rewrite Nat.add_0_l, pred_at_top in Hrun by lia.
  exists prevs. unfold getPrevElementNodes. rewrite levels_down_count, Hrun. simpl.
  split; [done|]. split; [by rewrite Hlen, (inv_cache _ _ HInv)|].
  intros j Hj. apply Hin. lia.
Qed.

(** At every level the predecessor points to the first element not below [k]. *)
Lemma pred_chain i :
  (i < Z.to_nat (maxLevel s))%nat ->
  chain s i (pred_at s k ps i) (level_list s i (above s k ps)).
Proof.
  intros Hi. pose proof (inv_chain _ _ HInv i Hi) as Hc.
  rewrite Inv_split, level_list_app in Hc. by apply chain_app in Hc.
Qed.

Lemma pred_slot i :
  (i < Z.to_nat (maxLevel s))%nat ->
  slot s (pred_at s k ps i) i = Some (head (level_list s i (above s k ps))).
Proof. intros Hi. by apply chain_slot, pred_chain. Qed.

Lemma pred_at_elem i :
  pred_at s k ps i = Header \/
  exists q, pred_at s k ps i = Node q /\ q ∈ ps /\ keyOf s q < k /\ (i < heightOf s q)%nat.
Proof.
  unfold pred_at. destruct (last_ref_elem Header (level_list s i (below s k ps)))
    as [E|(q & E & Hq)]; [by left|right].
  exists q. split; [done|]. apply list_elem_of_filter in Hq as [Hh Hq].
  apply list_elem_of_filter in Hq as [Hk Hq]. done.
Qed.

Lemma Inv_lookup p : p ∈ ps -> exists e, heap s !! p = Some e /\ key e = keyOf s p.
Proof.
  intros Hp. pose proof (inv_valid _ _ HInv) as Hv. rewrite Forall_forall in Hv.
  apply Hv, lookup_lt_is_Some_2 in Hp as [e He]. exists e. split; [done|].
  unfold keyOf. by rewrite He.
Qed.

Lemma Get_spec : Get s k = Ok (find_key s k ps).
Proof.
  pose proof (inv_maxLevel _ _ HInv) as HM.
  pose proof (Get_loop_spec 0 (Z.to_nat (maxLevel s)) None) as Hrun.
  rewrite Nat.add_0_l, pred_at_top in Hrun by lia.
  unfold Get. rewrite levels_down_count, Hrun by lia. simpl.
  destruct (Z.to_nat (maxLevel s)) as [|m] eqn:Em; [lia|].
  rewrite (level_list_0 _ above_sub). unfold find_key.
  destruct (above s k ps) as [|p B] eqn:EB; simpl; [done|].
  assert (p ∈ ps) as Hp by (apply above_sub; rewrite EB; set_solver).
  destruct (Inv_lookup p Hp) as (e & He & Hk).
  rewrite (proj2 (deref_Ok _ _ _) He). simpl. rewrite Hk.
  by destruct (decide (keyOf s p = k)).
Qed.

Lemma above_sorted : StronglySorted Z.lt (keyOf s <$> above s k ps).
Proof.
  pose proof (inv_sorted _ _ HInv) as Hs.
  rewrite Inv_split, fmap_app in Hs. by apply StronglySorted_app_1_r in Hs.
Qed.

Lemma below_sorted : StronglySorted Z.lt (keyOf s <$> below s k ps).
Proof.
  pose proof (inv_sorted _ _ HInv) as Hs.
  rewrite Inv_split, fmap_app in Hs. by apply StronglySorted_app_1_l in Hs.
Qed.

Lemma find_key_Some p : find_key s k ps = Some p -> p ∈ ps /\ keyOf s p = k.
Proof.
  unfold find_key. destruct (above s k ps) as [|q B] eqn:EB; simpl; [done|].
  case_decide as Hq; [|done]. intros [= ->]. split; [|done].
  apply above_sub. rewrite EB. set_solver.
Qed.

Lemma find_key_None : find_key s k ps = None -> Forall (fun q => k < keyOf s q) (above s k ps).
Proof.
  unfold find_key. pose proof above_ge as Hge. pose proof above_sorted as Hs.
  destruct (above s k ps) as [|q B] eqn:EB; simpl; [done|].
  case_decide as Hq; [done|]. intros _.
  rewrite fmap_cons in Hs. apply StronglySorted_inv in Hs as [_ Hs].
  apply Forall_cons in Hge as [Hq' _].
  constructor; [lia|]. rewrite Forall_fmap in Hs.
  eapply Forall_impl; [done|]. simpl. lia.
Qed.

Lemma find_key_absent : find_key s k ps = None -> forall p, p ∈ ps -> keyOf s p <> k.
Proof.
  intros Hf%find_key_None p Hp Hk. rewrite Forall_forall in Hf.
  assert (p ∈ above s k ps) as Hin%Hf; [|lia].
  apply list_elem_of_filter. split; [lia|done].
Qed.

Lemma find_key_present p : p ∈ ps -> keyOf s p = k -> find_key s k ps = Some p.
Proof.
  intros Hp Hk. destruct (find_key s k ps) as [q|] eqn:E.
  - apply find_key_Some in E as [Hq Hkq]. f_equal.
    eapply sorted_key_inj; [apply HInv|done|done|congruence].
  - exfalso. by eapply find_key_absent.
Qed.

End With_Inv.

End Search_lemmas.

(** ** The level oracle *)

Section RandLevel_lemmas.

Context {V : Type}.
Implicit Types (s : Memory V).

Lemma randLevel_loop_spec s r fuel :
  forall level,
  maxLevel s <= 64 ->
  length (probTable s) = Z.to_nat (maxLevel s) ->
  1 <= level ->
  (Z.to_nat (maxLevel s - level) < fuel)%nat ->
  exists h, randLevel_loop fuel s r level = Ok h /\
            level <= h /\ (h <= maxLevel s \/ h = level).
Proof.
  induction fuel as [|fuel IH]; intros level HM Htab Hl Hfuel; [lia|].
  simpl. case_decide as Hlt; [|exists level; split; [done|lia]].
  unfold indexZ. rewrite decide_True by lia.
  destruct (index_lt (probTable s) (Z.to_nat level)) as (t & -> & _); [lia|].
  simpl. destruct (PrimFloat.ltb r t); [|exists level; split; [done|lia]].
  rewrite int_wrap_small by lia.
  destruct (IH (level + 1)) as (h & Hh & Hb); [done|done|lia|lia|].
  exists h. split; [done|lia].
Qed.

(** [randLevel] returns a height in [1, maxLevel]. *)
Lemma randLevel_spec s rnd :
  1 <= maxLevel s <= 64 ->
  length (probTable s) = Z.to_nat (maxLevel s) ->
  exists h, randLevel s rnd = Ok h /\ 1 <= h <= maxLevel s.
Proof.
  intros HM Htab. unfold randLevel.
  destruct (randLevel_loop_spec s (rand_float rnd) (S (Z.to_nat (maxLevel s))) 1)
    as (h & Hh & Hb); [lia|done|lia|lia|].
  exists h. split; [done|lia].
Qed.

(** The loop reads [maxLevel] and [probTable] only. *)
Lemma randLevel_ext s s' rnd :
  maxLevel s' = maxLevel s -> probTable s' = probTable s ->
  randLevel s' rnd = randLevel s rnd.
Proof.
  intros HM HT. unfold randLevel. rewrite HM.
  generalize (S (Z.to_nat (maxLevel s))) 1. intros fuel.
  induction fuel as [|fuel IH]; intros level; [done|].
  simpl. rewrite HM, HT. case_decide; [|done].
  destruct (indexZ (probTable s) level) as [t| |]; simpl; [|done..].
  by rewrite IH.
Qed.

(** Where the loop stops: at the first level whose table entry the draw
    does not stay below, or at [maxLevel]. *)
Lemma randLevel_loop_least s r fuel :
  forall level,
  maxLevel s <= 64 ->
  length (probTable s) = Z.to_nat (maxLevel s) ->
  1 <= level ->
  (Z.to_nat (maxLevel s - level) < fuel)%nat ->
  exists h, randLevel_loop fuel s r level = Ok h /\
    level <= h /\ (h <= maxLevel s \/ h = level) /\
    (forall j, level <= j < h ->
       exists t, probTable s !! Z.to_nat j = Some t /\ PrimFloat.ltb r t = true) /\
    (h < maxLevel s ->
       exists t, probTable s !! Z.to_nat h = Some t /\ PrimFloat.ltb r t = false).
Proof.
  induction fuel as [|fuel IH]; intros level HM Htab Hl Hfuel; [lia|].
  simpl. case_decide as Hlt.
  2:{ exists level. split; [done|]. split; [lia|]. split; [lia|]. split; intros; lia. }
  unfold indexZ. rewrite decide_True by lia.
  destruct (index_lt (probTable s) (Z.to_nat level)) as (t & Hidx & Ht); [lia|].
  rewrite Hidx. simpl. destruct (PrimFloat.ltb r t) eqn:Hr.
  - rewrite int_wrap_small by lia.
    destruct (IH (level + 1)) as (h & Hh & Hle & Hb & Hbelow & Hstop); [done..|lia|lia|].
    exists h. split; [done|]. split; [lia|]. split; [lia|]. split; [|done].
    intros j Hj. destruct (decide (j = level)) as [->|Hne]; [by exists t|].
    apply Hbelow. lia.
  - exists level. split; [done|]. split; [lia|]. split; [lia|].
    split; [intros; lia|]. intros _. by exists t.
Qed.

End RandLevel_lemmas.

(** ** Transporting facts between memories *)

Section Transport_lemmas.

Context {V : Type}.
Implicit Types (s : Memory V) (r : nodeRef) (p q : ptr) (i j : nat).

Lemma filter_ext_in {A} (P Q : A -> Prop) `{!forall x, Decision (P x)}
    `{!forall x, Decision (Q x)} (l : list A) :
  (forall x, x ∈ l -> P x <-> Q x) -> filter P l = filter Q l.
Proof.
  induction l as [|x l IH]; intros Hext; [done|].
  rewrite !filter_cons. rewrite IH by (intros; apply Hext; set_solver).
  assert (P x <-> Q x) as Hx by (apply Hext; set_solver).
  destruct (decide (P x)) as [HP|HP], (decide (Q x)) as [HQ|HQ]; tauto.
Qed.

Lemma level_list_ext s s' i (xs : list ptr) :
  (forall p, p ∈ xs -> heightOf s' p = heightOf s p) ->
  level_list s' i xs = level_list s i xs.
Proof.
  intros Hext. unfold level_list. apply filter_ext_in.
  intros x Hx. by rewrite Hext.
Qed.

Lemma keys_ext s s' (xs : list ptr) :
  (forall p, p ∈ xs -> keyOf s' p = keyOf s p) ->
  keyOf s' <$> xs = keyOf s <$> xs.
Proof.
  intros Hext. apply list_fmap_ext. intros i x Hx. apply Hext.
  by eapply list_elem_of_lookup_2.
Qed.

Lemma below_ext s s' k (xs : list ptr) :
  (forall p, p ∈ xs -> keyOf s' p = keyOf s p) ->
  below s' k xs = below s k xs.
Proof.
  intros Hext. unfold below. apply filter_ext_in.
  intros x Hx. by rewrite Hext.
Qed.

Lemma above_ext s s' k (xs : list ptr) :
  (forall p, p ∈ xs -> keyOf s' p = keyOf s p) ->
  above s' k xs = above s k xs.
Proof.
  intros Hext. unfold above. apply filter_ext_in.
  intros x Hx. by rewrite Hext.
Qed.

(** An invariant survives any change that keeps keys, heights and slots. *)
Lemma Inv_transport s s' ps :
  Inv s ps ->
  maxLevel s' = maxLevel s ->
  length (prevNodesCache s') = Z.to_nat (maxLevel s) ->
  length (probTable s') = Z.to_nat (maxLevel s) ->
  Length s' = Length s ->
  stdout s' = stdout s ->
  length (heap s') = length (heap s) ->
  length (next s') = length (next s) ->
  (forall p, keyOf s' p = keyOf s p) ->
  (forall p, heightOf s' p = heightOf s p) ->
  (forall r i, slot s' r i = slot s r i) ->
  Inv s' ps.
Proof.
  intros HInv HM Hc Ht HL Ho Hh Hn Hk Hht Hs. constructor.
  - rewrite HM. apply HInv.
  - rewrite Hn, HM. apply HInv.
  - by rewrite HM.
  - by rewrite HM.
  - intros p. rewrite Hh, Hht, HM. apply HInv.
  - rewrite Hh. apply HInv.
  - rewrite (keys_ext s s') by auto. apply HInv.
  - intros i Hi. rewrite (level_list_ext s s') by auto.
    eapply chain_frame; [|apply (inv_chain _ _ HInv); by rewrite <- HM]. auto.
  - rewrite HL. apply HInv.
  - rewrite Ho. apply HInv.
Qed.

Lemma Inv_with_cache s ps c :
  Inv s ps -> length c = Z.to_nat (maxLevel s) -> Inv (set_list s (with_cache s c)) ps.
Proof.
  intros HInv Hc. eapply Inv_transport; [exact HInv|..]; try done. apply HInv.
Qed.

Lemma Inv_SetProbability Pow s ps (pr : float) :
  Inv s ps -> Inv (SetProbability Pow s pr) ps.
Proof.
  intros HInv. eapply Inv_transport; [exact HInv|..]; try done; [apply HInv|].
  simpl. unfold probabilityTable. rewrite length_fmap, length_seqZ. done.
Qed.

End Transport_lemmas.

(** ** Set *)

Arguments write_next : simpl never.
Arguments read_next : simpl never.
Arguments randLevel : simpl never.

Section Set_lemmas.

Context {V : Type}.
Implicit Types (r : nodeRef) (p q : ptr) (i j : nat).

Variables (s : Memory V) (ps : list ptr) (k : Z).
Hypothesis HInv : Inv s ps.

Lemma pred_at_valid i q : pred_at s k ps i = Node q -> (q < length (heap s))%nat.
Proof.
  intros E. destruct (pred_at_elem s ps k i) as [E'|(q' & E' & Hq & _)]; [congruence|].
  rewrite E in E'. injection E' as ->.
  pose proof (inv_valid _ _ HInv) as Hv. rewrite Forall_forall in Hv. auto.
Qed.

Lemma pred_at_fresh i : pred_at s k ps i <> Node (length (heap s)).
Proof. intros E%pred_at_valid. lia. Qed.

Lemma slot_fresh i : slot s (Node (length (heap s))) i = None.
Proof. unfold slot. by rewrite lookup_ge_None_2. Qed.

(** What [Set] and [Remove] read after the search: the first element that
    is not below [k]. *)
Lemma candidate_slot : slot s (pred_at s k ps 0) 0 = Some (head (above s k ps)).
Proof.
  pose proof (inv_maxLevel _ _ HInv).
  rewrite (pred_slot s ps k HInv) by lia.
  by rewrite (level_list_0 s ps HInv _ (above_sub s ps k)).
Qed.

Lemma find_key_head p :
  find_key s k ps = Some p -> head (above s k ps) = Some p.
Proof.
  unfold find_key. destruct (head (above s k ps)) as [q|]; [|done].
  case_decide; [|done]. by intros [= ->].
Qed.

Lemma find_key_None_head :
  find_key s k ps = None ->
  match head (above s k ps) with
  | Some q => exists e, heap s !! q = Some e /\ k < key e
  | None => True
  end.
Proof.
  intros Hf. pose proof (find_key_None s ps k HInv Hf) as Hall.
  destruct (above s k ps) as [|q B] eqn:EB; simpl; [done|].
  assert (q ∈ ps) as Hq by (apply (above_sub s ps k); rewrite EB; set_solver).
  destruct (Inv_lookup s ps HInv q Hq) as (e & He & Hk).
  exists e. split; [done|]. apply Forall_cons in Hall as [Hlt _]. lia.
Qed.

(** The update path: the key is present. *)
Lemma Set_update_spec v rnd p :
  find_key s k ps = Some p ->
  exists e prevs,
    heap s !! p = Some e /\ key e = k /\
    length prevs = Z.to_nat (maxLevel s) /\
    Set_ s k v rnd =
      Ok (p, set_heap (set_list s (with_cache s prevs))
               (<[p := elem_with_value e v]> (heap s))).
Proof.
  intros Hf. pose proof (inv_maxLevel _ _ HInv) as HM.
  destruct (getPrevElementNodes_spec s ps k HInv) as (prevs & Hget & Hlen & Hprevs).
  destruct (find_key_Some s ps k HInv p Hf) as [Hp Hk].
  destruct (Inv_lookup s ps HInv p Hp) as (e & He & Hke).
  exists e, prevs. split; [done|]. split; [congruence|]. split; [done|].
  unfold Set_. rewrite Hget. simpl.
  rewrite (proj2 (index_Ok _ _ _) (Hprevs 0%nat ltac:(lia))). simpl.
  rewrite read_next_slot.
  change (slot (set_list s (with_cache s prevs)) (pred_at s k ps 0) 0)
    with (slot s (pred_at s k ps 0) 0).
  rewrite candidate_slot, (find_key_head p Hf). simpl.
  unfold deref. simpl. rewrite He. simpl.
  rewrite decide_True by lia. rewrite decide_False by lia.
  unfold write_value, deref. simpl. rewrite He. done.
Qed.

(** The linking loop of [Set], from level [j] on. *)
Lemma Set_link_spec prevs (h : nat) :
  (h <= Z.to_nat (maxLevel s))%nat ->
  (forall j, (j < Z.to_nat (maxLevel s))%nat ->
     prevs !! j = Some (Some (pred_at s k ps j))) ->
  forall m j (s2 : Memory V),
  (j + m = h)%nat ->
  (forall r i, slot s2 r i = link_slot s k ps (length (heap s)) h j r i) ->
  exists s3,
    Set_link s2 prevs (length (heap s)) (seq j m) = Ok s3 /\
    same_shape s2 s3 /\
    forall r i, slot s3 r i = link_slot s k ps (length (heap s)) h h r i.
Proof.
  intros Hh Hprevs. induction m as [|m IH]; intros j s2 Hj Hs2.
  - simpl. exists s2. split; [done|]. split; [apply same_shape_refl|].
    assert (j = h) as -> by lia. done.
  - simpl.
    rewrite (proj2 (index_Ok _ _ _) (Hprevs j ltac:(lia))). simpl.
    pose proof (pred_at_fresh j) as Hfresh.
    assert (Hread : slot s2 (pred_at s k ps j) j =
                    Some (head (level_list s j (above s k ps)))).
    { rewrite Hs2. unfold link_slot. rewrite decide_False by lia.
      rewrite decide_False by done. apply (pred_slot s ps k HInv). lia. }
    rewrite read_next_slot, Hread. simpl.
    destruct (write_next_spec s2 (Node (length (heap s))) j
                (head (level_list s j (above s k ps)))) as (s2' & Hw1 & Hsh1 & Hsl1).
    { rewrite Hs2. unfold link_slot. rewrite decide_False by lia.
      rewrite decide_True by done. rewrite decide_True by lia. done. }
    rewrite Hw1. simpl.
    destruct (write_next_spec s2' (pred_at s k ps j) j (Some (length (heap s))))
      as (s2'' & Hw2 & Hsh2 & Hsl2).
    { rewrite Hsl1. rewrite decide_False by naive_solver. by rewrite Hread. }
    rewrite Hw2. simpl.
    destruct (IH (S j) s2'') as (s3 & Hrun & Hsh3 & Hsl3); [lia| |].
    { intros r i. rewrite Hsl2, Hsl1, Hs2. unfold link_slot.
      destruct (decide (i = j)) as [->|Hij].
      - rewrite (decide_True (P := (j < S j)%nat)) by lia.
        rewrite (decide_False (P := (j < j)%nat)) by lia.
        destruct (decide (r = pred_at s k ps j)) as [->|Hr].
        + by rewrite decide_True.
        + rewrite decide_False by naive_solver.
          destruct (decide (r = Node (length (heap s)))) as [->|Hr'].
          * by rewrite decide_True.
          * by rewrite decide_False by naive_solver.
      - rewrite decide_False by naive_solver.
        rewrite decide_False by naive_solver.
        destruct (decide (i < j)%nat).
        + by rewrite (decide_True (P := (i < S j)%nat)) by lia.
        + by rewrite (decide_False (P := (i < S j)%nat)) by lia. }
    exists s3. split; [done|]. split; [|done].
    eapply same_shape_trans; [exact Hsh1|]. eapply same_shape_trans; [exact Hsh2|done].
Qed.

(** The insertion path: the key is absent. *)
Lemma Set_insert_level_spec v rnd :
  find_key s k ps = None ->
  exists (h : nat) s',
    (1 <= h <= Z.to_nat (maxLevel s))%nat /\
    randLevel s rnd = Ok (Z.of_nat h) /\
    Set_ s k v rnd = Ok (length (heap s), s') /\
    inserted s s' ps k v h.
Proof.
  intros Hf. pose proof (inv_maxLevel _ _ HInv) as HM.
  destruct (getPrevElementNodes_spec s ps k HInv) as (prevs & Hget & Hlen & Hprevs).
  set (s1 := set_list s (with_cache s prevs)) in *.
  destruct (randLevel_spec s1 rnd) as (level & Hrand & Hlevel).
  { done. } { apply HInv. }
  simpl in Hlevel.
  assert (Hins : Set_insert s1 prevs k v rnd = Set_ s k v rnd).
  { unfold Set_. rewrite Hget. simpl.
    rewrite (proj2 (index_Ok _ _ _) (Hprevs 0%nat ltac:(lia))). simpl.
    rewrite read_next_slot.
    change (slot s1 (pred_at s k ps 0) 0) with (slot s (pred_at s k ps 0) 0).
    rewrite candidate_slot. simpl.
    pose proof (find_key_None_head Hf) as Hhead.
    destruct (head (above s k ps)) as [q|]; [|done].
    destruct Hhead as (e & He & Hlt). unfold deref. simpl. rewrite He. simpl.
    by rewrite decide_False by lia. }
  rewrite <- Hins. unfold Set_insert. rewrite Hrand. simpl.
  unfold make. rewrite decide_True by lia. simpl.
  rewrite length_replicate.
  set (h := Z.to_nat level).
  set (e := {| e_node := mkNode (replicate h None); key := k; value := v |}).
  set (s2 := set_heap s1 (heap s ++ [e])).
  destruct (Set_link_spec prevs h ltac:(lia) Hprevs h 0%nat s2) as (s3 & Hrun & Hsh & Hsl).
  { done. }
  { intros r i. unfold link_slot. rewrite decide_False by lia.
    destruct r as [|q]; simpl; [done|].
    destruct (decide (q = length (heap s))) as [->|Hq].
    - rewrite decide_True by done.
      rewrite lookup_app_r, Nat.sub_diag by lia. simpl.
      case_decide.
      + by apply lookup_replicate_2.
      + apply lookup_replicate_None. lia.
    - rewrite decide_False by naive_solver.
      destruct (decide (q < length (heap s))%nat).
      + by rewrite lookup_app_l.
      + rewrite !lookup_ge_None_2; [done|lia|].
        rewrite length_app. simpl. lia. }
  rewrite Hrun. simpl. exists h, (set_list s3 (with_Length s3 (int_wrap (Length s3 + 1)))).
  split; [lia|]. split.
  { rewrite <- (randLevel_ext s s1 rnd) by done. rewrite Hrand. f_equal. lia. }
  split; [done|].
  destruct Hsh as [ss_len0 ss_key0 ss_value0 ss_height0 ss_hlen0 ss_maxLevel0
    ss_Length0 ss_probability0 ss_probTable0 ss_cache0 ss_stdout0].
  constructor; simpl.
  - rewrite ss_len0. subst s2. simpl. rewrite length_app. simpl. lia.
  - intros q. change (keyOf (set_list s3 _) q) with (keyOf s3 q).
    rewrite ss_key0. unfold keyOf. subst s2. simpl.
    case_decide as Hq.
    + subst q. by rewrite lookup_app_r, Nat.sub_diag by lia.
    + destruct (decide (q < length (heap s))%nat).
      * by rewrite lookup_app_l.
      * rewrite !lookup_ge_None_2; [done|lia|]. rewrite length_app. simpl. lia.
  - intros q. change (valueOf (set_list s3 _) q) with (valueOf s3 q).
    rewrite ss_value0. unfold valueOf. subst s2. simpl.
    case_decide as Hq.
    + subst q. by rewrite lookup_app_r, Nat.sub_diag by lia.
    + destruct (decide (q < length (heap s))%nat).
      * by rewrite lookup_app_l.
      * rewrite !lookup_ge_None_2; [done|lia|]. rewrite length_app. simpl. lia.
  - intros q. change (heightOf (set_list s3 _) q) with (heightOf s3 q).
    rewrite ss_height0. unfold heightOf. subst s2. simpl.
    case_decide as Hq.
    + subst q. rewrite lookup_app_r, Nat.sub_diag by lia. simpl.
      by rewrite length_replicate.
    + destruct (decide (q < length (heap s))%nat).
      * by rewrite lookup_app_l.
      * rewrite !lookup_ge_None_2; [done|lia|]. rewrite length_app. simpl. lia.
  - intros r i. rewrite <- Hsl. done.
  - by rewrite ss_hlen0.
  - by rewrite ss_maxLevel0.
  - by rewrite ss_Length0.
  - by rewrite ss_probability0.
  - by rewrite ss_probTable0.
  - rewrite ss_cache0. simpl. rewrite Hlen. symmetry. apply HInv.
  - by rewrite ss_stdout0.
Qed.

Lemma Set_insert_spec v rnd :
  find_key s k ps = None ->
  exists (h : nat) s',
    (1 <= h <= Z.to_nat (maxLevel s))%nat /\
    Set_ s k v rnd = Ok (length (heap s), s') /\
    inserted s s' ps k v h.
Proof.
  intros Hf. destruct (Set_insert_level_spec v rnd Hf) as (h & s' & Hh & _ & Hset & Hins).
  by exists h, s'.
Qed.

Lemma NoDup_refs (qs : list ptr) : NoDup qs -> NoDup (Header :: (Node <$> qs)).
Proof.
  intros Hnd. constructor.
  - intros (y & Hy & _)%list_elem_of_fmap. done.
  - apply NoDup_fmap_2; [|done]. by intros x y [=].
Qed.

Lemma Inv_fresh : length (heap s) ∉ ps.
Proof.
  intros Hin. pose proof (inv_valid _ _ HInv) as Hv. rewrite Forall_forall in Hv.
  apply Hv in Hin. lia.
Qed.

Lemma sorted_insert (xs ys : list Z) :
  StronglySorted Z.lt (xs ++ ys) ->
  Forall (fun x => x < k) xs -> Forall (fun y => k < y) ys ->
  StronglySorted Z.lt (xs ++ k :: ys).
Proof.
  intros Hs Hxs Hys. apply StronglySorted_app in Hs as (Hxy & Hsx & Hsy).
  apply StronglySorted_app_2; [|done|by apply SSorted_cons].
  rewrite Forall_forall in Hxs. rewrite Forall_forall in Hys.
  intros x1 x2 Hx1 [->|Hx2]%elem_of_cons; [by apply Hxs|].
  apply Hxs in Hx1. apply Hys in Hx2. lia.
Qed.

(** Insertion preserves the invariant: the new element stands between the
    elements below [k] and the others. *)
Lemma inserted_Inv s' v (h : nat) :
  find_key s k ps = None ->
  (1 <= h <= Z.to_nat (maxLevel s))%nat ->
  inserted s s' ps k v h ->
  Inv s' (below s k ps ++ length (heap s) :: above s k ps).
Proof.
  intros Hf Hh Hins. pose proof Inv_fresh as Hfresh.
  pose proof (Inv_split s ps k HInv) as Hps.
  pose proof (below_sub s ps k) as HsubA. pose proof (above_sub s ps k) as HsubB.
  set (p := length (heap s)) in *. set (A := below s k ps) in *.
  set (B := above s k ps) in *.
  assert (Hkey : forall q, q ∈ ps -> keyOf s' q = keyOf s q).
  { intros q Hq. rewrite (ins_key _ _ _ _ _ _ Hins). fold p.
    rewrite decide_False; [done|]. intros ->. done. }
  assert (Hheight : forall q, q ∈ ps -> heightOf s' q = heightOf s q).
  { intros q Hq. rewrite (ins_height _ _ _ _ _ _ Hins). fold p.
    rewrite decide_False; [done|]. intros ->. done. }
  assert (Hhp : heightOf s' p = h).
  { rewrite (ins_height _ _ _ _ _ _ Hins). fold p. by rewrite decide_True. }
  pose proof (inv_valid _ _ HInv) as Hv.
  constructor.
  - rewrite (ins_maxLevel _ _ _ _ _ _ Hins). apply HInv.
  - rewrite (ins_hlen _ _ _ _ _ _ Hins), (ins_maxLevel _ _ _ _ _ _ Hins). apply HInv.
  - rewrite (ins_cache _ _ _ _ _ _ Hins), (ins_maxLevel _ _ _ _ _ _ Hins). apply HInv.
  - rewrite (ins_probTable _ _ _ _ _ _ Hins), (ins_maxLevel _ _ _ _ _ _ Hins). apply HInv.
  - intros q Hq. rewrite (ins_len _ _ _ _ _ _ Hins) in Hq.
    rewrite (ins_height _ _ _ _ _ _ Hins), (ins_maxLevel _ _ _ _ _ _ Hins). fold p.
    case_decide; [lia|]. apply HInv. fold p. lia.
  - rewrite (ins_len _ _ _ _ _ _ Hins). fold p.
    rewrite Hps in Hv. apply Forall_app in Hv as [HvA HvB].
    apply Forall_app. split; [|constructor; [lia|]];
      (eapply Forall_impl; [done|]); simpl; intros; lia.
  - rewrite fmap_app, fmap_cons.
    rewrite (keys_ext s s' A) by auto. rewrite (keys_ext s s' B) by auto.
    rewrite (ins_key _ _ _ _ _ _ Hins). fold p. rewrite decide_True by done.
    apply sorted_insert.
    + rewrite <- fmap_app. fold A B in Hps. rewrite <- Hps. apply HInv.
    + rewrite Forall_fmap. apply (below_lt s ps k).
    + rewrite Forall_fmap. by apply (find_key_None s ps k HInv).
  - rewrite (ins_maxLevel _ _ _ _ _ _ Hins). intros i Hi.
    pose proof (inv_chain _ _ HInv i Hi) as Hc.
    rewrite Hps, level_list_app in Hc.
    assert (Hnd : NoDup (level_list s i A ++ level_list s i B)).
    { rewrite <- level_list_app. fold A B in Hps. rewrite <- Hps.
      apply NoDup_filter, (Inv_NoDup s ps HInv). }
    assert (Hnotin : p ∉ level_list s i A ++ level_list s i B).
    { rewrite <- level_list_app. fold A B in Hps. rewrite <- Hps.
      intros [_ Hin]%list_elem_of_filter. done. }
    rewrite level_list_app. rewrite (level_list_ext s s' i A) by auto.
    unfold level_list at 2. rewrite filter_cons.
    fold (level_list s' i B). rewrite (level_list_ext s s' i B) by auto.
    rewrite Hhp. destruct (decide (i < h)%nat) as [Hih|Hih].
    + eapply chain_insert; [exact Hc|by apply NoDup_refs| |].
      * intros [?|(y & [= <-] & Hy)%list_elem_of_fmap]%elem_of_cons; done.
      * intros r'. rewrite (ins_slot _ _ _ _ _ _ Hins). unfold link_slot. fold p.
        rewrite decide_True by done. done.
    + eapply chain_frame; [|exact Hc].
      intros r' Hr'. rewrite (ins_slot _ _ _ _ _ _ Hins). unfold link_slot. fold p.
      rewrite decide_False by done. rewrite decide_False; [done|].
      intros ->. destruct Hr' as [?|(y & [= <-] & Hy)%list_elem_of_fmap]; done.
  - rewrite (ins_Length _ _ _ _ _ _ Hins), (inv_Length _ _ HInv), int_wrap_add.
    f_equal. rewrite Hps at 1. rewrite !length_app. simpl. lia.
  - rewrite (ins_stdout _ _ _ _ _ _ Hins). apply HInv.
Qed.

(** The memory after the update path. *)
Lemma updated_observers e p v c :
  heap s !! p = Some e ->
  let s' := set_heap (set_list s (with_cache s c)) (<[p := elem_with_value e v]> (heap s)) in
  (forall q, keyOf s' q = keyOf s q) /\
  (forall q, heightOf s' q = heightOf s q) /\
  (forall r i, slot s' r i = slot s r i) /\
  (forall q, valueOf s' q = if decide (q = p) then Some v else valueOf s q).
Proof.
  intros He s'. apply lookup_lt_Some in He as Hp.
  repeat split.
  - intros q. unfold keyOf. simpl. destruct (decide (q = p)) as [->|Hq].
    + by rewrite list_lookup_insert_eq, He.
    + by rewrite list_lookup_insert_ne.
  - intros q. unfold heightOf. simpl. destruct (decide (q = p)) as [->|Hq].
    + by rewrite list_lookup_insert_eq, He.
    + by rewrite list_lookup_insert_ne.
  - intros [|q] i; simpl; [done|]. destruct (decide (q = p)) as [->|Hq].
    + by rewrite list_lookup_insert_eq, He.
    + by rewrite list_lookup_insert_ne.
  - intros q. unfold valueOf. simpl. destruct (decide (q = p)) as [->|Hq].
    + by rewrite list_lookup_insert_eq.
    + by rewrite list_lookup_insert_ne.
Qed.

Lemma updated_Inv e p v c :
  heap s !! p = Some e ->
  length c = Z.to_nat (maxLevel s) ->
  Inv (set_heap (set_list s (with_cache s c)) (<[p := elem_with_value e v]> (heap s))) ps.
Proof.
  intros He Hc. destruct (updated_observers e p v c He) as (Hk & Hh & Hs & _).
  eapply Inv_transport; [exact HInv|..]; try done.
  - apply HInv.
  - simpl. by rewrite length_insert.
Qed.

End Set_lemmas.

(** ** Remove *)

Arguments Remove_unlink : simpl never.

Section Remove_lemmas.

Context {V : Type}.
Implicit Types (r : nodeRef) (p q : ptr) (i j : nat).

Variables (s : Memory V) (ps : list ptr) (k : Z).
Hypothesis HInv : Inv s ps.

(** The removed element is the head of [above]: the list splits around it. *)
Lemma found_split p :
  find_key s k ps = Some p ->
  exists B, above s k ps = p :: B /\ ps = below s k ps ++ p :: B /\ p ∉ below s k ps ++ B.
Proof.
  intros Hf. pose proof (find_key_head s ps k p Hf) as Hhead.
  destruct (above s k ps) as [|q B] eqn:EB; [done|]. injection Hhead as ->.
  exists B. split; [done|].
  pose proof (Inv_split s ps k HInv) as Hps. rewrite EB in Hps. split; [done|].
  pose proof (Inv_NoDup s ps HInv) as Hnd. rewrite Hps in Hnd.
  apply NoDup_app in Hnd as (_ & Hdisj & [Hp _]%NoDup_cons).
  intros [Hin|Hin]%elem_of_app; [|done]. apply (Hdisj p Hin). set_solver.
Qed.

(** The unlinking loop of [Remove], from level [j] on. *)
Lemma Remove_unlink_spec prevs p :
  find_key s k ps = Some p ->
  (forall j, (j < Z.to_nat (maxLevel s))%nat ->
     prevs !! j = Some (Some (pred_at s k ps j))) ->
  forall m j (s2 : Memory V),
  (j + m = heightOf s p)%nat ->
  (forall r i, slot s2 r i = unlink_slot s k ps p j r i) ->
  exists s3,
    Remove_unlink s2 prevs p (seq j m) = Ok s3 /\
    same_shape s2 s3 /\
    forall r i, slot s3 r i = unlink_slot s k ps p (heightOf s p) r i.
Proof.
  intros Hf Hprevs.
  destruct (find_key_Some s ps k HInv p Hf) as [Hp Hk].
  pose proof (inv_valid _ _ HInv) as Hv. rewrite Forall_forall in Hv.
  pose proof (inv_heights _ _ HInv p (Hv p Hp)) as Hhp.
  assert (Hne : forall i, pred_at s k ps i <> Node p).
  { intros i E. destruct (pred_at_elem s ps k i) as [E'|(q & E' & _ & Hlt & _)];
      [congruence|]. rewrite E in E'. injection E' as <-. lia. }
  induction m as [|m IH]; intros j s2 Hj Hs2.
  - exists s2. split; [done|]. split; [apply same_shape_refl|].
    assert (j = heightOf s p) as <- by lia. done.
  - cbn [seq]. unfold Remove_unlink. fold (@Remove_unlink V).
    destruct (height_slot s p j ltac:(lia)) as [w Hw].
    assert (Hread : slot s2 (Node p) j = Some w).
    { rewrite Hs2. unfold unlink_slot. rewrite decide_False; [done|].
      intros [_ E]. by apply (Hne j). }
    rewrite read_next_slot, Hread. simpl.
    rewrite (proj2 (index_Ok _ _ _) (Hprevs j ltac:(lia))). simpl.
    destruct (write_next_spec s2 (pred_at s k ps j) j w) as (s2' & Hw1 & Hsh1 & Hsl1).
    { rewrite Hs2. unfold unlink_slot. rewrite decide_False by lia.
      rewrite (pred_slot s ps k HInv) by lia. done. }
    rewrite Hw1. simpl.
    destruct (IH (S j) s2') as (s3 & Hrun & Hsh3 & Hsl3); [lia| |].
    { intros r i. rewrite Hsl1, Hs2. unfold unlink_slot.
      destruct (decide (r = pred_at s k ps j /\ i = j)) as [[-> ->]|Hn].
      - rewrite decide_True by (split; [lia|done]). done.
      - destruct (decide ((i < j)%nat /\ r = pred_at s k ps i)) as [[Hij ->]|Hn'].
        + rewrite decide_True by (split; [lia|done]). done.
        + rewrite decide_False; [done|]. intros [Hij ->].
          destruct (decide (i = j)) as [->|]; [by apply Hn|]. apply Hn'. split; [lia|done]. }
    exists s3. split; [done|]. split; [|done].
    eapply same_shape_trans; [exact Hsh1|done].
Qed.

(** The key is present: [Remove] unlinks its element. *)
Lemma Remove_found_spec p :
  find_key s k ps = Some p ->
  exists s' prevs,
    Remove s k = Ok (Some p, s') /\ removed s s' ps k p /\
    getPrevElementNodes s k = Ok (prevs, set_list s (with_cache s prevs)) /\
    prevNodesCache s' = prevs /\
    forall j, (j < Z.to_nat (maxLevel s))%nat ->
      prevs !! j = Some (Some (pred_at s k ps j)).
Proof.
  intros Hf. pose proof (inv_maxLevel _ _ HInv) as HM.
  destruct (getPrevElementNodes_spec s ps k HInv) as (prevs & Hget & Hlen & Hprevs).
  destruct (find_key_Some s ps k HInv p Hf) as [Hp Hk].
  destruct (Inv_lookup s ps HInv p Hp) as (e & He & Hke).
  set (s1 := set_list s (with_cache s prevs)) in *.
  assert (Hhe : length (next e) = heightOf s p).
  { unfold heightOf. by rewrite He. }
  destruct (Remove_unlink_spec prevs p Hf Hprevs (heightOf s p) 0%nat s1)
    as (s3 & Hrun & Hsh & Hsl); [done| |].
  { intros r i. unfold unlink_slot. by rewrite decide_False by lia. }
  exists (set_list s3 (with_Length s3 (int_wrap (Length s3 - 1)))), prevs.
  split; [|split; [|split; [done|split; [by destruct Hsh|done]]]].
  - unfold Remove. rewrite Hget. simpl.
    rewrite (proj2 (index_Ok _ _ _) (Hprevs 0%nat ltac:(lia))). simpl.
    rewrite read_next_slot.
    change (slot s1 (pred_at s k ps 0) 0) with (slot s (pred_at s k ps 0) 0).
    rewrite (candidate_slot s ps k HInv), (find_key_head s ps k p Hf). simpl.
    unfold deref. simpl. rewrite He. simpl.
    rewrite decide_True by lia. rewrite Hhe, Hrun. done.
  - destruct Hsh as [ss_len0 ss_key0 ss_value0 ss_height0 ss_hlen0 ss_maxLevel0
      ss_Length0 ss_probability0 ss_probTable0 ss_cache0 ss_stdout0].
    constructor; simpl; try done.
    + by rewrite ss_Length0.
    + rewrite ss_cache0. simpl. rewrite Hlen. symmetry. apply HInv.
Qed.

(** The key is absent: [Remove] only rewrites the cache. *)
Lemma Remove_absent_spec :
  find_key s k ps = None ->
  exists prevs,
    length prevs = Z.to_nat (maxLevel s) /\
    Remove s k = Ok (None, set_list s (with_cache s prevs)).
Proof.
  intros Hf. pose proof (inv_maxLevel _ _ HInv) as HM.
  destruct (getPrevElementNodes_spec s ps k HInv) as (prevs & Hget & Hlen & Hprevs).
  exists prevs. split; [done|].
  unfold Remove. rewrite Hget. simpl.
  rewrite (proj2 (index_Ok _ _ _) (Hprevs 0%nat ltac:(lia))). simpl.
  rewrite read_next_slot.
  change (slot (set_list s (with_cache s prevs)) (pred_at s k ps 0) 0)
    with (slot s (pred_at s k ps 0) 0).
  rewrite (candidate_slot s ps k HInv). simpl.
  pose proof (find_key_None_head s ps k HInv Hf) as Hhead.
  destruct (head (above s k ps)) as [q|]; [|done].
  destruct Hhead as (e & He & Hlt). unfold deref. simpl. rewrite He. simpl.
  by rewrite decide_False by lia.
Qed.

(** Removal preserves the invariant. *)
Lemma removed_Inv s' p :
  find_key s k ps = Some p ->
  removed s s' ps k p ->
  Inv s' (below s k ps ++ tail (above s k ps)).
Proof.
  intros Hf Hrem. destruct (found_split p Hf) as (B & HB & Hps & Hnotin).
  rewrite HB. simpl.
  pose proof (below_sub s ps k) as HsubA.
  set (A := below s k ps) in *.
  pose proof (inv_valid _ _ HInv) as Hv.
  pose proof (inv_sorted _ _ HInv) as Hs.
  constructor.
  - rewrite (rem_maxLevel _ _ _ _ _ Hrem). apply HInv.
  - rewrite (rem_hlen _ _ _ _ _ Hrem), (rem_maxLevel _ _ _ _ _ Hrem). apply HInv.
  - rewrite (rem_cache _ _ _ _ _ Hrem), (rem_maxLevel _ _ _ _ _ Hrem). apply HInv.
  - rewrite (rem_probTable _ _ _ _ _ Hrem), (rem_maxLevel _ _ _ _ _ Hrem). apply HInv.
  - intros q. rewrite (rem_heap_len _ _ _ _ _ Hrem), (rem_height _ _ _ _ _ Hrem),
      (rem_maxLevel _ _ _ _ _ Hrem). apply HInv.
  - rewrite (rem_heap_len _ _ _ _ _ Hrem). rewrite Hps in Hv.
    apply Forall_app in Hv as [HvA [_ HvB]%Forall_cons]. by apply Forall_app.
  - rewrite (keys_ext s s') by (intros; apply (rem_key _ _ _ _ _ Hrem)).
    rewrite Hps, fmap_app, fmap_cons in Hs. rewrite fmap_app.
    apply StronglySorted_app in Hs as (Hxy & HsA & [HsB _]%StronglySorted_inv).
    apply StronglySorted_app_2; [|done|done].
    intros x1 x2 Hx1 Hx2. apply Hxy; [done|]. set_solver.
  - rewrite (rem_maxLevel _ _ _ _ _ Hrem). intros i Hi.
    pose proof (inv_chain _ _ HInv i Hi) as Hc.
    rewrite (level_list_ext s s') by (intros; apply (rem_height _ _ _ _ _ Hrem)).
    assert (Hnd : NoDup (level_list s i ps)) by apply NoDup_filter, (Inv_NoDup s ps HInv).
    rewrite Hps, level_list_app in Hc, Hnd. rewrite level_list_app.
    unfold level_list at 2 in Hc. unfold level_list at 2 in Hnd.
    rewrite filter_cons in Hc, Hnd.
    fold (level_list s i B) in Hc, Hnd.
    destruct (decide (i < heightOf s p)%nat) as [Hih|Hih].
    + eapply chain_remove; [exact Hc|by apply NoDup_refs|].
      intros r'. rewrite (rem_slot _ _ _ _ _ Hrem). unfold unlink_slot.
      change (last_ref Header (level_list s i A)) with (pred_at s k ps i).
      destruct (decide (r' = pred_at s k ps i)) as [->|Hr'].
      * rewrite decide_True by done.
        apply chain_app in Hc. destruct Hc as [_ Hc]. by apply chain_slot in Hc.
      * rewrite decide_False; [done|]. by intros [_ ?].
    + eapply chain_frame; [|exact Hc].
      intros r' _. rewrite (rem_slot _ _ _ _ _ Hrem). unfold unlink_slot.
      rewrite decide_False; [done|]. by intros [? _].
  - rewrite (rem_Length _ _ _ _ _ Hrem), (inv_Length _ _ HInv).
    replace (int_wrap (Z.of_nat (length ps)) - 1)
      with (int_wrap (Z.of_nat (length ps)) + (-1)) by lia.
    rewrite int_wrap_add.
    f_equal. rewrite Hps at 1. rewrite !length_app. simpl. lia.
  - rewrite (rem_stdout _ _ _ _ _ Hrem). apply HInv.
Qed.

End Remove_lemmas.

(** ** The list against the reference model *)

Section Model_lemmas.

Context {V : Type}.
Implicit Types (s : Memory V) (r : nodeRef) (p q : ptr) (i j : nat) (m : gmap Z V).

Lemma models_transport s s' ps m :
  models s ps m ->
  (forall q, q ∈ ps -> keyOf s' q = keyOf s q) ->
  (forall q, q ∈ ps -> valueOf s' q = valueOf s q) ->
  models s' ps m.
Proof.
  intros Hm Hk Hv k v. rewrite (Hm k v). split.
  - intros (p & Hp & Hkp & Hvp). exists p. by rewrite Hk, Hv.
  - intros (p & Hp & Hkp & Hvp). exists p. by rewrite <- Hk, <- Hv.
Qed.

Lemma models_update s s' ps m p k v :
  Inv s ps ->
  models s ps m ->
  p ∈ ps -> keyOf s p = k ->
  (forall q, keyOf s' q = keyOf s q) ->
  (forall q, valueOf s' q = if decide (q = p) then Some v else valueOf s q) ->
  models s' ps (<[k := v]> m).
Proof.
  intros HInv Hm Hp Hkp Hk Hv k' v'. rewrite lookup_insert_Some, (Hm k' v'). split.
  - intros [[<- <-]|[Hne (q & Hq & Hkq & Hvq)]].
    + exists p. rewrite Hk, Hv, decide_True by done. done.
    + exists q. rewrite Hk, Hv. rewrite decide_False; [done|]. congruence.
  - intros (q & Hq & Hkq & Hvq). rewrite Hk in Hkq. rewrite Hv in Hvq.
    destruct (decide (q = p)) as [->|Hne].
    + left. split; congruence.
    + right. split.
      * intros <-. apply Hne. eapply sorted_key_inj; [apply HInv|done|done|congruence].
      * by exists q.
Qed.

Lemma models_insert s s' ps m k v (h : nat) :
  Inv s ps ->
  models s ps m ->
  find_key s k ps = None ->
  inserted s s' ps k v h ->
  models s' (below s k ps ++ length (heap s) :: above s k ps) (<[k := v]> m).
Proof.
  intros HInv Hm Hf Hins k' v'. rewrite lookup_insert_Some, (Hm k' v').
  pose proof (Inv_fresh s ps HInv) as Hfresh.
  pose proof (Inv_split s ps k HInv) as Hps.
  assert (Hmem : forall q, q ∈ below s k ps ++ length (heap s) :: above s k ps <->
                           q = length (heap s) \/ q ∈ ps).
  { intros q. rewrite Hps at 3. rewrite !elem_of_app, elem_of_cons. tauto. }
  split.
  - intros [[<- <-]|[Hne (q & Hq & Hkq & Hvq)]].
    + exists (length (heap s)). rewrite Hmem.
      rewrite (ins_key _ _ _ _ _ _ Hins), (ins_value _ _ _ _ _ _ Hins).
      rewrite !decide_True by done. auto.
    + exists q. rewrite Hmem.
      rewrite (ins_key _ _ _ _ _ _ Hins), (ins_value _ _ _ _ _ _ Hins).
      rewrite !decide_False by congruence. auto.
  - intros (q & Hq & Hkq & Hvq). apply Hmem in Hq.
    rewrite (ins_key _ _ _ _ _ _ Hins) in Hkq.
    rewrite (ins_value _ _ _ _ _ _ Hins) in Hvq.
    destruct (decide (q = length (heap s))) as [->|Hne].
    + left. split; congruence.
    + destruct Hq as [?|Hq]; [done|]. right. split.
      * intros <-. by eapply (find_key_absent s ps k HInv Hf q).
      * by exists q.
Qed.

Lemma models_remove s s' ps m k p :
  Inv s ps ->
  models s ps m ->
  find_key s k ps = Some p ->
  removed s s' ps k p ->
  models s' (below s k ps ++ tail (above s k ps)) (delete k m).
Proof.
  intros HInv Hm Hf Hrem k' v'. rewrite lookup_delete_Some, (Hm k' v').
  destruct (found_split s ps k HInv p Hf) as (B & HB & Hps & Hnotin).
  destruct (find_key_Some s ps k HInv p Hf) as [Hp Hkp].
  rewrite HB. simpl.
  assert (Hmem : forall q, q ∈ ps <-> q = p \/ q ∈ below s k ps ++ B).
  { intros q. rewrite Hps at 1. rewrite !elem_of_app, elem_of_cons. tauto. }
  split.
  - intros [Hne (q & Hq & Hkq & Hvq)]. exists q.
    rewrite (rem_key _ _ _ _ _ Hrem), (rem_value _ _ _ _ _ Hrem).
    split; [|done]. apply Hmem in Hq as [->|Hq]; [congruence|done].
  - intros (q & Hq & Hkq & Hvq).
    rewrite (rem_key _ _ _ _ _ Hrem) in Hkq. rewrite (rem_value _ _ _ _ _ Hrem) in Hvq.
    assert (q ∈ ps) as Hqps by (apply Hmem; by right).
    split.
    + intros <-. apply Hnotin.
      replace p with q; [done|].
      eapply sorted_key_inj; [apply HInv|done|done|congruence].
    + by exists q.
Qed.

End Model_lemmas.

(** ** Every operation preserves the invariant *)

Section Run_lemmas.

Context {V : Type}.
Variable Pow : float -> Z -> float.
Implicit Types (s : Memory V) (r : nodeRef) (p q : ptr) (i j : nat) (m : gmap Z V).

Lemma NewWithMaxLevel_Ok (n : Z) :
  1 <= n <= 64 ->
  NewWithMaxLevel (V:=V) Pow n =
    Ok {| sl := {| sl_node := mkNode (replicate (Z.to_nat n) None);
                   maxLevel := n;
                   Length := 0;
                   probability := DefaultProbability;
                   probTable := probabilityTable Pow DefaultProbability n;
                   prevNodesCache := replicate (Z.to_nat n) None |};
          heap := [];
          stdout := [] |}.
Proof.
  intros Hn. unfold NewWithMaxLevel. rewrite decide_False by lia.
  unfold make. rewrite !decide_True by lia. done.
Qed.

Lemma NewWithMaxLevel_Inv (n : Z) :
  1 <= n <= 64 ->
  exists s, NewWithMaxLevel (V:=V) Pow n = Ok s /\ Inv s [] /\ models s [] ∅ /\
            heap s = [] /\ maxLevel s = n.
Proof.
  intros Hn. rewrite (NewWithMaxLevel_Ok n Hn). eexists. split; [done|].
  split; [|split; [|done]].
  - constructor; simpl; try done.
    + by rewrite length_replicate.
    + by rewrite length_replicate.
    + unfold probabilityTable. rewrite length_fmap, length_seqZ. done.
    + intros p Hp. lia.
    + constructor.
    + intros i Hi. by apply lookup_replicate_2.
  - intros k v. rewrite lookup_empty. split; [done|].
    intros (p & Hp & _). by apply elem_of_nil in Hp.
Qed.

Lemma models_absent s ps m k :
  Inv s ps -> models s ps m -> find_key s k ps = None -> m !! k = None.
Proof.
  intros HInv Hm Hf. destruct (m !! k) as [v|] eqn:E; [|done].
  apply Hm in E as (p & Hp & Hk & _).
  by destruct (find_key_absent s ps k HInv Hf p Hp).
Qed.

(** One operation: it does not panic, it keeps the invariant, and it does
    to the list what it does to the reference model. *)
Lemma step_spec s ps m (o : op V) :
  Inv s ps -> models s ps m ->
  exists s' ps' x,
    step Pow s o = Ok s' /\ outcome_of s o = Ok x /\
    Inv s' ps' /\ models s' ps' (model_step m o) /\
    Z.of_nat (length ps') = Z.of_nat (length ps) + delta x /\
    (length (heap s') <= S (length (heap s)))%nat /\
    maxLevel s' = maxLevel s.
Proof.
  intros HInv Hm. destruct o as [k v rnd|k|k|pr]; simpl.
  - rewrite (Get_spec s ps k HInv). simpl.
    destruct (find_key s k ps) as [p|] eqn:Hf.
    + destruct (Set_update_spec s ps k HInv v rnd p Hf) as (e & c & He & Hk & Hc & ->).
      destruct (updated_observers s e p v c He) as (Hok & Hoh & Hos & Hov).
      destruct (find_key_Some s ps k HInv p Hf) as [Hp Hkp].
      simpl. eexists _, ps, Updated. split; [done|]. split; [done|].
      split; [by apply updated_Inv|]. split; [by eapply models_update|].
      split; [simpl; lia|]. split; [|done]. simpl. rewrite length_insert. lia.
    + destruct (Set_insert_spec s ps k HInv v rnd Hf) as (h & s' & Hh & -> & Hins).
      simpl. eexists s', _, Inserted. split; [done|]. split; [done|].
      split; [by eapply inserted_Inv|]. split; [by eapply models_insert|].
      split; [|split].
      * rewrite (Inv_split s ps k HInv) at 3. rewrite !length_app. simpl. lia.
      * rewrite (ins_len _ _ _ _ _ _ Hins). lia.
      * apply Hins.
  - destruct (find_key s k ps) as [p|] eqn:Hf.
    + destruct (Remove_found_spec s ps k HInv p Hf) as (s' & c & -> & Hrem & _).
      destruct (found_split s ps k HInv p Hf) as (B & HB & Hps & _).
      simpl. eexists s', _, Removed. split; [done|]. split; [done|].
      split; [by eapply removed_Inv|]. split; [by eapply models_remove|].
      split; [|split].
      * rewrite HB. simpl. rewrite Hps at 2. rewrite !length_app. simpl. lia.
      * rewrite (rem_heap_len _ _ _ _ _ Hrem). lia.
      * apply Hrem.
    + destruct (Remove_absent_spec s ps k HInv Hf) as (c & Hc & ->).
      simpl. eexists _, ps, NotFound. split; [done|]. split; [done|].
      split; [by apply Inv_with_cache|]. split; [|split; [simpl; lia|split; [simpl; lia|done]]].
      rewrite delete_id by by eapply models_absent.
      by eapply models_transport.
  - rewrite (Get_spec s ps k HInv). simpl. exists s, ps, Other.
    split; [done|]. split; [done|]. split; [done|]. split; [done|].
    split; [simpl; lia|]. split; [lia|done].
  - eexists _, ps, Other. split; [done|]. split; [done|].
    split; [by apply Inv_SetProbability|]. split; [by eapply models_transport|].
    split; [simpl; lia|]. split; [simpl; lia|done].
Qed.

(** A whole sequence of operations. *)
Lemma run_spec (ops : list (op V)) :
  forall s ps m,
  Inv s ps -> models s ps m ->
  exists s' ps' xs,
    run Pow s ops = Ok s' /\ trace Pow s ops = Ok xs /\
    Inv s' ps' /\ models s' ps' (model_run m ops) /\
    Z.of_nat (length ps') = Z.of_nat (length ps) + count Inserted xs - count Removed xs /\
    (length (heap s') <= length (heap s) + length ops)%nat /\
    maxLevel s' = maxLevel s.
Proof.
  induction ops as [|o ops IH]; intros s ps m HInv Hm.
  - exists s, ps, []. simpl. repeat (split; [done|]). split; [|split; [lia|done]].
    unfold count. simpl. lia.
  - destruct (step_spec s ps m o HInv Hm)
      as (s1 & ps1 & x & Hstep & Hout & HInv1 & Hm1 & Hlen1 & Hheap1 & HM1).
    destruct (IH s1 ps1 (model_step m o) HInv1 Hm1)
      as (s' & ps' & xs & Hrun & Htr & HInv' & Hm' & Hlen' & Hheap' & HM').
    exists s', ps', (x :: xs). simpl. rewrite Hstep, Hout. simpl.
    rewrite Hrun, Htr. simpl. repeat (split; [done|]).
    split; [|split; [lia|congruence]].
    rewrite Hlen', Hlen1. unfold count. rewrite !filter_cons.
    destruct x; simpl; repeat case_decide; try done; simpl; lia.
Qed.

(** The operations applied to a fresh list. *)
Lemma run_new_spec (n : Z) (ops : list (op V)) :
  1 <= n <= 64 ->
  exists s ps xs,
    run_new Pow n ops = Ok s /\ trace_new Pow n ops = Ok xs /\
    Inv s ps /\ models s ps (model_run ∅ ops) /\
    Z.of_nat (length ps) = count Inserted xs - count Removed xs /\
    (length (heap s) <= length ops)%nat /\
    maxLevel s = n.
Proof.
  intros Hn. destruct (NewWithMaxLevel_Inv n Hn) as (s0 & Hnew & HInv0 & Hm0 & Hh0 & HM0).
  destruct (run_spec ops s0 [] ∅ HInv0 Hm0)
    as (s & ps & xs & Hrun & Htr & HInv & Hm & Hlen & Hheap & HM).
  exists s, ps, xs. unfold run_new, trace_new. rewrite Hnew. simpl.
  split; [done|]. split; [done|]. split; [done|]. split; [done|].
  split; [exact Hlen|].
  split; [rewrite Hh0 in Hheap; simpl in Hheap; lia|congruence].
Qed.

Lemma reachable_Inv s : reachable Pow s -> exists ps m, Inv s ps /\ models s ps m.
Proof.
  intros (n & ops & Hrun). unfold run_new in Hrun.
  apply bind_Ok in Hrun as (s0 & Hnew & Hrun).
  assert (1 <= n <= 64) as Hn.
  { unfold NewWithMaxLevel in Hnew. case_decide; [done|lia]. }
  destruct (run_new_spec n ops Hn) as (s' & ps & xs & Hrun' & _ & HInv & Hm & _).
  unfold run_new in Hrun'. rewrite Hnew in Hrun'. simpl in Hrun'.
  rewrite Hrun in Hrun'. injection Hrun' as <-. eauto.
Qed.

End Run_lemmas.

(** ** Walking a well-formed list *)

Section Walk_lemmas.

Context {V : Type}.
Implicit Types (s : Memory V) (r : nodeRef) (p q : ptr) (i j : nat).

Lemma follow_chain s i succ :
  (forall e, succ e = index (next e) i) ->
  forall qs r fuel,
  chain s i r qs -> (length qs < fuel)%nat ->
  exists es, follow fuel s succ (head qs) = Ok es /\ es.*1 = qs /\ stored s es.
Proof.
  intros Hsucc. induction qs as [|q qs IH]; intros r fuel Hc Hfuel.
  - destruct fuel; [simpl in Hfuel; lia|]. exists []. split; [done|]. split; [done|]. constructor.
  - destruct fuel as [|fuel]; [simpl in Hfuel; lia|].
    simpl in Hc. destruct Hc as [_ Hc].
    pose proof (chain_slot _ _ _ _ Hc) as Hsl. unfold slot in Hsl.
    destruct (heap s !! q) as [e|] eqn:He; [|done].
    destruct (IH (Node q) fuel Hc) as (es & Hes & Hfst & Hst); [simpl in Hfuel; lia|].
    exists ((q, e) :: es). simpl. unfold deref. rewrite He. simpl.
    rewrite Hsucc, (proj2 (index_Ok _ _ _) Hsl). simpl. rewrite Hes. simpl.
    split; [done|]. split; [by f_equal|]. by constructor.
Qed.

Lemma level_nodes_spec s ps i :
  Inv s ps -> (i < Z.to_nat (maxLevel s))%nat ->
  exists es, level_nodes s i = Ok es /\ es.*1 = level_list s i ps /\ stored s es.
Proof.
  intros HInv Hi. pose proof (inv_chain _ _ HInv i Hi) as Hc.
  destruct (follow_chain s i (fun e => index (next e) i) ltac:(done)
              (level_list s i ps) Header (walk_fuel s) Hc) as (es & Hes & Hfst & Hst).
  { apply (Inv_fuel s ps HInv). apply length_filter. }
  exists es. unfold level_nodes.
  apply chain_slot in Hc. simpl in Hc. rewrite (proj2 (index_Ok _ _ _) Hc). done.
Qed.

Lemma in_order_level_0 s : in_order s = level_nodes s 0.
Proof. done. Qed.

Lemma in_order_spec s ps :
  Inv s ps -> exists es, in_order s = Ok es /\ es.*1 = ps /\ stored s es.
Proof.
  intros HInv. pose proof (inv_maxLevel _ _ HInv).
  destruct (level_nodes_spec s ps 0 HInv) as (es & Hes & Hfst & Hst); [lia|].
  exists es. rewrite in_order_level_0.
  by rewrite (level_list_0 s ps HInv ps) in Hfst.
Qed.

Lemma stored_keys s es : stored s es -> (entry <$> es).*1 = keyOf s <$> es.*1.
Proof.
  induction 1 as [|[p e] es He _ IH]; [done|]. simpl in *.
  f_equal; [|done]. unfold keyOf. by rewrite He.
Qed.

Lemma stored_entry s es k v :
  stored s es ->
  (k, v) ∈ entry <$> es <->
  exists p, p ∈ es.*1 /\ keyOf s p = k /\ valueOf s p = Some v.
Proof.
  intros Hst. rewrite list_elem_of_fmap. split.
  - intros ([p e] & [= -> ->] & Hin). exists p.
    unfold stored in Hst. rewrite Forall_forall in Hst. pose proof (Hst _ Hin) as He. simpl in He.
    split; [apply list_elem_of_fmap; by exists (p, e)|].
    unfold keyOf, valueOf. by rewrite He.
  - intros (p & Hp & Hk & Hv). apply list_elem_of_fmap in Hp as ([p' e] & -> & Hin).
    exists (p', e). split; [|done].
    unfold stored in Hst. rewrite Forall_forall in Hst. pose proof (Hst _ Hin) as He. simpl in *.
    unfold keyOf, valueOf in *. rewrite He in Hk, Hv. simpl in *.
    unfold entry, Key, Value. simpl. congruence.
Qed.


End Walk_lemmas.

(** ** Consequences used by the claims *)

Section Claim_lemmas.

Context {V : Type}.
Implicit Types (s : Memory V) (r : nodeRef) (p q : ptr) (i j : nat).




(** An element is determined by its key, its value and its forward
    pointers. *)
Lemma element_ext s s' p e :
  heap s !! p = Some e ->
  length (heap s') = length (heap s) ->
  keyOf s' p = keyOf s p ->
  valueOf s' p = valueOf s p ->
  (forall i, slot s' (Node p) i = slot s (Node p) i) ->
  heap s' !! p = Some e.
Proof.
  intros He Hlen Hk Hv Hs.
  assert (is_Some (heap s' !! p)) as [e' He'].
  { apply lookup_lt_is_Some_2. rewrite Hlen. by eapply lookup_lt_Some. }
  unfold keyOf, valueOf in *. simpl in Hs. rewrite He, He' in *. simpl in *.
  f_equal. destruct e as [[nx] ke ve], e' as [[nx'] ke' ve']. simpl in *.
  assert (nx' = nx) as -> by (by apply list_eq).
  congruence.
Qed.


Lemma absent_iff s ps k :
  Inv s ps -> (absent s k <-> find_key s k ps = None).
Proof.
  intros HInv. destruct (in_order_spec s ps HInv) as (es & Hes & Hfst & Hst).
  unfold absent. split.
  - intros (es' & Hes' & Hin). rewrite Hes in Hes'. injection Hes' as <-.
    rewrite (stored_keys s es Hst), Hfst in Hin.
    destruct (find_key s k ps) as [p|] eqn:Hf; [|done].
    apply (find_key_Some s ps k HInv) in Hf as [Hp Hk]. exfalso. apply Hin.
    apply list_elem_of_fmap. by exists p.
  - intros Hf. exists es. split; [done|].
    rewrite (stored_keys s es Hst), Hfst.
    intros (p & Hk & Hp)%list_elem_of_fmap.
    by apply (find_key_absent s ps k HInv Hf p Hp).
Qed.


(** A walk reads nothing but the elements and the header. *)
Lemma follow_ext s s' succ fuel cur :
  heap s' = heap s -> follow fuel s' succ cur = follow fuel s succ cur.
Proof.
  intros Hh. revert cur. induction fuel as [|fuel IH]; intros cur; [done|].
  simpl. destruct cur as [p|]; [|done]. unfold deref. rewrite Hh.
  destruct (heap s !! p) as [e|]; [|done]. simpl.
  destruct (succ e) as [nxt| |]; [|done|done]. simpl. by rewrite IH.
Qed.

Lemma in_order_ext s s' :
  heap s' = heap s -> next s' = next s -> in_order s' = in_order s.
Proof.
  intros Hh Hn. unfold in_order, Front, walk_fuel. rewrite Hn, Hh.
  destruct (index (next s) 0) as [f| |]; [|done|done].
  apply (follow_ext s s' Next _ f Hh).
Qed.

Lemma Set_spec s ps (k : Z) (v : V) (rnd : Z) :
  Inv s ps ->
  exists p s' ps',
    Set_ s k v rnd = Ok (p, s') /\ Inv s' ps' /\
    p ∈ ps' /\ keyOf s' p = k /\ valueOf s' p = Some v.
Proof.
  intros HInv. destruct (find_key s k ps) as [p|] eqn:Hf.
  - destruct (Set_update_spec s ps k HInv v rnd p Hf) as (e & c & He & Hk & Hc & Hset).
    destruct (updated_observers s e p v c He) as (Hok & Hoh & Hos & Hov).
    destruct (find_key_Some s ps k HInv p Hf) as [Hp Hkp].
    eexists p, _, ps. split; [done|]. split; [by apply updated_Inv|].
    split; [done|]. split; [by rewrite Hok|]. by rewrite Hov, decide_True.
  - destruct (Set_insert_spec s ps k HInv v rnd Hf) as (h & s' & Hh & Hset & Hins).
    eexists _, s', _. split; [done|]. split; [by eapply inserted_Inv|].
    split; [set_solver|].
    rewrite (ins_key _ _ _ _ _ _ Hins), (ins_value _ _ _ _ _ _ Hins).
    by rewrite !decide_True.
Qed.

Lemma removed_find_key s s' ps k p :
  Inv s ps -> find_key s k ps = Some p -> removed s s' ps k p ->
  find_key s' k (below s k ps ++ tail (above s k ps)) = None.
Proof.
  intros HInv Hf Hrem. pose proof (removed_Inv s ps k HInv s' p Hf Hrem) as HInv'.
  destruct (found_split s ps k HInv p Hf) as (B & HB & Hps & Hnotin).
  destruct (find_key_Some s ps k HInv p Hf) as [Hp Hkp].
  destruct (find_key s' k _) as [q|] eqn:Hf'; [exfalso|done].
  apply (find_key_Some s' _ k HInv') in Hf' as [Hq Hkq].
  rewrite HB in Hq. simpl in Hq. rewrite (rem_key _ _ _ _ _ Hrem) in Hkq.
  assert (q ∈ ps) as Hqps by (rewrite Hps; set_solver).
  assert (q = p) as -> by (eapply sorted_key_inj; [apply HInv|done|done|congruence]).
  done.
Qed.

End Claim_lemmas.

(** ** Elements, effects of an operation, levels *)

Section Element_lemmas.

Context {V : Type}.
Implicit Types (s : Memory V) (p q : ptr).

Lemma find_key_iff s ps (k : Z) q :
  Inv s ps -> (find_key s k ps = Some q <-> q ∈ ps /\ keyOf s q = k).
Proof.
  intros HInv. split.
  - by apply find_key_Some.
  - intros [Hq Hk]. by apply find_key_present.
Qed.




Lemma sorted_lt_NoDup (l : list Z) : StronglySorted Z.lt l -> NoDup l.
Proof.
  induction 1 as [|x l Hs IH Hx]; constructor; [|done].
  intros Hin. rewrite Forall_forall in Hx. apply Hx in Hin. lia.
Qed.

Lemma element_ext_lt s s' p e :
  heap s !! p = Some e ->
  (p < length (heap s'))%nat ->
  keyOf s' p = keyOf s p ->
  valueOf s' p = valueOf s p ->
  (forall i, slot s' (Node p) i = slot s (Node p) i) ->
  heap s' !! p = Some e.
Proof.
  intros He Hlen Hk Hv Hs.
  assert (is_Some (heap s' !! p)) as [e' He'] by by apply lookup_lt_is_Some_2.
  unfold keyOf, valueOf in *. simpl in Hs. rewrite He, He' in *. simpl in *.
  f_equal. destruct e as [[nx] ke ve], e' as [[nx'] ke' ve']. simpl in *.
  assert (nx' = nx) as -> by (by apply list_eq).
  congruence.
Qed.

Lemma pred_at_live s ps (k : Z) (i : nat) q :
  pred_at s k ps i = Node q -> q ∈ ps.
Proof.
  intros E. destruct (pred_at_elem s ps k i) as [E'|(q' & E' & Hq & _)]; [congruence|].
  rewrite E in E'. by injection E' as ->.
Qed.

End Element_lemmas.

Section Effect_lemmas.

Context {V : Type}.
Variable Pow : float -> Z -> float.
Implicit Types (s : Memory V) (p q : ptr).

(** What one operation does to the elements: addresses stay valid, keys and
    heights stay, only an element with the operation's key enters or leaves
    the list or gets a new value, and an element outside the list is not
    written to. *)
Lemma step_effect s ps (o : op V) s' :
  Inv s ps -> step Pow s o = Ok s' ->
  exists ps',
    Inv s' ps' /\
    (length (heap s) <= length (heap s'))%nat /\
    (forall q, (q < length (heap s))%nat ->
       keyOf s' q = keyOf s q /\ heightOf s' q = heightOf s q) /\
    (forall q, q ∈ ps' -> q ∈ ps \/ (q = length (heap s) /\ targets o (keyOf s' q))) /\
    (forall q, q ∈ ps -> q ∈ ps' \/ targets o (keyOf s q)) /\
    (forall q, (q < length (heap s))%nat ->
       valueOf s' q = valueOf s q \/ (q ∈ ps /\ targets o (keyOf s q))) /\
    (forall q (i : nat), (q < length (heap s))%nat -> q ∉ ps ->
       slot s' (Node q) i = slot s (Node q) i).
Proof.
  intros HInv Hstep. destruct o as [k v rnd|k|k|pr]; simpl in Hstep.
  - destruct (find_key s k ps) as [p|] eqn:Hf.
    + destruct (Set_update_spec s ps k HInv v rnd p Hf) as (e & c & He & Hk & Hc & Hset).
      rewrite Hset in Hstep. simpl in Hstep. injection Hstep as <-.
      destruct (updated_observers s e p v c He) as (Hok & Hoh & Hos & Hov).
      destruct (find_key_Some s ps k HInv p Hf) as [Hp Hkp].
      exists ps. split; [by apply updated_Inv|].
      split; [simpl; by rewrite length_insert|]. split; [by auto|].
      split; [by auto|]. split; [by auto|]. split; [|by auto].
      intros q Hq. rewrite Hov. case_decide as Hqp; [|by left].
      subst q. right. by split.
    + destruct (Set_insert_spec s ps k HInv v rnd Hf) as (h & s0 & Hh & Hset & Hins).
      rewrite Hset in Hstep. simpl in Hstep. injection Hstep as <-.
      pose proof (Inv_split s ps k HInv) as Hps.
      eexists. split; [by eapply inserted_Inv|].
      split; [rewrite (ins_len _ _ _ _ _ _ Hins); lia|]. split; [|split; [|split; [|split]]].
      * intros q Hq. rewrite (ins_key _ _ _ _ _ _ Hins), (ins_height _ _ _ _ _ _ Hins).
        rewrite !decide_False by lia. done.
      * intros q Hq. destruct (decide (q = length (heap s))) as [->|Hne].
        -- right. split; [done|]. rewrite (ins_key _ _ _ _ _ _ Hins).
           by rewrite decide_True.
        -- left. rewrite Hps. set_solver.
      * intros q Hq. left. rewrite Hps in Hq. set_solver.
      * intros q Hq. left. rewrite (ins_value _ _ _ _ _ _ Hins).
        by rewrite decide_False by lia.
      * intros q i Hq Hnot. rewrite (ins_slot _ _ _ _ _ _ Hins). unfold link_slot.
        assert (Node q <> pred_at s k ps i) as Hne1.
        { intros E. symmetry in E. by apply pred_at_live in E. }
        assert (Node q <> Node (length (heap s))) as Hne2 by (intros [=]; lia).
        rewrite (decide_False (P := Node q = pred_at s k ps i)) by done.
        rewrite !(decide_False (P := Node q = Node (length (heap s)))) by done.
        by case_decide.
  - destruct (find_key s k ps) as [p|] eqn:Hf.
    + destruct (Remove_found_spec s ps k HInv p Hf) as (s0 & c & Hrem & Hremoved & _).
      rewrite Hrem in Hstep. simpl in Hstep. injection Hstep as <-.
      destruct (found_split s ps k HInv p Hf) as (B & HB & Hps & Hnotin).
      destruct (find_key_Some s ps k HInv p Hf) as [Hp Hkp].
      eexists. split; [by eapply removed_Inv|].
      split; [by rewrite (rem_heap_len _ _ _ _ _ Hremoved)|]. split; [|split; [|split; [|split]]].
      * intros q _. split; apply Hremoved.
      * intros q Hq. left. rewrite HB in Hq. simpl in Hq. rewrite Hps. set_solver.
      * intros q Hq. rewrite HB. simpl. rewrite Hps in Hq.
        destruct (decide (q = p)) as [->|Hne]; [by right|left]. set_solver.
      * intros q _. left. apply Hremoved.
      * intros q i Hq Hnot. rewrite (rem_slot _ _ _ _ _ Hremoved). unfold unlink_slot.
        rewrite decide_False; [done|]. intros [_ E]. symmetry in E.
        by apply pred_at_live in E.
    + destruct (Remove_absent_spec s ps k HInv Hf) as (c & Hc & Hrem).
      rewrite Hrem in Hstep. simpl in Hstep. injection Hstep as <-.
      exists ps. split; [by apply Inv_with_cache|]. by auto 10.
  - rewrite (Get_spec s ps k HInv) in Hstep. simpl in Hstep. injection Hstep as <-.
    exists ps. by auto 10.
  - injection Hstep as <-. exists ps. split; [by apply Inv_SetProbability|]. by auto 10.
Qed.

(** The same along a sequence of operations. *)
Lemma run_effect (ops : list (op V)) :
  forall s ps s',
  Inv s ps -> run Pow s ops = Ok s' ->
  exists ps',
    Inv s' ps' /\
    (length (heap s) <= length (heap s'))%nat /\
    (forall q, (q < length (heap s))%nat ->
       keyOf s' q = keyOf s q /\ heightOf s' q = heightOf s q).
Proof.
  induction ops as [|o ops IH]; intros s ps s' HInv Hrun; simpl in Hrun.
  - injection Hrun as <-. exists ps. by auto.
  - apply bind_Ok in Hrun as (s1 & Hstep & Hrun).
    destruct (step_effect s ps o s1 HInv Hstep) as (ps1 & HInv1 & Hlen1 & Hk1 & _).
    destruct (IH s1 ps1 s' HInv1 Hrun) as (ps' & HInv' & Hlen' & Hk').
    exists ps'. split; [done|]. split; [lia|].
    intros q Hq. destruct (Hk1 q Hq) as [<- <-]. apply Hk'. lia.
Qed.

(** An element that is not in the list is not touched by an operation, and
    does not enter the list. *)
Lemma dead_step s ps (o : op V) s' q :
  Inv s ps -> step Pow s o = Ok s' ->
  (q < length (heap s))%nat -> q ∉ ps ->
  exists ps', Inv s' ps' /\ (q < length (heap s'))%nat /\ (q ∉ ps') /\
              heap s' !! q = heap s !! q.
Proof.
  intros HInv Hstep Hq Hnot.
  destruct (step_effect s ps o s' HInv Hstep)
    as (ps' & HInv' & Hlen & Hk & Hin & _ & Hv & Hsl).
  exists ps'. split; [done|]. split; [lia|]. split.
  - intros [Hold|[-> _]]%Hin; [done|lia].
  - destruct (lookup_lt_is_Some_2 (heap s) q Hq) as [e He]. rewrite He.
    apply (element_ext_lt s s' q e He); [lia|by apply Hk| |by auto].
    destruct (Hv q Hq) as [E|[Hold _]]; done.
Qed.

Lemma dead_run (ops : list (op V)) :
  forall s ps s' q,
  Inv s ps -> run Pow s ops = Ok s' ->
  (q < length (heap s))%nat -> q ∉ ps ->
  exists ps', Inv s' ps' /\ (q < length (heap s'))%nat /\ (q ∉ ps') /\
              heap s' !! q = heap s !! q.
Proof.
  induction ops as [|o ops IH]; intros s ps s' q HInv Hrun Hq Hnot; simpl in Hrun.
  - injection Hrun as <-. exists ps. by auto.
  - apply bind_Ok in Hrun as (s1 & Hstep & Hrun).
    destruct (dead_step s ps o s1 q HInv Hstep Hq Hnot) as (ps1 & HInv1 & Hq1 & Hnot1 & <-).
    by apply (IH s1 ps1).
Qed.

(** A sequence of operations on a well-formed list runs to its end. *)
Lemma run_total s ps (ops : list (op V)) :
  Inv s ps -> exists s', run Pow s ops = Ok s'.
Proof.
  intros HInv.
  assert (exists m, models s ps m) as [m Hm].
  { destruct (in_order_spec s ps HInv) as (es & Hes & Hfst & Hst).
    exists (list_to_map (entry <$> es)). intros k v.
    rewrite <- elem_of_list_to_map.
    - by rewrite (stored_entry s es k v Hst), Hfst.
    - rewrite (stored_keys s es Hst), Hfst. apply sorted_lt_NoDup, HInv. }
  destruct (run_spec Pow ops s ps m HInv Hm) as (s' & _ & _ & Hrun & _). by exists s'.
Qed.

End Effect_lemmas.

Section Walk_effect_lemmas.

Context {V : Type}.
Implicit Types (s : Memory V) (kvs : list (Z * V)).




End Walk_effect_lemmas.

Section Level_lemmas.

Context {V : Type}.
Variable Pow : float -> Z -> float.
Implicit Types (s : Memory V).

Lemma probabilityTable_lookup (pr : float) (M j : Z) :
  0 <= j < M -> probabilityTable Pow pr M !! Z.to_nat j = Some (Pow pr j).
Proof.
  intros Hj. unfold probabilityTable. rewrite list_lookup_fmap, lookup_seqZ_lt by lia.
  simpl. do 2 f_equal. lia.
Qed.

(** The table is the one computed from the current probability. *)
Lemma step_table s ps (o : op V) s' :
  Inv s ps -> step Pow s o = Ok s' ->
  probTable s = probabilityTable Pow (probability s) (maxLevel s) ->
  probTable s' = probabilityTable Pow (probability s') (maxLevel s').
Proof.
  intros HInv Hstep Htab. destruct o as [k v rnd|k|k|pr]; simpl in Hstep.
  - destruct (find_key s k ps) as [p|] eqn:Hf.
    + destruct (Set_update_spec s ps k HInv v rnd p Hf) as (e & c & _ & _ & _ & Hset).
      rewrite Hset in Hstep. simpl in Hstep. by injection Hstep as <-.
    + destruct (Set_insert_spec s ps k HInv v rnd Hf) as (h & s0 & _ & Hset & Hins).
      rewrite Hset in Hstep. simpl in Hstep. injection Hstep as <-.
      by rewrite (ins_probTable _ _ _ _ _ _ Hins), (ins_probability _ _ _ _ _ _ Hins),
        (ins_maxLevel _ _ _ _ _ _ Hins).
  - destruct (find_key s k ps) as [p|] eqn:Hf.
    + destruct (Remove_found_spec s ps k HInv p Hf) as (s0 & c & Hrem & Hremoved & _).
      rewrite Hrem in Hstep. simpl in Hstep. injection Hstep as <-.
      by rewrite (rem_probTable _ _ _ _ _ Hremoved), (rem_probability _ _ _ _ _ Hremoved),
        (rem_maxLevel _ _ _ _ _ Hremoved).
    + destruct (Remove_absent_spec s ps k HInv Hf) as (c & _ & Hrem).
      rewrite Hrem in Hstep. simpl in Hstep. by injection Hstep as <-.
  - rewrite (Get_spec s ps k HInv) in Hstep. simpl in Hstep. by injection Hstep as <-.
  - by injection Hstep as <-.
Qed.

Lemma run_table (ops : list (op V)) :
  forall s ps s',
  Inv s ps -> run Pow s ops = Ok s' ->
  probTable s = probabilityTable Pow (probability s) (maxLevel s) ->
  probTable s' = probabilityTable Pow (probability s') (maxLevel s').
Proof.
  induction ops as [|o ops IH]; intros s ps s' HInv Hrun Htab; simpl in Hrun.
  - by injection Hrun as <-.
  - apply bind_Ok in Hrun as (s1 & Hstep & Hrun).
    destruct (step_effect Pow s ps o s1 HInv Hstep) as (ps1 & HInv1 & _).
    apply (IH s1 ps1 s' HInv1 Hrun). exact (step_table s ps o s1 HInv Hstep Htab).
Qed.

Lemma reachable_table s :
  reachable Pow s -> probTable s = probabilityTable Pow (probability s) (maxLevel s).
Proof.
  intros (n & ops & Hrun). unfold run_new in Hrun.
  apply bind_Ok in Hrun as (s0 & Hnew & Hrun).
  assert (1 <= n <= 64) as Hn.
  { unfold NewWithMaxLevel in Hnew. case_decide; [done|lia]. }
  destruct (NewWithMaxLevel_Inv (V:=V) Pow n Hn) as (s0' & Hnew' & HInv0 & _).
  rewrite Hnew in Hnew'. injection Hnew' as <-.
  apply (run_table ops s0 [] s HInv0 Hrun).
  rewrite (NewWithMaxLevel_Ok (V:=V) Pow n Hn) in Hnew. by injection Hnew as <-.
Qed.

(** A walk is determined by the addresses it meets. *)
Lemma stored_inj s (es es' : list (ptr * Element V)) :
  stored s es -> stored s es' -> es.*1 = es'.*1 -> es = es'.
Proof.
  unfold stored. intros Hst. revert es'.
  induction Hst as [|[p e] es He _ IH]; intros [|[p' e'] es'] Hst' Heq; try done.
  apply Forall_cons in Hst' as [He' Hst']. simpl in *.
  injection Heq as <- Heq. rewrite He in He'. injection He' as <-.
  f_equal. by apply IH.
Qed.

Lemma stored_level s (i : nat) (es : list (ptr * Element V)) :
  stored s es ->
  stored s (filter (fun pe : ptr * Element V => (i < length (next pe.2))%nat) es) /\
  (filter (fun pe : ptr * Element V => (i < length (next pe.2))%nat) es).*1 = level_list s i es.*1.
Proof.
  unfold stored, level_list. induction 1 as [|[p e] es He _ [IH1 IH2]]; [done|].
  rewrite fmap_cons, !filter_cons. simpl in *.
  assert (heightOf s p = length (next e)) as -> by (unfold heightOf; by rewrite He).
  case_decide; [|done]. split; [by constructor|]. rewrite fmap_cons. by f_equal.
Qed.

End Level_lemmas.

(** ** Keys that no comparison orders *)

Section Unordered_lemmas.

Import Keyed.

Context {T V : Type} `{!Keyed.Sortable T}.
Implicit Types (s : Keyed.Memory T V) (k : T).

Local Arguments Keyed.advance : simpl never.
Local Arguments Keyed.walk_fuel : simpl never.

Lemma insert_after_prefix {A} (x : A) (pre l : list A) (j : nat) :
  length pre = j -> (j < length l)%nat ->
  <[j := x]> (pre ++ drop j l) = (pre ++ [x]) ++ drop (S j) l.
Proof.
  intros Hpre Hj. destruct (lookup_lt_is_Some_2 l j Hj) as [y Hy].
  rewrite insert_app_r_alt by lia. rewrite Hpre, Nat.sub_diag, (drop_S l y j Hy).
  simpl. by rewrite <- app_assoc.
Qed.

Lemma keyed_header_slot s k (i : nat) :
  Keyed.header_ok s -> Keyed.not_above_front s k -> (i < Z.to_nat (maxLevel s))%nat ->
  exists nxt, next s !! i = Some nxt /\
    forall p, nxt = Some p ->
      exists e, Keyed.heap s !! p = Some e /\ Keyed.key_gt k (Keyed.key e) = false.
Proof.
  intros Hok Hfront Hi.
  destruct (lookup_lt_is_Some_2 (next s) i) as [nxt Hnxt].
  { by rewrite (Keyed.ok_header s Hok). }
  exists nxt. split; [done|]. intros p ->.
  destruct (lookup_lt_is_Some_2 (Keyed.heap s) p (Keyed.ok_valid s Hok i p Hnxt)) as [e He].
  exists e. split; [done|]. by apply (Hfront i p e).
Qed.

Lemma keyed_unordered_front s k : Keyed.unordered k -> Keyed.not_above_front s k.
Proof. intros Hk i p e _ _. apply (Keyed.un_gt k Hk). Qed.

(** The horizontal walk does not move when the next key is not below [k]. *)
Lemma keyed_advance_stays s k (i : nat) prev nxt fuel :
  (forall p, nxt = Some p ->
     exists e, Keyed.heap s !! p = Some e /\ Keyed.key_gt k (Keyed.key e) = false) ->
  Keyed.advance (S fuel) s k i prev nxt = Ok (prev, nxt).
Proof.
  intros Hv. unfold Keyed.advance. destruct nxt as [p|]; [|done].
  destruct (Hv p eq_refl) as (e & He & Hgt).
  unfold Keyed.deref. rewrite He. simpl. by rewrite Hgt.
Qed.

(** The search stays at the header at every level. *)
Lemma keyed_search_front s k :
  Keyed.not_above_front s k -> Keyed.header_ok s ->
  forall (n : nat) prevs,
  (n <= Z.to_nat (maxLevel s))%nat -> (n <= length prevs)%nat ->
  Keyed.getPrevElementNodes_loop s k (levels_down n) Header prevs =
    Ok (replicate n (Some Header) ++ drop n prevs).
Proof.
  intros Hk Hok. induction n as [|n IH]; intros prevs Hn Hlen; [done|].
  unfold levels_down. rewrite levels_down_S. simpl.
  destruct (keyed_header_slot s k n Hok Hk ltac:(lia)) as (nxt & Hnxt & Hv).
  unfold Keyed.read_next. simpl.
  rewrite (proj2 (index_Ok _ _ _) Hnxt). simpl.
  unfold Keyed.walk_fuel. rewrite (keyed_advance_stays s k n Header nxt _ Hv). simpl.
  rewrite store_Ok by lia. simpl.
  fold (levels_down n). rewrite IH by (rewrite ?length_insert; lia). f_equal.
  destruct (lookup_lt_is_Some_2 prevs n ltac:(lia)) as [y Hy].
  rewrite drop_insert_ge, Nat.sub_diag, (drop_S prevs y n Hy) by lia. simpl.
  rewrite app_comm_cons, replicate_cons_app, <- app_assoc. done.
Qed.

Lemma keyed_level_count s : Keyed.header_ok s -> Keyed.level_count s = Z.to_nat (maxLevel s).
Proof.
  intros Hok. pose proof (Keyed.ok_maxLevel s Hok). unfold Keyed.level_count.
  rewrite int_wrap_small by lia. f_equal. lia.
Qed.

Lemma keyed_getPrev_front s k :
  Keyed.not_above_front s k -> Keyed.header_ok s ->
  Keyed.getPrevElementNodes s k =
    Ok (replicate (Z.to_nat (maxLevel s)) (Some Header),
        Keyed.set_list s (with_cache s (replicate (Z.to_nat (maxLevel s)) (Some Header)))).
Proof.
  intros Hk Hok. unfold Keyed.getPrevElementNodes.
  rewrite (keyed_level_count s Hok).
  rewrite (keyed_search_front s k Hk Hok)
    by (rewrite ?(Keyed.ok_cache s Hok); lia).
  simpl. rewrite drop_ge by (rewrite (Keyed.ok_cache s Hok); lia).
  by rewrite app_nil_r.
Qed.

Lemma keyed_Get_loop_front s k :
  Keyed.not_above_front s k -> Keyed.header_ok s ->
  forall (n : nat) nxt,
  (n <= Z.to_nat (maxLevel s))%nat ->
  exists r, Keyed.Get_loop s k (levels_down n) Header nxt = Ok (Header, r) /\
    (n = 0%nat -> r = nxt) /\ ((0 < n)%nat -> next s !! 0%nat = Some r).
Proof.
  intros Hk Hok. induction n as [|n IH]; intros nxt Hn.
  - exists nxt. split; [done|]. split; [done|lia].
  - unfold levels_down. rewrite levels_down_S. simpl.
    destruct (keyed_header_slot s k n Hok Hk ltac:(lia)) as (nxt0 & Hnxt & Hv).
    unfold Keyed.read_next. simpl.
    rewrite (proj2 (index_Ok _ _ _) Hnxt). simpl.
    unfold Keyed.walk_fuel. rewrite (keyed_advance_stays s k n Header nxt0 _ Hv). simpl.
    fold (levels_down n). destruct (IH nxt0 ltac:(lia)) as (r & Hr & H0 & HS).
    exists r. split; [done|]. split; [lia|]. intros _.
    destruct n as [|n]; [|apply HS; lia]. by rewrite (H0 eq_refl).
Qed.

(** [Get] looks at the first element only. *)
Lemma keyed_Get_front s k :
  Keyed.not_above_front s k -> Keyed.header_ok s ->
  exists nxt, next s !! 0%nat = Some nxt /\
    Keyed.Get s k =
      match nxt with
      | Some p =>
          e <- Keyed.deref s p;;
          if Keyed.key_eq (Keyed.key e) k then Ok (Some p) else Ok None
      | None => Ok None
      end.
Proof.
  intros Hk Hok. pose proof (Keyed.ok_maxLevel s Hok) as HM.
  unfold Keyed.Get. rewrite (keyed_level_count s Hok).
  destruct (keyed_Get_loop_front s k Hk Hok (Z.to_nat (maxLevel s)) None ltac:(lia))
    as (r & -> & _ & Hr). simpl.
  exists r. split; [apply Hr; lia|done].
Qed.

(** [Get] finds nothing. *)
Lemma keyed_Get_unordered s k :
  Keyed.unordered k -> Keyed.header_ok s -> Keyed.Get s k = Ok None.
Proof.
  intros Hk Hok.
  destruct (keyed_Get_front s k (keyed_unordered_front s k Hk) Hok) as (r & Hr & ->).
  destruct r as [p|]; [|done].
  pose proof (Keyed.ok_valid s Hok 0%nat p Hr) as Hp.
  destruct (lookup_lt_is_Some_2 (Keyed.heap s) p Hp) as [e He].
  unfold Keyed.deref. rewrite He. simpl.
  by rewrite (Keyed.un_eq k Hk).
Qed.

(** [Remove] finds nothing and writes to the cache only. *)
Lemma keyed_Remove_unordered s k :
  Keyed.unordered k -> Keyed.header_ok s ->
  Keyed.Remove s k =
    Ok (None, Keyed.set_list s
                (with_cache s (replicate (Z.to_nat (maxLevel s)) (Some Header)))).
Proof.
  intros Hk Hok. pose proof (Keyed.ok_maxLevel s Hok) as HM.
  unfold Keyed.Remove.
  rewrite (keyed_getPrev_front s k (keyed_unordered_front s k Hk) Hok). simpl.
  unfold index at 1. rewrite lookup_replicate_2 by lia. simpl.
  destruct (keyed_header_slot s k 0 Hok (keyed_unordered_front s k Hk) ltac:(lia))
    as (nxt & Hnxt & Hv).
  unfold Keyed.read_next. simpl. rewrite (proj2 (index_Ok _ _ _) Hnxt). simpl.
  destruct nxt as [p|]; [|done].
  destruct (Hv p eq_refl) as (e & He & _).
  unfold Keyed.deref. simpl. rewrite He. simpl.
  by rewrite (Keyed.un_le k Hk).
Qed.

Lemma keyed_randLevel_loop_spec s r fuel :
  forall level,
  maxLevel s <= 64 ->
  length (probTable s) = Z.to_nat (maxLevel s) ->
  1 <= level ->
  (Z.to_nat (maxLevel s - level) < fuel)%nat ->
  exists h, Keyed.randLevel_loop fuel s r level = Ok h /\
            level <= h /\ (h <= maxLevel s \/ h = level).
Proof.
  induction fuel as [|fuel IH]; intros level HM Htab Hl Hfuel; [lia|].
  simpl. case_decide as Hlt; [|exists level; split; [done|lia]].
  unfold indexZ. rewrite decide_True by lia.
  destruct (index_lt (probTable s) (Z.to_nat level)) as (t & -> & _); [lia|].
  simpl. destruct (PrimFloat.ltb r t); [|exists level; split; [done|lia]].
  rewrite int_wrap_small by lia.
  destruct (IH (level + 1)) as (h & Hh & Hb); [done..|lia|lia|].
  exists h. split; [done|lia].
Qed.

Lemma keyed_Set_link_front s k (v : V) (h : nat) :
  (h <= length (next s))%nat ->
  let c := replicate (Z.to_nat (maxLevel s)) (Some Header) in
  (h <= Z.to_nat (maxLevel s))%nat ->
  forall (m j : nat), (j + m = h)%nat ->
  Keyed.Set_link (Keyed.linked_front s k v c h j) c (length (Keyed.heap s)) (seq j m) =
    Ok (Keyed.linked_front s k v c h h).
Proof.
  intros Hh c HhM. induction m as [|m IH]; intros j Hj.
  - simpl. by assert (j = h) as -> by lia.
  - simpl. unfold index at 1. unfold c at 1. rewrite lookup_replicate_2 by lia. simpl.
    destruct (lookup_lt_is_Some_2 (next s) j ltac:(lia)) as [nxt Hnxt].
    unfold Keyed.read_next. simpl. unfold index at 1.
    rewrite lookup_app_r by (rewrite length_replicate; lia).
    rewrite length_replicate, Nat.sub_diag, lookup_drop, Nat.add_0_r, Hnxt. simpl.
    unfold Keyed.deref. simpl.
    rewrite lookup_app_r, Nat.sub_diag by lia. simpl.
    rewrite store_Ok by (rewrite length_app, length_replicate, length_take_le; lia). simpl.
    rewrite store_Ok by (rewrite length_app, length_replicate, length_drop; lia). simpl.
    rewrite <- (IH (S j)) by lia. f_equal.
    unfold Keyed.linked_front, Keyed.set_list, Keyed.set_heap, with_next. simpl. f_equal.
    + f_equal. f_equal.
      rewrite insert_after_prefix by (rewrite ?length_replicate; lia).
      by rewrite <- replicate_S_end.
    + rewrite insert_app_r_alt by lia. rewrite Nat.sub_diag. simpl. do 3 f_equal.
      rewrite insert_app_r_alt by (rewrite length_take_le; lia).
      rewrite length_take_le, Nat.sub_diag by lia.
      rewrite (take_S_r _ _ _ Hnxt), <- app_assoc. f_equal.
      replace (h - j)%nat with (S (h - S j)) by lia. done.
Qed.

(** [Set] puts a new element right behind the header. *)
Lemma keyed_Set_unordered (Pow : float -> Z -> float) s k (v : V) (rnd : Z) :
  Keyed.unordered k -> Keyed.header_ok s ->
  exists h : nat,
    (1 <= h <= Z.to_nat (maxLevel s))%nat /\
    let c := replicate (Z.to_nat (maxLevel s)) (Some Header) in
    let s1 := Keyed.linked_front s k v c h h in
    Keyed.Set_ s k v rnd =
      Ok (length (Keyed.heap s),
          Keyed.set_list s1 (with_Length s1 (int_wrap (Length s + 1)))).
Proof.
  intros Hk Hok. pose proof (Keyed.ok_maxLevel s Hok) as HM.
  set (c := replicate (Z.to_nat (maxLevel s)) (Some Header)).
  set (s0 := Keyed.set_list s (with_cache s c)).
  destruct (keyed_randLevel_loop_spec s0 (rand_float rnd) (S (Z.to_nat (maxLevel s))) 1)
    as (level & Hrand & Hle & Hb); [simpl; lia|apply Hok|lia|simpl; lia|].
  simpl in Hb.
  exists (Z.to_nat level). split; [lia|]. simpl.
  assert (Hins : Keyed.Set_ s k v rnd = Keyed.Set_insert s0 c k v rnd).
  { unfold Keyed.Set_.
    rewrite (keyed_getPrev_front s k (keyed_unordered_front s k Hk) Hok). simpl.
    unfold index at 1. rewrite lookup_replicate_2 by lia. simpl.
    destruct (keyed_header_slot s k 0 Hok (keyed_unordered_front s k Hk) ltac:(lia))
      as (nxt & Hnxt & Hv).
    unfold Keyed.read_next. simpl. rewrite (proj2 (index_Ok _ _ _) Hnxt). simpl.
    destruct nxt as [p|]; [|done].
    destruct (Hv p eq_refl) as (e & He & _).
    unfold Keyed.deref. simpl. rewrite He. simpl.
    by rewrite (Keyed.un_le k Hk). }
  rewrite Hins. unfold Keyed.Set_insert, Keyed.randLevel.
  change (maxLevel s0) with (maxLevel s). rewrite Hrand. simpl.
  unfold make. rewrite decide_True by lia. simpl. rewrite length_replicate.
  set (h := Z.to_nat level).
  pose proof (keyed_Set_link_front s k v h ltac:(rewrite (Keyed.ok_header s Hok); lia)
                ltac:(lia) h 0%nat ltac:(lia)) as Hlink.
  fold c in Hlink.
  assert (Hstart : Keyed.set_heap s0
            (Keyed.heap s ++ [ {| Keyed.e_node := mkNode (replicate h None);
                                  Keyed.key := k; Keyed.value := v |} ])
          = Keyed.linked_front s k v c h 0).
  { unfold Keyed.linked_front, Keyed.set_heap, s0, Keyed.set_list, with_next. simpl.
    rewrite Nat.sub_0_r. f_equal. by destruct s as [[[nx] ? ? ? ? ?] ? ?]. }
  change (Keyed.heap s0) with (Keyed.heap s). rewrite Hstart, Hlink. done.
Qed.

(** The list after [Set] of an unordered key. *)
Lemma keyed_Set_unordered_effect (Pow : float -> Z -> float) s k (v : V) (rnd : Z) :
  Keyed.unordered k -> Keyed.header_ok s ->
  exists (h : nat) s',
    (1 <= h <= Z.to_nat (maxLevel s))%nat /\
    Keyed.Set_ s k v rnd = Ok (length (Keyed.heap s), s') /\
    Keyed.heap s' = Keyed.heap s ++
      [ {| Keyed.e_node := mkNode (take h (next s)); Keyed.key := k; Keyed.value := v |} ] /\
    next s' = replicate h (Some (length (Keyed.heap s))) ++ drop h (next s) /\
    Length s' = int_wrap (Length s + 1) /\
    Keyed.header_ok s'.
Proof.
  intros Hk Hok. pose proof (Keyed.ok_maxLevel s Hok) as HM.
  destruct (keyed_Set_unordered Pow s k v rnd Hk Hok) as (h & Hh & Hset).
  simpl in Hset. eexists h, _. split; [done|]. split; [exact Hset|].
  simpl. rewrite Nat.sub_diag, app_nil_r. split; [done|]. split; [done|]. split; [done|].
  constructor; simpl.
  - done.
  - rewrite length_app, length_replicate, length_drop, (Keyed.ok_header s Hok). lia.
  - by rewrite length_replicate.
  - apply Hok.
  - intros i p. rewrite length_app. simpl. destruct (decide (i < h)%nat).
    + rewrite lookup_app_l by (rewrite length_replicate; lia).
      rewrite lookup_replicate_2 by lia. intros [= <-]. lia.
    + rewrite lookup_app_r by (rewrite length_replicate; lia).
      rewrite lookup_drop. intros Hp%(Keyed.ok_valid s Hok). lia.
Qed.

End Unordered_lemmas.

(** ** Well-formedness of the reachable lists, for any keys *)

Section Keyed_reachable_lemmas.

Import Keyed.

Context {T V : Type} `{!Keyed.Sortable T}.
Variable Pow : float -> Z -> float.
Implicit Types (s : Keyed.Memory T V) (k : T).

Lemma keyed_frame_refl s : Keyed.frame s s.
Proof. by repeat split. Qed.

Lemma keyed_frame_trans s1 s2 s3 : Keyed.frame s1 s2 -> Keyed.frame s2 s3 -> Keyed.frame s1 s3.
Proof.
  intros (? & ? & ? & ? & ?) (? & ? & ? & ? & ?).
  repeat split; congruence.
Qed.

Lemma keyed_read_next_valid s r (i : nat) q :
  Keyed.valid s -> Keyed.read_next s r i = Ok (Some q) -> (q < length (Keyed.heap s))%nat.
Proof.
  intros [Hh He] Hread. unfold Keyed.read_next in Hread.
  apply bind_Ok in Hread as (nx & Hnx & Hidx). apply index_Ok in Hidx.
  destruct r as [|p]; simpl in Hnx.
  - injection Hnx as <-. by apply (Hh i).
  - apply bind_Ok in Hnx as (e & Hderef & [= <-]).
    unfold Keyed.deref in Hderef. destruct (Keyed.heap s !! p) as [e'|] eqn:Hp; [|done].
    injection Hderef as ->. by apply (He p e i).
Qed.

Lemma keyed_write_next_valid s r (i : nat) v s' :
  Keyed.valid s -> (forall q, v = Some q -> (q < length (Keyed.heap s))%nat) ->
  Keyed.write_next s r i v = Ok s' ->
  Keyed.valid s' /\ length (Keyed.heap s') = length (Keyed.heap s) /\ Keyed.frame s s'.
Proof.
  intros [Hh He] Hv Hw. destruct r as [|p]; simpl in Hw.
  - apply bind_Ok in Hw as (nx & Hst & [= <-]).
    unfold store in Hst. case_decide as Hi; [|done]. injection Hst as <-.
    split; [split|split; [done|]].
    + intros j q. simpl. destruct (decide (j = i)) as [->|Hne].
      * rewrite list_lookup_insert_eq by done. intros [= ->]. by apply Hv.
      * rewrite list_lookup_insert_ne by done. apply Hh.
    + exact He.
    + repeat split. simpl. by rewrite length_insert.
  - apply bind_Ok in Hw as (e & Hderef & Hw).
    apply bind_Ok in Hw as (nx & Hst & [= <-]).
    unfold Keyed.deref in Hderef. destruct (Keyed.heap s !! p) as [e'|] eqn:Hp; [|done].
    injection Hderef as ->.
    unfold store in Hst. case_decide as Hi; [|done]. injection Hst as <-.
    pose proof (lookup_lt_Some _ _ _ Hp) as Hlt.
    split; [split|split; [simpl; by rewrite length_insert|by repeat split]].
    + intros j q. simpl. rewrite length_insert. apply Hh.
    + intros p' e' j q. simpl. rewrite length_insert.
      destruct (decide (p' = p)) as [->|Hne].
      * rewrite list_lookup_insert_eq by done. intros [= <-]. simpl.
        destruct (decide (j = i)) as [->|Hji].
        -- rewrite list_lookup_insert_eq by done. intros [= ->]. by apply Hv.
        -- rewrite list_lookup_insert_ne by done. by apply (He p e).
      * rewrite list_lookup_insert_ne by done. apply He.
Qed.

Lemma keyed_Set_link_valid prevs p (levels : list nat) :
  forall s s',
  Keyed.valid s -> (p < length (Keyed.heap s))%nat ->
  Keyed.Set_link s prevs p levels = Ok s' ->
  Keyed.valid s' /\ Keyed.frame s s'.
Proof.
  induction levels as [|i levels IH]; intros s s' Hval Hp Hlink; simpl in Hlink.
  - injection Hlink as <-. split; [done|apply keyed_frame_refl].
  - apply bind_Ok in Hlink as (r0 & _ & Hlink).
    apply bind_Ok in Hlink as (r & _ & Hlink).
    apply bind_Ok in Hlink as (v & Hread & Hlink).
    apply bind_Ok in Hlink as (s1 & Hw1 & Hlink).
    apply bind_Ok in Hlink as (s2 & Hw2 & Hlink).
    destruct (keyed_write_next_valid s (Node p) i v s1 Hval) as (Hval1 & Hlen1 & Hfr1); [|done|].
    { intros q ->. by eapply keyed_read_next_valid. }
    destruct (keyed_write_next_valid s1 r i (Some p) s2 Hval1) as (Hval2 & Hlen2 & Hfr2); [|done|].
    { intros q [= <-]. by rewrite Hlen1. }
    destruct (IH s2 s' Hval2) as [Hval' Hfr']; [|done|].
    { by rewrite Hlen2, Hlen1. }
    split; [done|]. eapply keyed_frame_trans; [exact Hfr1|].
    eapply keyed_frame_trans; [exact Hfr2|done].
Qed.

Lemma keyed_Remove_unlink_valid prevs p (levels : list nat) :
  forall s s',
  Keyed.valid s ->
  Keyed.Remove_unlink s prevs p levels = Ok s' ->
  Keyed.valid s' /\ Keyed.frame s s'.
Proof.
  induction levels as [|i levels IH]; intros s s' Hval Hun; simpl in Hun.
  - injection Hun as <-. split; [done|apply keyed_frame_refl].
  - apply bind_Ok in Hun as (v & Hread & Hun).
    apply bind_Ok in Hun as (r0 & _ & Hun).
    apply bind_Ok in Hun as (r & _ & Hun).
    apply bind_Ok in Hun as (s1 & Hw1 & Hun).
    destruct (keyed_write_next_valid s r i v s1 Hval) as (Hval1 & Hlen1 & Hfr1); [|done|].
    { intros q ->. by eapply keyed_read_next_valid. }
    destruct (IH s1 s' Hval1 Hun) as [Hval' Hfr'].
    split; [done|]. by eapply keyed_frame_trans.
Qed.

Lemma keyed_search_length s k (levels : list nat) :
  forall prev prevs prevs',
  Keyed.getPrevElementNodes_loop s k levels prev prevs = Ok prevs' ->
  length prevs' = length prevs.
Proof.
  induction levels as [|i levels IH]; intros prev prevs prevs' Hloop; simpl in Hloop.
  - by injection Hloop as <-.
  - apply bind_Ok in Hloop as (nxt & _ & Hloop).
    apply bind_Ok in Hloop as ([prev' nxt'] & _ & Hloop).
    apply bind_Ok in Hloop as (prevs1 & Hst & Hloop).
    unfold store in Hst. case_decide; [|done]. injection Hst as <-.
    rewrite (IH _ _ _ Hloop). by rewrite length_insert.
Qed.

Lemma keyed_getPrev_inv s k prevs s1 :
  Keyed.getPrevElementNodes s k = Ok (prevs, s1) ->
  s1 = Keyed.set_list s (with_cache s prevs) /\
  length prevs = length (prevNodesCache s).
Proof.
  unfold Keyed.getPrevElementNodes. intros (prevs0 & Hloop & [= <- <-])%bind_Ok.
  split; [done|]. by eapply keyed_search_length.
Qed.

Lemma keyed_wf_valid s : Keyed.wf s -> Keyed.valid s.
Proof. intros [Hok Hp]. split; [apply Hok|done]. Qed.

Lemma keyed_wf_frame s s' :
  Keyed.header_ok s -> Keyed.valid s' -> Keyed.frame s s' -> Keyed.wf s'.
Proof.
  intros Hok [Hh He] (Hnx & HM & HL & HT & HC). split; [|done].
  constructor.
  - rewrite HM. apply Hok.
  - rewrite Hnx, HM. apply Hok.
  - rewrite HC, HM. apply Hok.
  - rewrite HT, HM. apply Hok.
  - exact Hh.
Qed.

Lemma keyed_wf_cache s c :
  Keyed.wf s -> length c = length (prevNodesCache s) ->
  Keyed.wf (Keyed.set_list s (with_cache s c)).
Proof.
  intros [Hok Hp] Hc. split; [|done]. constructor; simpl; try apply Hok.
  rewrite Hc. apply Hok.
Qed.

Lemma keyed_Set_wf s k (v : V) (rnd : Z) p s' :
  Keyed.wf s -> Keyed.Set_ s k v rnd = Ok (p, s') -> Keyed.wf s'.
Proof.
  intros Hwf Hset. unfold Keyed.Set_ in Hset.
  apply bind_Ok in Hset as ([prevs s1] & Hget & Hset).
  apply keyed_getPrev_inv in Hget as [-> Hlen].
  pose proof (keyed_wf_cache s prevs Hwf Hlen) as Hwf1.
  set (s1 := Keyed.set_list s (with_cache s prevs)) in *.
  apply bind_Ok in Hset as (r0 & _ & Hset).
  apply bind_Ok in Hset as (r & _ & Hset).
  apply bind_Ok in Hset as (element & Hread & Hset).
  assert (Hinsert : forall res, Keyed.Set_insert s1 prevs k v rnd = Ok res -> Keyed.wf res.2).
  { intros [p2 s2] Hins. unfold Keyed.Set_insert in Hins.
    apply bind_Ok in Hins as (level & _ & Hins).
    apply bind_Ok in Hins as (nx & Hmake & Hins).
    unfold make in Hmake. case_decide; [|done]. injection Hmake as <-.
    unfold Keyed.alloc in Hins.
    apply bind_Ok in Hins as (s3 & Hlink & [= <- <-]).
    set (e := {| Keyed.e_node := mkNode (replicate (Z.to_nat level) None);
                 Keyed.key := k; Keyed.value := v |}) in *.
    assert (Keyed.valid (Keyed.set_heap s1 (Keyed.heap s1 ++ [e]))) as Hval2.
    { destruct (keyed_wf_valid s1 Hwf1) as [Hh He].
      change (Keyed.heap s1) with (Keyed.heap s) in *. split.
      - intros i q Hq. simpl. rewrite length_app. simpl.
        pose proof (Hh i q Hq) as Hlt. lia.
      - intros p' e' i q. simpl. rewrite length_app. simpl.
        destruct (decide (p' < length (Keyed.heap s))%nat).
        + rewrite lookup_app_l by done. intros Hp' Hq.
          pose proof (He p' e' i q Hp' Hq) as Hlt. simpl in Hlt. lia.
        + intros Hp'. pose proof (lookup_lt_Some _ _ _ Hp') as Hlt.
          rewrite length_app in Hlt. simpl in Hlt.
          assert (p' = length (Keyed.heap s)) as -> by lia.
          rewrite lookup_app_r, Nat.sub_diag in Hp' by lia. injection Hp' as <-.
          simpl. by intros [[=] _]%lookup_replicate_1. }
    assert (length (Keyed.heap s1)
              < length (Keyed.heap (Keyed.set_heap s1 (Keyed.heap s1 ++ [e]))))%nat as Hfresh.
    { simpl. rewrite length_app. simpl. lia. }
    destruct (keyed_Set_link_valid _ _ _ _ _ Hval2 Hfresh Hlink) as [Hval3 Hfr3].
    simpl.
    destruct (keyed_wf_frame s1 s3 (proj1 Hwf1) Hval3 Hfr3) as [Hok3 Hp3].
    split; [|done]. constructor; simpl; apply Hok3. }
  destruct element as [q|]; [|apply (Hinsert _ Hset)].
  apply bind_Ok in Hset as (e & Hderef & Hset).
  destruct (Keyed.key_le (Keyed.key e) k); [|apply (Hinsert _ Hset)].
  apply bind_Ok in Hset as (s2 & Hwrite & [= <- <-]).
  unfold Keyed.write_value in Hwrite.
  apply bind_Ok in Hwrite as (e' & Hderef' & [= <-]).
  assert (forall s0 : Keyed.Memory T V, Keyed.wf s0 ->
            Keyed.deref s0 q = Ok e' ->
            Keyed.wf (Keyed.set_heap s0 (<[q := Keyed.elem_with_value e' v]> (Keyed.heap s0))))
    as Hupd.
  { intros s0 [Hok0 Hp0] Hd. unfold Keyed.deref in Hd.
    destruct (Keyed.heap s0 !! q) as [e0|] eqn:Hq; [|done]. injection Hd as ->.
    split.
    - constructor; simpl; try apply Hok0.
      intros i p'. rewrite length_insert. apply Hok0.
    - intros p' e0 i q'. simpl. rewrite length_insert.
      destruct (decide (p' = q)) as [->|Hne].
      + rewrite list_lookup_insert_eq by by eapply lookup_lt_Some.
        intros [= <-]. simpl. by apply (Hp0 q e').
      + rewrite list_lookup_insert_ne by done. apply Hp0. }
  destruct (Keyed.key_lt (Keyed.key e) k).
  - apply Hupd; [|done]. destruct Hwf1 as [Hok1 Hp1]. split; [|done].
    constructor; simpl; apply Hok1.
  - by apply Hupd.
Qed.

Lemma keyed_Remove_wf s k r s' :
  Keyed.wf s -> Keyed.Remove s k = Ok (r, s') -> Keyed.wf s'.
Proof.
  intros Hwf Hrem. unfold Keyed.Remove in Hrem.
  apply bind_Ok in Hrem as ([prevs s1] & Hget & Hrem).
  apply keyed_getPrev_inv in Hget as [-> Hlen].
  pose proof (keyed_wf_cache s prevs Hwf Hlen) as Hwf1.
  set (s1 := Keyed.set_list s (with_cache s prevs)) in *.
  apply bind_Ok in Hrem as (r0 & _ & Hrem).
  apply bind_Ok in Hrem as (r1 & _ & Hrem).
  apply bind_Ok in Hrem as (element & Hread & Hrem).
  destruct element as [q|]; [|by injection Hrem as <- <-].
  apply bind_Ok in Hrem as (e & Hderef & Hrem).
  destruct (Keyed.key_le (Keyed.key e) k); [|by injection Hrem as <- <-].
  apply bind_Ok in Hrem as (s2 & Hun & [= <- <-]).
  destruct (keyed_Remove_unlink_valid prevs q _ s1 s2 (keyed_wf_valid s1 Hwf1) Hun)
    as [Hval2 Hfr2].
  destruct (keyed_wf_frame s1 s2 (proj1 Hwf1) Hval2 Hfr2) as [Hok2 Hp2].
  split; [|done]. constructor; simpl; apply Hok2.
Qed.

Lemma keyed_step_wf s (o : Keyed.op T V) s' :
  Keyed.wf s -> Keyed.step Pow s o = Ok s' -> Keyed.wf s'.
Proof.
  intros Hwf Hstep. destruct o as [k v rnd|k|k|pr]; simpl in Hstep.
  - apply bind_Ok in Hstep as ([p s1] & Hset & [= <-]). by eapply keyed_Set_wf.
  - apply bind_Ok in Hstep as ([r s1] & Hrem & [= <-]). by eapply keyed_Remove_wf.
  - by apply bind_Ok in Hstep as (r & _ & [= <-]).
  - injection Hstep as <-. destruct Hwf as [Hok Hp]. split; [|done].
    constructor; simpl; try apply Hok.
    unfold probabilityTable. rewrite length_fmap, length_seqZ. done.
Qed.

Lemma keyed_run_wf (ops : list (Keyed.op T V)) :
  forall s s', Keyed.wf s -> Keyed.run Pow s ops = Ok s' -> Keyed.wf s'.
Proof.
  induction ops as [|o ops IH]; intros s s' Hwf Hrun; simpl in Hrun.
  - by injection Hrun as <-.
  - apply bind_Ok in Hrun as (s1 & Hstep & Hrun).
    apply (IH s1 s'); [|done]. by eapply keyed_step_wf.
Qed.

(** Every list the operations produce is well-formed. *)
Lemma keyed_reachable_wf s : Keyed.reachable Pow s -> Keyed.wf s.
Proof.
  intros (n & ops & Hrun). unfold Keyed.run_new in Hrun.
  apply bind_Ok in Hrun as (s0 & Hnew & Hrun).
  apply (keyed_run_wf ops s0 s); [|done].
  unfold Keyed.NewWithMaxLevel in Hnew. case_decide as Hn; [done|].
  unfold make in Hnew. rewrite !decide_True in Hnew by lia. simpl in Hnew.
  injection Hnew as <-. split.
  - constructor; simpl; rewrite ?length_replicate; try done; try lia.
    + unfold probabilityTable. by rewrite length_fmap, length_seqZ.
    + by intros i p [[=] _]%lookup_replicate_1.
  - by intros p e i q Hp.
Qed.

Lemma keyed_reachable_ok s : Keyed.reachable Pow s -> Keyed.header_ok s.
Proof. by intros [Hok _]%keyed_reachable_wf. Qed.

Lemma keyed_run_app (ops1 ops2 : list (Keyed.op T V)) :
  forall s, Keyed.run Pow s (ops1 ++ ops2) = (s' <- Keyed.run Pow s ops1;; Keyed.run Pow s' ops2).
Proof.
  induction ops1 as [|o ops1 IH]; intros s; [done|]. simpl.
  destruct (Keyed.step Pow s o) as [s1| |]; [|done..]. simpl. apply IH.
Qed.

Lemma keyed_reachable_step s (o : Keyed.op T V) s' :
  Keyed.reachable Pow s -> Keyed.step Pow s o = Ok s' -> Keyed.reachable Pow s'.
Proof.
  intros (n & ops & Hrun) Hstep. exists n, (ops ++ [o]).
  unfold Keyed.run_new in *. apply bind_Ok in Hrun as (s0 & Hnew & Hrun).
  rewrite Hnew. simpl. rewrite keyed_run_app, Hrun. simpl. by rewrite Hstep.
Qed.

End Keyed_reachable_lemmas.

(** ** The operations on keys of any type: no panic, no endless loop *)

Section Simulation_lemmas.

Context {T V : Type} `{!Keyed.Sortable T}.
Implicit Types (s : Keyed.Memory T V) (z : Memory V) (k : T).

Local Arguments Keyed.advance : simpl never.
Local Arguments Keyed.walk_fuel : simpl never.
Local Arguments Keyed.write_next : simpl never.
Local Arguments Keyed.read_next : simpl never.

Lemma same_pointers_length s z :
  same_pointers s z -> length (Keyed.heap s) = length (heap z).
Proof. intros [_ Hh]. by rewrite <- (length_fmap Keyed.e_node), Hh, length_fmap. Qed.

Lemma same_pointers_lookup s z p :
  same_pointers s z ->
  Keyed.e_node <$> (Keyed.heap s !! p) = e_node <$> (heap z !! p).
Proof. intros [_ Hh]. by rewrite <- !list_lookup_fmap, Hh. Qed.

Lemma same_pointers_slot s z r (i : nat) :
  same_pointers s z ->
  Keyed.read_next s r i = match slot z r i with Some v => Ok v | None => Panic end.
Proof.
  intros Hsp. unfold Keyed.read_next, Keyed.node_next, slot, Keyed.deref, index.
  destruct r as [|p]; simpl.
  - by rewrite (proj1 Hsp).
  - pose proof (same_pointers_lookup s z p Hsp) as Hp.
    destruct (Keyed.heap s !! p) as [e|], (heap z !! p) as [e'|]; simpl in *;
      try done.
    injection Hp as Hp. by rewrite Hp.
Qed.

Lemma same_pointers_read s z r (i : nat) :
  same_pointers s z -> Keyed.read_next s r i = read_next z r i.
Proof. intros Hsp. by rewrite (same_pointers_slot s z r i Hsp), read_next_slot. Qed.

Lemma same_pointers_sl s z (l : SkipList) :
  same_pointers s z -> same_pointers (Keyed.set_list s l) (set_list z l).
Proof. by intros [_ Hh]. Qed.

Lemma same_pointers_sl_cache s z (c : list (option nodeRef)) :
  same_pointers s z ->
  same_pointers (Keyed.set_list s (with_cache s c)) (set_list z (with_cache z c)).
Proof. intros [Hsl Hh]. split; [simpl; by rewrite Hsl|done]. Qed.

Lemma same_pointers_write s z r (i : nat) v z' :
  same_pointers s z -> write_next z r i v = Ok z' ->
  exists s', Keyed.write_next s r i v = Ok s' /\ same_pointers s' z'.
Proof.
  intros Hsp Hw. unfold write_next in Hw. unfold Keyed.write_next.
  destruct r as [|p]; simpl in *.
  - rewrite (proj1 Hsp). apply bind_Ok in Hw as (nx & -> & [= <-]). simpl.
    eexists. split; [done|]. split; [done|apply Hsp].
  - apply bind_Ok in Hw as (e' & He' & Hw). apply bind_Ok in Hw as (nx & Hst & [= <-]).
    apply deref_Ok in He'.
    pose proof (same_pointers_lookup s z p Hsp) as Hp. rewrite He' in Hp.
    unfold Keyed.deref.
    destruct (Keyed.heap s !! p) as [e|] eqn:He; [|done]. simpl in Hp. injection Hp as Hp.
    simpl. rewrite Hp, Hst. simpl. eexists. split; [done|].
    split; [apply Hsp|]. simpl. rewrite !list_fmap_insert. simpl.
    by rewrite (proj2 Hsp).
Qed.

Lemma same_pointers_Set_link prevs p (levels : list nat) :
  forall s z z',
  same_pointers s z -> Set_link z prevs p levels = Ok z' ->
  exists s', Keyed.Set_link s prevs p levels = Ok s' /\ same_pointers s' z'.
Proof.
  induction levels as [|i levels IH]; intros s z z' Hsp Hlink; simpl in *.
  - injection Hlink as <-. by exists s.
  - apply bind_Ok in Hlink as (r0 & -> & Hlink). simpl.
    apply bind_Ok in Hlink as (r & -> & Hlink). simpl.
    apply bind_Ok in Hlink as (v & Hread & Hlink).
    rewrite (same_pointers_read s z r i Hsp), Hread. simpl.
    apply bind_Ok in Hlink as (z1 & Hw1 & Hlink).
    destruct (same_pointers_write s z (Node p) i v z1 Hsp Hw1) as (s1 & -> & Hsp1). simpl.
    apply bind_Ok in Hlink as (z2 & Hw2 & Hlink).
    destruct (same_pointers_write s1 z1 r i (Some p) z2 Hsp1 Hw2) as (s2 & -> & Hsp2). simpl.
    by apply (IH s2 z2).
Qed.

Lemma same_pointers_Remove_unlink prevs p (levels : list nat) :
  forall s z z',
  same_pointers s z -> Remove_unlink z prevs p levels = Ok z' ->
  exists s', Keyed.Remove_unlink s prevs p levels = Ok s' /\ same_pointers s' z'.
Proof.
  induction levels as [|i levels IH]; intros s z z' Hsp Hun.
  - simpl in *. injection Hun as <-. by exists s.
  - unfold Remove_unlink in Hun. fold (@Remove_unlink V) in Hun.
    unfold Keyed.Remove_unlink. fold (@Keyed.Remove_unlink T V).
    apply bind_Ok in Hun as (v & Hread & Hun).
    rewrite (same_pointers_read s z (Node p) i Hsp), Hread. simpl.
    apply bind_Ok in Hun as (r0 & -> & Hun). simpl.
    apply bind_Ok in Hun as (r & -> & Hun). simpl.
    apply bind_Ok in Hun as (z1 & Hw1 & Hun).
    destruct (same_pointers_write s z r i v z1 Hsp Hw1) as (s1 & -> & Hsp1). simpl.
    by apply (IH s1 z1).
Qed.

Lemma same_pointers_randLevel s z (rnd : Z) :
  same_pointers s z -> Keyed.randLevel s rnd = randLevel z rnd.
Proof.
  intros [Hsl _]. unfold Keyed.randLevel, randLevel. rewrite Hsl.
  generalize (S (Z.to_nat (maxLevel z))) 1. intros fuel.
  induction fuel as [|fuel IH]; intros level; [done|].
  simpl. rewrite Hsl. case_decide; [|done].
  destruct (indexZ (probTable z) level) as [t| |]; simpl; [|done..].
  by rewrite IH.
Qed.

Lemma same_pointers_Set_insert s z prevs k (kz : Z) (v : V) (rnd : Z) p z' :
  same_pointers s z -> Set_insert z prevs kz v rnd = Ok (p, z') ->
  exists s', Keyed.Set_insert s prevs k v rnd = Ok (p, s') /\ same_pointers s' z'.
Proof.
  intros Hsp Hins. unfold Set_insert in Hins. unfold Keyed.Set_insert.
  rewrite (same_pointers_randLevel s z rnd Hsp).
  apply bind_Ok in Hins as (level & -> & Hins). simpl.
  apply bind_Ok in Hins as (nx & -> & Hins). simpl.
  unfold alloc in Hins. unfold Keyed.alloc.
  apply bind_Ok in Hins as (z1 & Hlink & [= <- <-]).
  rewrite (same_pointers_length s z Hsp).
  assert (same_pointers
            (Keyed.set_heap s (Keyed.heap s ++
               [ {| Keyed.e_node := mkNode nx; Keyed.key := k; Keyed.value := v |} ]))
            (set_heap z (heap z ++ [ {| e_node := mkNode nx; key := kz; value := v |} ])))
    as Hsp0.
  { split; [apply Hsp|]. simpl. rewrite !fmap_app. simpl. by rewrite (proj2 Hsp). }
  destruct (same_pointers_Set_link _ _ _ _ _ _ Hsp0 Hlink) as (s1 & -> & Hsp1).
  simpl. eexists. split; [done|]. split; [simpl; by rewrite (proj1 Hsp1)|apply Hsp1].
Qed.

End Simulation_lemmas.

Section Rekey_lemmas.

Context {T V : Type} `{!Keyed.Sortable T}.
Implicit Types (s : Keyed.Memory T V) (z : Memory V) (k : T).

Lemma rekey_lookup (f : ptr -> Z) z (p : ptr) :
  heap (rekey f z) !! p =
    (fun e => {| e_node := e_node e; key := f p; value := value e |}) <$> heap z !! p.
Proof. unfold rekey. simpl. by rewrite list_lookup_imap. Qed.

Lemma rekey_slot (f : ptr -> Z) z r (i : nat) : slot (rekey f z) r i = slot z r i.
Proof.
  destruct r as [|p]; [done|]. unfold slot. rewrite rekey_lookup.
  by destruct (heap z !! p).
Qed.

Lemma rekey_heightOf (f : ptr -> Z) z (p : ptr) : heightOf (rekey f z) p = heightOf z p.
Proof. unfold heightOf. rewrite rekey_lookup. by destruct (heap z !! p). Qed.

Lemma rekey_length (f : ptr -> Z) z : length (heap (rekey f z)) = length (heap z).
Proof. unfold rekey. simpl. by rewrite length_imap. Qed.

Lemma rekey_keyOf (f : ptr -> Z) z (p : ptr) :
  (p < length (heap z))%nat -> keyOf (rekey f z) p = f p.
Proof.
  intros Hp. unfold keyOf. rewrite rekey_lookup.
  by destruct (lookup_lt_is_Some_2 (heap z) p Hp) as [e ->].
Qed.

Lemma same_pointers_rekey (f : ptr -> Z) s z :
  same_pointers s z -> same_pointers s (rekey f z).
Proof.
  intros [Hsl Hh]. split; [done|]. rewrite Hh. apply list_eq. intros p.
  rewrite !list_lookup_fmap, rekey_lookup. by destruct (heap z !! p).
Qed.

Lemma rank_from_lookup (ps : list ptr) :
  forall (b : Z) (j : nat) (p : ptr),
  NoDup ps -> ps !! j = Some p -> rank_from b ps p = b + 2 * Z.of_nat j.
Proof.
  induction ps as [|q ps IH]; intros b j p Hnd Hj; [done|].
  apply NoDup_cons in Hnd as [Hq Hnd]. simpl. destruct j as [|j]; simpl in Hj.
  - injection Hj as ->. rewrite decide_True by done. lia.
  - rewrite decide_False.
    + rewrite (IH (b + 2) j p Hnd Hj). lia.
    + intros ->. apply Hq. by eapply list_elem_of_lookup_2.
Qed.

Lemma rank_lookup (ps : list ptr) (j : nat) (p : ptr) :
  NoDup ps -> ps !! j = Some p -> rank ps p = 2 * Z.of_nat j.
Proof. intros Hnd Hj. unfold rank. by rewrite (rank_from_lookup ps 0 j p Hnd Hj). Qed.

Lemma sorted_of_lookup (l : list Z) :
  (forall (i j : nat) x y, l !! i = Some x -> l !! j = Some y -> (i < j)%nat -> x < y) ->
  StronglySorted Z.lt l.
Proof.
  induction l as [|a l IH]; intros Hl; constructor.
  - apply IH. intros i j x y Hi Hj Hij. apply (Hl (S i) (S j)); [done|done|lia].
  - apply Forall_lookup. intros j y Hj. apply (Hl 0%nat (S j)); [done|done|lia].
Qed.

(** The pointers of a skip list, with the keys replaced by the positions. *)
Lemma rekey_Inv z (ps : list ptr) : Inv z ps -> Inv (rekey (rank ps) z) ps.
Proof.
  intros HInv. pose proof (Inv_NoDup z ps HInv) as Hnd.
  pose proof (inv_valid _ _ HInv) as Hv. rewrite Forall_forall in Hv.
  constructor; try apply HInv.
  - intros p. rewrite rekey_length, rekey_heightOf. apply HInv.
  - rewrite Forall_forall. intros p Hp. rewrite rekey_length. by apply Hv.
  - apply sorted_of_lookup. intros i j x y.
    rewrite !list_lookup_fmap.
    destruct (ps !! i) as [p|] eqn:Hi; [|done]. destruct (ps !! j) as [q|] eqn:Hj; [|done].
    simpl. intros [= <-] [= <-] Hij.
    rewrite !rekey_keyOf by (apply Hv; by eapply list_elem_of_lookup_2).
    rewrite (rank_lookup ps i p Hnd Hi), (rank_lookup ps j q Hnd Hj). lia.
  - intros i Hi.
    rewrite (level_list_ext z (rekey (rank ps) z) i ps)
      by (intros; apply rekey_heightOf).
    eapply chain_frame; [|by apply (inv_chain _ _ HInv)].
    intros r' _. apply rekey_slot.
Qed.

(** With the positions as keys, a key between two positions splits the
    list there. *)
Lemma rekey_split z (A B : list ptr) (kz : Z) :
  Inv z (A ++ B) ->
  2 * Z.of_nat (length A) - 1 <= kz <= 2 * Z.of_nat (length A) ->
  below (rekey (rank (A ++ B)) z) kz (A ++ B) = A /\
  above (rekey (rank (A ++ B)) z) kz (A ++ B) = B /\
  match head B with
  | Some p => keyOf (rekey (rank (A ++ B)) z) p = 2 * Z.of_nat (length A)
  | None => True
  end.
Proof.
  intros HInv Hkz. pose proof (Inv_NoDup z _ HInv) as Hnd.
  pose proof (inv_valid _ _ HInv) as Hv. rewrite Forall_forall in Hv.
  set (z' := rekey (rank (A ++ B)) z).
  assert (HA : forall (j : nat) p, A !! j = Some p -> keyOf z' p = 2 * Z.of_nat j).
  { intros j p Hj. unfold z'.
    assert ((A ++ B) !! j = Some p) as Hj' by by apply lookup_app_l_Some.
    rewrite rekey_keyOf by (apply Hv; by eapply list_elem_of_lookup_2).
    by apply rank_lookup. }
  assert (HB : forall (j : nat) p, B !! j = Some p ->
                 keyOf z' p = 2 * Z.of_nat (length A + j)).
  { intros j p Hj. unfold z'.
    assert ((A ++ B) !! (length A + j)%nat = Some p) as Hj'.
    { by rewrite lookup_app_r, Nat.add_comm, Nat.add_sub by lia. }
    rewrite rekey_keyOf by (apply Hv; by eapply list_elem_of_lookup_2).
    by apply rank_lookup. }
  unfold below, above. rewrite !filter_app. split; [|split].
  - rewrite (filter_all _ A), (filter_none _ B), app_nil_r; [done| |].
    + apply Forall_lookup. intros j p Hj. rewrite (HB j p Hj). lia.
    + apply Forall_lookup. intros j p Hj. rewrite (HA j p Hj).
      apply lookup_lt_Some in Hj. lia.
  - rewrite (filter_none _ A), (filter_all _ B); [done| |].
    + apply Forall_lookup. intros j p Hj. rewrite (HB j p Hj). lia.
    + apply Forall_lookup. intros j p Hj. rewrite (HA j p Hj).
      apply lookup_lt_Some in Hj. lia.
  - destruct B as [|p B']; [done|]. simpl. rewrite (HB 0%nat p eq_refl). f_equal. lia.
Qed.

End Rekey_lemmas.

Section Keyed_search_lemmas.

Context {T V : Type} `{!Keyed.Sortable T}.
Implicit Types (r : nodeRef) (p q : ptr) (i j c : nat).

Local Arguments Keyed.advance : simpl never.
Local Arguments Keyed.walk_fuel : simpl never.
Local Arguments Keyed.write_next : simpl never.
Local Arguments Keyed.read_next : simpl never.

Variables (s : Keyed.Memory T V) (z : Memory V) (ps : list ptr) (k : T).
Hypothesis Hsp : same_pointers s z.
Hypothesis HInv : Inv z ps.

Lemma last_ref_app r (xs ys : list ptr) :
  last_ref r (xs ++ ys) = last_ref (last_ref r xs) ys.
Proof.
  destruct ys as [|y ys] using rev_ind; [by rewrite app_nil_r|].
  rewrite app_assoc. unfold last_ref. by rewrite !last_snoc.
Qed.

Lemma last_ref_level_last r (xs : list ptr) q i :
  last xs = Some q -> (i < heightOf z q)%nat -> last_ref r (level_list z i xs) = Node q.
Proof.
  intros [xs' ->]%last_Some Hq. rewrite level_list_app, last_ref_app.
  unfold level_list at 2. rewrite filter_cons, decide_True by done.
  by rewrite filter_nil.
Qed.

Lemma keyed_element p :
  is_Some (heap z !! p) ->
  exists (e : Keyed.Element T V) (e' : Element V),
    Keyed.heap s !! p = Some e /\ heap z !! p = Some e' /\ next e = next e'.
Proof.
  intros [e' He']. pose proof (same_pointers_lookup s z p Hsp) as Hp. rewrite He' in Hp.
  destruct (Keyed.heap s !! p) as [e|]; [|done]. simpl in Hp. injection Hp as Hp.
  exists e, e'. by rewrite Hp.
Qed.

(** The horizontal walk goes over the elements that are below [k] and stops
    at the first that is not. *)
Lemma keyed_advance_chain i (G R : list ptr) :
  forall prev fuel,
  chain z i prev (G ++ R) ->
  Forall (fun q => key_above s k q = true) G ->
  stops s k R ->
  (length G < fuel)%nat ->
  Keyed.advance fuel s k i prev (head (G ++ R)) = Ok (last_ref prev G, head R).
Proof.
  induction G as [|x G IH]; intros prev fuel Hc HG HR Hfuel.
  - destruct fuel as [|fuel]; [simpl in Hfuel; lia|].
    unfold Keyed.advance. simpl. destruct R as [|y R]; simpl; [done|].
    destruct Hc as [_ Hc]. apply chain_slot in Hc.
    destruct (keyed_element y) as (e & e' & He & He' & _).
    { unfold slot in Hc. by destruct (heap z !! y). }
    unfold Keyed.deref. rewrite He. simpl.
    unfold stops, key_above in HR. simpl in HR. rewrite He in HR. by rewrite HR.
  - destruct fuel as [|fuel]; [simpl in Hfuel; lia|].
    unfold Keyed.advance. fold (@Keyed.advance T V _). simpl in *. destruct Hc as [_ Hc].
    apply Forall_cons in HG as [Hx HG].
    pose proof (chain_slot _ _ _ _ Hc) as Hsl.
    destruct (keyed_element x) as (e & e' & He & He' & Hnx).
    { unfold slot in Hsl. by destruct (heap z !! x). }
    unfold Keyed.deref. rewrite He. simpl.
    unfold key_above in Hx. rewrite He in Hx. rewrite Hx.
    unfold slot in Hsl. rewrite He' in Hsl. rewrite Hnx.
    rewrite (proj2 (index_Ok _ _ _) Hsl). simpl.
    rewrite last_ref_cons. apply IH; [done|done|done|lia].
Qed.

(** Where the walk of level [i] stops in a list that continues the level-0
    chain. *)
Lemma walk_split i (B : list ptr) :
  exists B1 B2,
    B = B1 ++ B2 /\
    Forall (fun q => key_above s k q = true) (level_list z i B1) /\
    (B1 = [] \/ exists q, last B1 = Some q /\ (i < heightOf z q)%nat) /\
    stops s k (level_list z i B2).
Proof.
  induction B as [|x B (B1 & B2 & -> & HG & Hlast & Hstop)].
  - exists [], []. split; [done|]. split; [exact (Forall_nil_2 _)|]. split; [by left|done].
  - destruct (decide (i < heightOf z x)%nat) as [Hx|Hx].
    + destruct (key_above s k x) eqn:Hk.
      * exists (x :: B1), B2. split; [done|]. split; [|split; [right|done]].
        -- unfold level_list. rewrite filter_cons, decide_True by done. by constructor.
        -- destruct Hlast as [->|(q & Hq & Hh)]; [by exists x|].
           exists q. split; [|done]. destruct B1; [done|]. done.
      * exists [], (x :: B1 ++ B2). split; [done|]. split; [exact (Forall_nil_2 _)|].
        split; [by left|].
        unfold stops, level_list. by rewrite filter_cons, decide_True by done.
    + destruct Hlast as [->|(q & Hq & Hh)].
      * exists [], (x :: B2). split; [done|]. split; [exact (Forall_nil_2 _)|]. split; [by left|].
        unfold level_list. rewrite filter_cons, decide_False by done. done.
      * exists (x :: B1), B2. split; [done|]. split; [|split; [right|done]].
        -- unfold level_list. by rewrite filter_cons, decide_False by done.
        -- exists q. split; [|done]. destruct B1; [done|]. done.
Qed.

Lemma keyed_walk_fuel : Keyed.walk_fuel s = walk_fuel z.
Proof. unfold Keyed.walk_fuel, walk_fuel. by rewrite (same_pointers_length s z Hsp). Qed.

(** One level of the search. *)
Lemma keyed_search_level c (A B : list ptr) prev :
  (c < Z.to_nat (maxLevel z))%nat ->
  ps = A ++ B ->
  (forall j, (j <= c)%nat -> last_ref Header (level_list z j A) = prev) ->
  (forall j, (c < j < Z.to_nat (maxLevel z))%nat -> stops s k (level_list z j B)) ->
  exists A' B' prev',
    Keyed.read_next s prev c = Ok (head (level_list z c B)) /\
    Keyed.advance (Keyed.walk_fuel s) s k c prev (head (level_list z c B)) =
      Ok (prev', head (level_list z c B')) /\
    ps = A' ++ B' /\
    (forall j, (j <= c)%nat -> last_ref Header (level_list z j A') = prev') /\
    (forall j, (c <= j < Z.to_nat (maxLevel z))%nat -> stops s k (level_list z j B')) /\
    (forall j, (c < j < Z.to_nat (maxLevel z))%nat -> level_list z j A' = level_list z j A).
Proof.
  intros Hc Hps HD HB.
  pose proof (inv_chain _ _ HInv c Hc) as Hch.
  rewrite Hps, level_list_app in Hch. apply chain_app in Hch.
  rewrite (HD c ltac:(lia)) in Hch.
  assert (Keyed.read_next s prev c = Ok (head (level_list z c B))) as Hread.
  { rewrite (same_pointers_slot s z prev c Hsp). by rewrite (chain_slot _ _ _ _ Hch). }
  destruct (walk_split c B) as (B1 & B2 & -> & HG & Hlast & Hstop).
  rewrite level_list_app in Hch.
  assert (length (level_list z c B1) < Keyed.walk_fuel s)%nat as Hfuel.
  { rewrite keyed_walk_fuel. apply (Inv_fuel z ps HInv).
    etrans; [apply length_filter|]. rewrite Hps, !length_app. lia. }
  pose proof (keyed_advance_chain c _ _ prev _ Hch HG Hstop Hfuel) as Hadv.
  rewrite <- level_list_app in Hadv.
  destruct Hlast as [->|(q & Hq & Hh)].
  - exists A, B2, prev. simpl in *. repeat split; try done.
    intros j Hj. destruct (decide (j = c)) as [->|Hne]; [done|]. apply HB. lia.
  - assert (Hnone : forall j, (c < j < Z.to_nat (maxLevel z))%nat -> level_list z j B1 = []).
    { intros j Hj. destruct (level_list z j B1) as [|x xs] eqn:E; [done|exfalso].
      pose proof (HB j Hj) as Hs. rewrite level_list_app, E in Hs.
      unfold stops in Hs. simpl in Hs.
      assert (x ∈ level_list z j B1) as Hx by (rewrite E; set_solver).
      apply list_elem_of_filter in Hx as [Hhx Hx].
      assert (x ∈ level_list z c B1) as Hx'.
      { apply list_elem_of_filter. split; [lia|done]. }
      rewrite Forall_forall in HG. rewrite (HG x Hx') in Hs. done. }
    exists (A ++ B1), B2, (Node q).
    split; [done|]. split.
    { rewrite Hadv. by rewrite (last_ref_level_last prev B1 q c Hq Hh). }
    split; [by rewrite <- app_assoc|]. split; [|split].
    + intros j Hj. rewrite level_list_app, last_ref_app.
      apply last_ref_level_last; [done|lia].
    + intros j Hj. destruct (decide (j = c)) as [->|Hne]; [done|].
      pose proof (HB j ltac:(lia)) as Hs.
      by rewrite level_list_app, (Hnone j ltac:(lia)) in Hs.
    + intros j Hj. by rewrite level_list_app, (Hnone j Hj), app_nil_r.
Qed.

(** The search of [getPrevElementNodes]: it splits the level-0 chain in two
    and returns, for every level, the last node of the first part. *)
Lemma keyed_search_loop c :
  forall (A B : list ptr) prev prevs,
  (c <= Z.to_nat (maxLevel z))%nat ->
  ps = A ++ B ->
  (forall j, (j < c)%nat -> last_ref Header (level_list z j A) = prev) ->
  (forall j, (c <= j < Z.to_nat (maxLevel z))%nat -> stops s k (level_list z j B)) ->
  (forall j, (c <= j < Z.to_nat (maxLevel z))%nat ->
     prevs !! j = Some (Some (last_ref Header (level_list z j A)))) ->
  length prevs = Z.to_nat (maxLevel z) ->
  exists A' B' prevs',
    Keyed.getPrevElementNodes_loop s k (levels_down c) prev prevs = Ok prevs' /\
    ps = A' ++ B' /\
    (forall j, (j < Z.to_nat (maxLevel z))%nat ->
       prevs' !! j = Some (Some (last_ref Header (level_list z j A')))) /\
    length prevs' = Z.to_nat (maxLevel z).
Proof.
  induction c as [|c IH]; intros A B prev prevs Hc Hps HD HB HC Hlen.
  - exists A, B, prevs. split; [done|]. split; [done|]. split; [|done].
    intros j Hj. apply HC. lia.
  - unfold levels_down. rewrite levels_down_S. simpl.
    destruct (keyed_search_level c A B prev ltac:(lia) Hps)
      as (A1 & B1 & prev1 & Hread & Hadv & Hps1 & HD1 & HB1 & HA1).
    { intros j Hj. apply HD. lia. } { intros j Hj. apply HB. lia. }
    rewrite Hread. simpl. rewrite Hadv. simpl.
    rewrite store_Ok by lia. simpl. fold (levels_down c).
    apply (IH A1 B1 prev1); [lia|done| |done| |by rewrite length_insert].
    + intros j Hj. apply HD1. lia.
    + intros j Hj. destruct (decide (j = c)) as [->|Hne].
      * rewrite list_lookup_insert_eq by lia. by rewrite (HD1 c ltac:(lia)).
      * rewrite list_lookup_insert_ne by done. rewrite (HA1 j ltac:(lia)).
        apply HC. lia.
Qed.

(** The search of [Get]. *)
Lemma keyed_Get_loop c :
  forall (A B : list ptr) prev nxt,
  (c <= Z.to_nat (maxLevel z))%nat ->
  ps = A ++ B ->
  (forall j, (j < c)%nat -> last_ref Header (level_list z j A) = prev) ->
  (forall j, (c <= j < Z.to_nat (maxLevel z))%nat -> stops s k (level_list z j B)) ->
  ((c < Z.to_nat (maxLevel z))%nat -> nxt = head (level_list z c B)) ->
  exists A' B' prev',
    Keyed.Get_loop s k (levels_down c) prev nxt = Ok (prev', head (level_list z 0 B')) /\
    ps = A' ++ B'.
Proof.
  pose proof (inv_maxLevel _ _ HInv) as HM.
  induction c as [|c IH]; intros A B prev nxt Hc Hps HD HB Hnxt.
  - exists A, B, prev. split; [|done]. simpl. by rewrite Hnxt by lia.
  - unfold levels_down. rewrite levels_down_S. simpl.
    destruct (keyed_search_level c A B prev ltac:(lia) Hps)
      as (A1 & B1 & prev1 & Hread & Hadv & Hps1 & HD1 & HB1 & HA1).
    { intros j Hj. apply HD. lia. } { intros j Hj. apply HB. lia. }
    rewrite Hread. simpl. rewrite Hadv. simpl. fold (levels_down c).
    apply (IH A1 B1 prev1); [lia|done| |done|done].
    intros j Hj. apply HD1. lia.
Qed.

End Keyed_search_lemmas.

Section Unfold_lemmas.

Context {V : Type}.
Implicit Types (z : Memory V).

(** [Set] of an absent key is the insertion. *)
Lemma Set_absent_unfold z (ps : list ptr) (kz : Z) (v : V) (rnd : Z) prevs zc :
  Inv z ps -> find_key z kz ps = None ->
  getPrevElementNodes z kz = Ok (prevs, zc) ->
  Set_ z kz v rnd = Set_insert zc prevs kz v rnd.
Proof.
  intros HInv Hf Hget. pose proof (inv_maxLevel _ _ HInv) as HM.
  destruct (getPrevElementNodes_spec z ps kz HInv) as (prevs' & Hget' & Hlen & Hprevs).
  rewrite Hget in Hget'. injection Hget' as -> ->.
  unfold Set_. rewrite Hget. simpl.
  rewrite (proj2 (index_Ok _ _ _) (Hprevs 0%nat ltac:(lia))). simpl.
  rewrite read_next_slot.
  change (slot (set_list z (with_cache z prevs')) (pred_at z kz ps 0) 0)
    with (slot z (pred_at z kz ps 0) 0).
  rewrite (candidate_slot z ps kz HInv). simpl.
  pose proof (find_key_None_head z ps kz HInv Hf) as Hhead.
  destruct (head (above z kz ps)) as [q|]; [|done].
  destruct Hhead as (e & He & Hlt). unfold deref. simpl. rewrite He. simpl.
  by rewrite decide_False by lia.
Qed.

(** [Remove] of a present key is the unlinking of its element. *)
Lemma Remove_found_unfold z (ps : list ptr) (kz : Z) (p : ptr) prevs zc :
  Inv z ps -> find_key z kz ps = Some p ->
  getPrevElementNodes z kz = Ok (prevs, zc) ->
  exists e : Element V, heap z !! p = Some e /\
    Remove z kz =
      (z2 <- Remove_unlink zc prevs p (seq 0 (length (next e)));;
       Ok (Some p, set_list z2 (with_Length z2 (int_wrap (Length z2 - 1))))).
Proof.
  intros HInv Hf Hget. pose proof (inv_maxLevel _ _ HInv) as HM.
  destruct (getPrevElementNodes_spec z ps kz HInv) as (prevs' & Hget' & Hlen & Hprevs).
  rewrite Hget in Hget'. injection Hget' as -> ->.
  destruct (find_key_Some z ps kz HInv p Hf) as [Hp Hk].
  destruct (Inv_lookup z ps HInv p Hp) as (e & He & Hke).
  exists e. split; [done|].
  unfold Remove. rewrite Hget. simpl.
  rewrite (proj2 (index_Ok _ _ _) (Hprevs 0%nat ltac:(lia))). simpl.
  rewrite read_next_slot.
  change (slot (set_list z (with_cache z prevs')) (pred_at z kz ps 0) 0)
    with (slot z (pred_at z kz ps 0) 0).
  rewrite (candidate_slot z ps kz HInv), (find_key_head z ps kz p Hf). simpl.
  unfold deref. simpl. rewrite He. simpl.
  by rewrite decide_True by lia.
Qed.

End Unfold_lemmas.

Section Keyed_total_lemmas.

Context {T V : Type} `{!Keyed.Sortable T}.
Variable Pow : float -> Z -> float.
Implicit Types (s : Keyed.Memory T V) (z : Memory V) (k : T).

Local Arguments Keyed.advance : simpl never.
Local Arguments Keyed.walk_fuel : simpl never.
Local Arguments Keyed.write_next : simpl never.
Local Arguments Keyed.read_next : simpl never.

Lemma keyed_inv_level_count s z (ps : list ptr) :
  same_pointers s z -> Inv z ps -> Keyed.level_count s = Z.to_nat (maxLevel z).
Proof.
  intros [Hsl _] HInv. pose proof (inv_maxLevel _ _ HInv) as HM.
  unfold Keyed.level_count. rewrite Hsl, int_wrap_small by lia. f_equal. lia.
Qed.

(** The search, and what the candidate is: the first element of the second
    part. *)
Lemma keyed_getPrev_spec s z (ps : list ptr) k :
  same_pointers s z -> Inv z ps ->
  exists (A B : list ptr) prevs,
    ps = A ++ B /\
    Keyed.getPrevElementNodes s k = Ok (prevs, Keyed.set_list s (with_cache s prevs)) /\
    length prevs = Z.to_nat (maxLevel z) /\
    (forall kz, 2 * Z.of_nat (length A) - 1 <= kz <= 2 * Z.of_nat (length A) ->
       getPrevElementNodes (rekey (rank ps) z) kz =
         Ok (prevs, set_list (rekey (rank ps) z) (with_cache (rekey (rank ps) z) prevs))) /\
    exists r0, index prevs 0 = Ok (Some r0) /\
      Keyed.read_next (Keyed.set_list s (with_cache s prevs)) r0 0 = Ok (head B).
Proof.
  intros Hsp HInv. pose proof (inv_maxLevel _ _ HInv) as HM.
  destruct (keyed_search_loop s z ps k Hsp HInv (Z.to_nat (maxLevel z)) [] ps Header
              (prevNodesCache s)) as (A & B & prevs & Hloop & Hps & Hprevs & Hlen);
    [lia|done|done|intros; lia|intros; lia| |].
  { rewrite (proj1 Hsp). apply HInv. }
  exists A, B, prevs. split; [done|]. split.
  { unfold Keyed.getPrevElementNodes.
    by rewrite (keyed_inv_level_count s z ps Hsp HInv), Hloop. }
  split; [done|]. subst ps.
  set (z' := rekey (rank (A ++ B)) z).
  pose proof (rekey_Inv z (A ++ B) HInv) as HInv'. fold z' in HInv'.
  assert (Hpred : forall kz, 2 * Z.of_nat (length A) - 1 <= kz <= 2 * Z.of_nat (length A) ->
            forall j, pred_at z' kz (A ++ B) j = last_ref Header (level_list z j A)).
  { intros kz Hkz j. unfold pred_at.
    destruct (rekey_split z A B kz HInv Hkz) as (Hb & _ & _). fold z' in Hb.
    rewrite Hb. f_equal.
    apply level_list_ext. intros p _. apply rekey_heightOf. }
  split.
  - intros kz Hkz.
    destruct (getPrevElementNodes_spec z' (A ++ B) kz HInv') as (pz & Hgetz & Hlenz & Hpz).
    assert (pz = prevs) as ->; [|done].
    apply list_eq. intros j. destruct (decide (j < Z.to_nat (maxLevel z))%nat) as [Hj|Hj].
    + by rewrite (Hpz j Hj), (Hprevs j Hj), (Hpred kz Hkz).
    + rewrite !lookup_ge_None_2; [done|lia|]. rewrite Hlenz. simpl. lia.
  - exists (last_ref Header (level_list z 0 A)).
    split; [apply index_Ok, Hprevs; lia|].
    rewrite (same_pointers_slot _ (set_list z' (with_cache z' prevs))).
    2:{ apply same_pointers_sl_cache. by apply same_pointers_rekey. }
    change (slot (set_list z' (with_cache z' prevs)) ?r 0) with (slot z' r 0).
    rewrite <- (Hpred (2 * Z.of_nat (length A)) ltac:(lia) 0%nat).
    rewrite (candidate_slot z' (A ++ B) _ HInv').
    destruct (rekey_split z A B (2 * Z.of_nat (length A)) HInv ltac:(lia)) as (_ & Ha & _).
    fold z' in Ha. by rewrite Ha.
Qed.

Lemma keyed_inv_cache s (ps : list ptr) (c : list (option nodeRef)) z :
  same_pointers s z -> Inv z ps -> length c = Z.to_nat (maxLevel z) ->
  keyed_inv (Keyed.set_list s (with_cache s c)) ps.
Proof.
  intros Hsp HInv Hc. exists (set_list z (with_cache z c)).
  split; [by apply same_pointers_sl_cache|by apply Inv_with_cache].
Qed.

(** [Get] returns, whatever the keys are. *)
Lemma keyed_Get_total s (ps : list ptr) k :
  keyed_inv s ps -> exists found, Keyed.Get s k = Ok found.
Proof.
  intros (z & Hsp & HInv). pose proof (inv_maxLevel _ _ HInv) as HM.
  destruct (keyed_Get_loop s z ps k Hsp HInv (Z.to_nat (maxLevel z)) [] ps Header None)
    as (A & B & prev & Hloop & Hps); [lia|done|done|intros; lia|intros; lia|].
  unfold Keyed.Get. rewrite (keyed_inv_level_count s z ps Hsp HInv), Hloop. simpl.
  destruct (head (level_list z 0 B)) as [q|] eqn:Hq; [|by eexists].
  assert (q ∈ ps) as Hin.
  { rewrite Hps. apply elem_of_app. right.
    apply head_Some_elem_of in Hq. by apply list_elem_of_filter in Hq as [_ ?]. }
  destruct (Inv_lookup z ps HInv q Hin) as (e' & He' & _).
  destruct (keyed_element s z Hsp q) as (e & _ & He & _); [by eexists|].
  unfold Keyed.deref. rewrite He. simpl.
  destruct (Keyed.key_eq (Keyed.key e) k); by eexists.
Qed.

(** [Set] returns and keeps the structure, whatever the keys are. *)
Lemma keyed_Set_inv s (ps : list ptr) k (v : V) (rnd : Z) :
  keyed_inv s ps ->
  exists p s' ps', Keyed.Set_ s k v rnd = Ok (p, s') /\ keyed_inv s' ps'.
Proof.
  intros (z & Hsp & HInv). pose proof (inv_maxLevel _ _ HInv) as HM.
  destruct (keyed_getPrev_spec s z ps k Hsp HInv)
    as (A & B & prevs & -> & Hget & Hlen & Hgetz & r0 & Hidx & Hread).
  set (sc := Keyed.set_list s (with_cache s prevs)) in *.
  set (z' := rekey (rank (A ++ B)) z) in *.
  pose proof (rekey_Inv z (A ++ B) HInv) as HInv'. fold z' in HInv'.
  pose proof (same_pointers_rekey (rank (A ++ B)) s z Hsp) as Hsp'. fold z' in Hsp'.
  set (kz := 2 * Z.of_nat (length A) - 1).
  destruct (rekey_split z A B kz HInv ltac:(lia)) as (Hbelow & Habove & Hhead).
  fold z' in Hbelow, Habove, Hhead.
  assert (Hinsert : exists p s' ps',
            Keyed.Set_insert sc prevs k v rnd = Ok (p, s') /\ keyed_inv s' ps').
  { assert (find_key z' kz (A ++ B) = None) as Hf.
    { unfold find_key. rewrite Habove. destruct (head B) as [q|]; [|done].
      rewrite Hhead. by rewrite decide_False by lia. }
    destruct (Set_insert_level_spec z' (A ++ B) kz HInv' v rnd Hf)
      as (h & z1 & Hh & _ & Hset & Hins).
    rewrite (Set_absent_unfold z' (A ++ B) kz v rnd _ _ HInv' Hf (Hgetz kz ltac:(lia)))
      in Hset.
    destruct (same_pointers_Set_insert sc _ prevs k kz v rnd _ z1
                (same_pointers_sl_cache s z' prevs Hsp') Hset) as (s1 & Hset1 & Hsp1).
    eexists _, s1, _. split; [exact Hset1|]. exists z1. split; [done|].
    pose proof (inserted_Inv z' (A ++ B) kz HInv' z1 v h Hf Hh Hins) as HInv1.
    rewrite Hbelow, Habove in HInv1. exact HInv1. }
  unfold Keyed.Set_. rewrite Hget. simpl. rewrite Hidx. simpl.
  fold sc. rewrite Hread. simpl.
  destruct B as [|q B]; [exact Hinsert|]. simpl.
  assert (q ∈ A ++ q :: B) as Hin by set_solver.
  destruct (Inv_lookup z _ HInv q Hin) as (e' & He' & _).
  destruct (keyed_element s z Hsp q) as (e & _ & He & _); [by eexists|].
  unfold Keyed.deref at 1. simpl. rewrite He. simpl.
  destruct (Keyed.key_le (Keyed.key e) k); [|exact Hinsert].
  assert (forall s0 : Keyed.Memory T V,
            Keyed.sl s0 = Keyed.sl sc -> Keyed.heap s0 = Keyed.heap s ->
            exists p s' ps', (s1 <- Keyed.write_value s0 q v;; Ok (q, s1)) = Ok (p, s') /\
                             keyed_inv s' ps') as Hupd.
  { intros s0 Hsl0 Hh0. unfold Keyed.write_value, Keyed.deref. rewrite Hh0, He. simpl.
    eexists _, _, (A ++ q :: B). split; [done|].
    exists (set_list z (with_cache z prevs)). split; [|by apply Inv_with_cache].
    split; [simpl; rewrite Hsl0; simpl; by rewrite (proj1 Hsp)|].
    simpl. rewrite list_fmap_insert. simpl.
    rewrite list_insert_id; [apply Hsp|]. by rewrite list_lookup_fmap, He. }
  destruct (Keyed.key_lt (Keyed.key e) k); by apply Hupd.
Qed.

(** [Remove] returns and keeps the structure, whatever the keys are. *)
Lemma keyed_Remove_inv s (ps : list ptr) k :
  keyed_inv s ps ->
  exists found s' ps', Keyed.Remove s k = Ok (found, s') /\ keyed_inv s' ps'.
Proof.
  intros (z & Hsp & HInv). pose proof (inv_maxLevel _ _ HInv) as HM.
  destruct (keyed_getPrev_spec s z ps k Hsp HInv)
    as (A & B & prevs & -> & Hget & Hlen & Hgetz & r0 & Hidx & Hread).
  set (sc := Keyed.set_list s (with_cache s prevs)) in *.
  set (z' := rekey (rank (A ++ B)) z) in *.
  pose proof (rekey_Inv z (A ++ B) HInv) as HInv'. fold z' in HInv'.
  pose proof (same_pointers_rekey (rank (A ++ B)) s z Hsp) as Hsp'. fold z' in Hsp'.
  set (kz := 2 * Z.of_nat (length A)).
  destruct (rekey_split z A B kz HInv ltac:(lia)) as (Hbelow & Habove & Hhead).
  fold z' in Hbelow, Habove, Hhead.
  assert (Hnone : keyed_inv sc (A ++ B)) by by eapply keyed_inv_cache.
  unfold Keyed.Remove. rewrite Hget. simpl. rewrite Hidx. simpl.
  fold sc. rewrite Hread. simpl.
  destruct B as [|q B]; [by eexists _, _, _|]. simpl in *.
  assert (q ∈ A ++ q :: B) as Hin by set_solver.
  assert (find_key z' kz (A ++ q :: B) = Some q) as Hf.
  { unfold find_key. rewrite Habove. simpl. by rewrite decide_True. }
  destruct (Remove_found_unfold z' _ kz q _ _ HInv' Hf (Hgetz kz ltac:(lia)))
    as (e' & He' & Hunfold).
  destruct (keyed_element s z' Hsp' q) as (e & e0 & He & He0 & Hnx); [by eexists|].
  rewrite He' in He0. injection He0 as <-.
  unfold Keyed.deref at 1. simpl. rewrite He. simpl.
  destruct (Keyed.key_le (Keyed.key e) k); [|by eexists _, _, _].
  destruct (Remove_found_spec z' _ kz HInv' q Hf) as (z1 & pz & Hrem & Hremoved & _).
  rewrite Hunfold in Hrem. apply bind_Ok in Hrem as (z2 & Hun & [= <-]).
  destruct (same_pointers_Remove_unlink prevs q _ sc _ z2
              (same_pointers_sl_cache s z' prevs Hsp') Hun) as (s2 & Hun2 & Hsp2).
  rewrite Hnx, Hun2. simpl. eexists _, _, _. split; [done|].
  eexists. split; [|by apply (removed_Inv z' _ kz HInv' _ q Hf Hremoved)].
  split; [simpl; by rewrite (proj1 Hsp2)|apply Hsp2].
Qed.

Lemma keyed_step_inv s (ps : list ptr) (o : Keyed.op T V) :
  keyed_inv s ps -> exists s' ps', Keyed.step Pow s o = Ok s' /\ keyed_inv s' ps'.
Proof.
  intros Hinv. destruct o as [k v rnd|k|k|pr]; simpl.
  - destruct (keyed_Set_inv s ps k v rnd Hinv) as (p & s' & ps' & -> & Hinv'). by eexists _, _.
  - destruct (keyed_Remove_inv s ps k Hinv) as (r & s' & ps' & -> & Hinv'). by eexists _, _.
  - destruct (keyed_Get_total s ps k Hinv) as (r & ->). by eexists _, _.
  - exists (Keyed.SetProbability Pow s pr), ps. split; [done|].
    destruct Hinv as (z & Hsp & HInv). exists (SetProbability Pow z pr).
    split; [|by apply Inv_SetProbability].
    split; [simpl; by rewrite (proj1 Hsp)|apply Hsp].
Qed.

Lemma keyed_run_inv (ops : list (Keyed.op T V)) :
  forall s (ps : list ptr),
  keyed_inv s ps -> exists s' ps', Keyed.run Pow s ops = Ok s' /\ keyed_inv s' ps'.
Proof.
  induction ops as [|o ops IH]; intros s ps Hinv; simpl.
  - by exists s, ps.
  - destruct (keyed_step_inv s ps o Hinv) as (s1 & ps1 & -> & Hinv1). simpl.
    by apply (IH s1 ps1).
Qed.

Lemma keyed_new_inv (n : Z) :
  1 <= n <= 64 ->
  exists s, Keyed.NewWithMaxLevel (T:=T) (V:=V) Pow n = Ok s /\ keyed_inv s [].
Proof.
  intros Hn. destruct (NewWithMaxLevel_Inv (V:=V) Pow n Hn) as (z & Hnew & HInv & _).
  rewrite (NewWithMaxLevel_Ok Pow n Hn) in Hnew. injection Hnew as <-.
  unfold Keyed.NewWithMaxLevel. rewrite decide_False by lia.
  unfold make. rewrite !decide_True by lia. simpl.
  eexists. split; [done|]. eexists. split; [|exact HInv]. by split.
Qed.

Lemma keyed_reachable_inv s :
  Keyed.reachable Pow s -> exists ps, keyed_inv s ps.
Proof.
  intros (n & ops & Hrun). unfold Keyed.run_new in Hrun.
  apply bind_Ok in Hrun as (s0 & Hnew & Hrun).
  assert (1 <= n <= 64) as Hn.
  { unfold Keyed.NewWithMaxLevel in Hnew. case_decide; [done|lia]. }
  destruct (keyed_new_inv n Hn) as (s0' & Hnew' & Hinv0).
  rewrite Hnew in Hnew'. injection Hnew' as <-.
  destruct (keyed_run_inv ops s0 [] Hinv0) as (s' & ps & Hrun' & Hinv).
  rewrite Hrun in Hrun'. injection Hrun' as <-. by exists ps.
Qed.

End Keyed_total_lemmas.

Section Keyed_walk_lemmas.

Context {T V : Type} `{!Keyed.Sortable T}.
Implicit Types (s : Keyed.Memory T V) (z : Memory V).

(** The walk meets the same addresses in both models. *)
Lemma keyed_follow s z :
  same_pointers s z ->
  forall (fuel : nat) (cur : option ptr) (esz : list (ptr * Element V)),
  follow fuel z Next cur = Ok esz ->
  exists es : list (ptr * Keyed.Element T V),
    Keyed.follow fuel s cur = Ok es /\ es.*1 = esz.*1 /\
    Forall (fun pe => Keyed.heap s !! pe.1 = Some pe.2) es.
Proof.
  intros Hsp. induction fuel as [|fuel IH]; intros cur esz Hf; [done|].
  simpl in *. destruct cur as [p|].
  - apply bind_Ok in Hf as (e' & He'%deref_Ok & Hf).
    apply bind_Ok in Hf as (nxt & Hnxt & Hf).
    apply bind_Ok in Hf as (rest & Hrest & [= <-]).
    destruct (keyed_element s z Hsp p) as (e & e0 & He & He0 & Hnx); [by eexists|].
    rewrite He' in He0. injection He0 as <-.
    unfold Keyed.deref. rewrite He. simpl.
    unfold Keyed.Next. unfold Next in Hnxt. rewrite Hnx, Hnxt. simpl.
    destruct (IH nxt rest Hrest) as (es & -> & Hfst & Hst). simpl.
    exists ((p, e) :: es). split; [done|]. split; [simpl; by f_equal|by constructor].
  - injection Hf as <-. by exists [].
Qed.

End Keyed_walk_lemmas.

(** * The claims *)

Section Claims.

Context {V : Type}.
Variable Pow : float -> Z -> float.
Implicit Types (s : Memory V) (r : nodeRef) (p q : ptr) (i j : nat).





(** C5.  On every reachable state, [Remove(k)] of an absent key returns nil
    and changes nothing but the traversal cache: the elements, the forward
    pointers of every node at every level, and [Len()] stay as they were. *)
Theorem Remove_absent_no_change s (k : Z) :
  reachable Pow s ->
  absent s k ->
  exists s',
    Remove s k = Ok (None, s') /\
    s' = set_list s (with_cache s (prevNodesCache s')) /\
    heap s' = heap s /\
    next s' = next s /\
    (forall r i, slot s' r i = slot s r i) /\
    Len s' = Len s /\
    in_order s' = in_order s.
Proof.
  intros (ps & m & HInv & _)%reachable_Inv Habs%(absent_iff s ps k HInv).
  destruct (Remove_absent_spec s ps k HInv Habs) as (c & Hc & Hrem).
  exists (set_list s (with_cache s c)). rewrite Hrem.
  split; [done|]. split; [done|]. split; [done|]. split; [done|].
  split; [done|]. split; [done|]. by apply in_order_ext.
Qed.


(** C7.  For every [maxLevel] in [1, 64], every draw and every probability
    table with [maxLevel] entries, [randLevel] returns a height in
    [1, maxLevel]; and every element ever allocated by a sequence of
    operations has between 1 and [maxLevel] forward pointers. *)
Theorem randLevel_in_range :
  (forall s (table : list float) (rnd : Z),
     1 <= maxLevel s <= 64 ->
     length table = Z.to_nat (maxLevel s) ->
     exists h,
       randLevel (set_list s (with_probability s (probability s) table)) rnd = Ok h /\
       1 <= h <= maxLevel s) /\
  (forall s, reachable Pow s ->
     Forall (fun e : Element V => 1 <= Z.of_nat (length (next e)) <= maxLevel s) (heap s)).
Proof.
  split.
  - intros s table rnd HM Htab.
    apply (randLevel_spec (set_list s (with_probability s (probability s) table))); done.
  - intros s (ps & m & HInv & _)%reachable_Inv.
    apply Forall_forall. intros e He. apply list_elem_of_lookup in He as [p Hp].
    pose proof (inv_heights _ _ HInv p (lookup_lt_Some _ _ _ Hp)) as Hh.
    unfold heightOf in Hh. rewrite Hp in Hh. lia.
Qed.

(** C8.  [NewWithMaxLevel] panics for every [maxLevel] outside [1, 64] and
    otherwise returns an empty list with that [maxLevel], the default
    probability, a probability table and a header of [maxLevel] entries;
    [New] is [NewWithMaxLevel] at 18. *)
Theorem NewWithMaxLevel_range (n : Z) :
  NewWithMaxLevel (V:=V) Pow n =
    (if decide (1 <= n <= 64) then
       Ok {| sl := {| sl_node := mkNode (replicate (Z.to_nat n) None);
                      maxLevel := n;
                      Length := 0;
                      probability := DefaultProbability;
                      probTable := (fun z : Z => Pow DefaultProbability (z - 1)) <$> seqZ 1 n;
                      prevNodesCache := replicate (Z.to_nat n) None |};
             heap := [];
             stdout := [] |}
     else Panic) /\
  length ((fun z : Z => Pow DefaultProbability (z - 1)) <$> seqZ 1 n) = Z.to_nat n /\
  length (replicate (Z.to_nat n) (@None ptr)) = Z.to_nat n /\
  New (V:=V) Pow = NewWithMaxLevel Pow 18.
Proof.
  split; [|split; [|split]].
  - case_decide as Hn.
    + by rewrite NewWithMaxLevel_Ok.
    + unfold NewWithMaxLevel. rewrite decide_True; [done|lia].
  - by rewrite length_fmap, length_seqZ.
  - by rewrite length_replicate.
  - done.
Qed.

(** C9.  On every reachable state no operation panics or runs forever.  The
    header and the two tables have [maxLevel] entries, every node linked at
    level [i] has more than [i] forward pointers, every element has a
    level-0 pointer for [Next()], and [Front], [Get], the predecessor
    search, [randLevel], [Set] and [Remove] all return. *)
Theorem operations_do_not_panic s :
  reachable Pow s ->
  length (next s) = Z.to_nat (maxLevel s) /\
  length (probTable s) = Z.to_nat (maxLevel s) /\
  length (prevNodesCache s) = Z.to_nat (maxLevel s) /\
  (forall i, (i < Z.to_nat (maxLevel s))%nat ->
     exists es, level_nodes s i = Ok es /\
       Forall (fun pe : ptr * Element V => (i < length (next pe.2))%nat) es) /\
  Forall (fun e : Element V => exists nxt, Next e = Ok nxt) (heap s) /\
  (exists f, Front s = Ok f) /\
  forall (k : Z) (v : V) (rnd : Z),
    (exists found, Get s k = Ok found) /\
    (exists prevs, getPrevElementNodes s k = Ok prevs) /\
    (exists h, randLevel s rnd = Ok h /\ 1 <= h <= maxLevel s) /\
    (exists set, Set_ s k v rnd = Ok set) /\
    (exists removed, Remove s k = Ok removed).
Proof.
  intros (ps & m & HInv & _)%reachable_Inv.
  pose proof (inv_maxLevel _ _ HInv) as HM.
  split; [apply HInv|]. split; [apply HInv|]. split; [apply HInv|].
  split; [|split; [|split]].
  - intros i Hi. destruct (level_nodes_spec s ps i HInv Hi) as (es & Hes & Hfst & Hst).
    exists es. split; [done|]. apply Forall_forall. intros [p e] Hin. simpl.
    unfold stored in Hst. rewrite Forall_forall in Hst.
    pose proof (Hst _ Hin) as He. simpl in He.
    assert (p ∈ level_list s i ps) as Hp.
    { rewrite <- Hfst. apply list_elem_of_fmap. by exists (p, e). }
    apply list_elem_of_filter in Hp as [Hh _]. unfold heightOf in Hh. by rewrite He in Hh.
  - apply Forall_forall. intros e He. apply list_elem_of_lookup in He as [p Hp].
    pose proof (inv_heights _ _ HInv p (lookup_lt_Some _ _ _ Hp)) as Hh.
    unfold heightOf in Hh. rewrite Hp in Hh.
    unfold Next. destruct (index_lt (next e) 0) as (x & Hx & _); [lia|]. eauto.
  - unfold Front. destruct (index_lt (next s) 0) as (x & Hx & _); [|eauto].
    rewrite (inv_header _ _ HInv). lia.
  - intros k v rnd. split; [|split; [|split; [|split]]].
    + rewrite (Get_spec s ps k HInv). eauto.
    + destruct (getPrevElementNodes_spec s ps k HInv) as (prevs & -> & _). eauto.
    + apply randLevel_spec; [done|apply HInv].
    + destruct (Set_spec s ps k v rnd HInv) as (p & s' & ps' & -> & _). eauto.
    + destruct (find_key s k ps) as [p|] eqn:Hf.
      * destruct (Remove_found_spec s ps k HInv p Hf) as (s' & c & -> & _). eauto.
      * destruct (Remove_absent_spec s ps k HInv Hf) as (c & _ & ->). eauto.
Qed.

(** C10.  A successful [Remove(k)] leaves the removed element as it was:
    its key is [k], its value and forward pointers are untouched, and its
    [Next()] is still the entry that followed it.  No key, value or height
    changes; a forward pointer changes only in a predecessor found by the
    search, at a level of the removed element; the count goes down by one;
    the cache is left as the search wrote it. *)
Theorem Remove_keeps_removed_entry s (k : Z) p s' :
  reachable Pow s ->
  Remove s k = Ok (Some p, s') ->
  exists e es prevs s1,
    in_order s = Ok es /\
    heap s !! p = Some e /\ heap s' !! p = Some e /\ Key e = k /\
    (exists xs ys, es.*1 = xs ++ p :: ys /\ Next e = Ok (head ys)) /\
    getPrevElementNodes s k = Ok (prevs, s1) /\
    length (heap s') = length (heap s) /\
    (forall q, keyOf s' q = keyOf s q /\ valueOf s' q = valueOf s q /\
               heightOf s' q = heightOf s q) /\
    (forall r i, slot s' r i <> slot s r i ->
       prevs !! i = Some (Some r) /\ (i < length (next e))%nat) /\
    maxLevel s' = maxLevel s /\ probability s' = probability s /\
    probTable s' = probTable s /\ stdout s' = stdout s /\
    prevNodesCache s' = prevNodesCache s1 /\
    Len s' = int_wrap (Len s - 1).
Proof.
  intros (ps & m & HInv & _)%reachable_Inv Hrem.
  pose proof (inv_maxLevel _ _ HInv) as HM.
  destruct (find_key s k ps) as [p0|] eqn:Hf.
  2: { destruct (Remove_absent_spec s ps k HInv Hf) as (c & _ & Hrem').
       rewrite Hrem in Hrem'. discriminate. }
  destruct (Remove_found_spec s ps k HInv p0 Hf)
    as (s0 & prevs & Hrem' & Hremoved & Hget & Hcache & Hprevs).
  rewrite Hrem in Hrem'. injection Hrem' as -> ->.
  destruct (find_key_Some s ps k HInv p0 Hf) as [Hp Hkp].
  destruct (Inv_lookup s ps HInv p0 Hp) as (e & He & Hke).
  destruct (in_order_spec s ps HInv) as (es & Hes & Hfst & Hst).
  destruct (found_split s ps k HInv p0 Hf) as (B & HB & Hps & Hnotin).
  assert (Hhe : heightOf s p0 = length (next e)).
  { unfold heightOf. by rewrite He. }
  assert (Hne : forall i, pred_at s k ps i <> Node p0).
  { intros i E. destruct (pred_at_elem s ps k i) as [E'|(q & E' & _ & Hlt & _)];
      [congruence|]. rewrite E in E'. injection E' as <-. lia. }
  exists e, es, prevs, (set_list s (with_cache s prevs)).
  split; [done|]. split; [done|]. split.
  { apply (element_ext s); [done|apply Hremoved|apply Hremoved|apply Hremoved|].
    intros i. rewrite (rem_slot _ _ _ _ _ Hremoved). unfold unlink_slot.
    rewrite decide_False; [done|]. intros [_ E]. by apply (Hne i). }
  split; [unfold Key; congruence|]. split.
  { exists (below s k ps), B. split; [congruence|].
    pose proof (pred_chain s ps k HInv 0%nat ltac:(lia)) as Hc.
    rewrite (level_list_0 s ps HInv _ (above_sub s ps k)), HB in Hc.
    destruct Hc as [_ Hc]. apply chain_slot in Hc. simpl in Hc. rewrite He in Hc.
    unfold Next. by apply index_Ok. }
  split; [done|]. split; [apply Hremoved|]. split.
  { intros q. split; [apply Hremoved|]. split; apply Hremoved. }
  split.
  { intros r i Hdiff. rewrite (rem_slot _ _ _ _ _ Hremoved) in Hdiff.
    unfold unlink_slot in Hdiff. case_decide as Hd; [|done].
    destruct Hd as [Hi ->]. rewrite <- Hhe. split; [|done].
    apply Hprevs. pose proof (inv_valid _ _ HInv) as Hv. rewrite Forall_forall in Hv.
    pose proof (inv_heights _ _ HInv p0 (Hv p0 Hp)). lia. }
  split; [apply Hremoved|]. split; [apply Hremoved|]. split; [apply Hremoved|].
  split; [apply Hremoved|]. split; [done|]. apply Hremoved.
Qed.

(** X1.  The debug print of [Set] never runs: on every reachable state
    nothing has been written to standard output. *)
Theorem Set_never_prints s : reachable Pow s -> stdout s = [].
Proof. intros (ps & m & HInv & _)%reachable_Inv. apply HInv. Qed.


End Claims.

(** * Further properties of the operations *)

Section Further.


Context {V : Type}.
Variable Pow : float -> Z -> float.
Implicit Types (s : Memory V) (p q : ptr).

(** X3.  A freshly constructed list is empty: [Len()] is 0, [Front()] is
    nil, the walk meets nothing, and for every key [Get] and [Remove]
    return nil, [Remove] leaving the list empty. *)
Theorem fresh_list_is_empty (n k : Z) :
  1 <= n <= 64 ->
  exists s s',
    NewWithMaxLevel (V:=V) Pow n = Ok s /\
    Len s = 0 /\ Front s = Ok None /\ in_order s = Ok [] /\
    Get s k = Ok None /\
    Remove s k = Ok (None, s') /\
    Len s' = 0 /\ Front s' = Ok None /\ heap s' = [].
Proof.
  intros Hn.
  destruct (NewWithMaxLevel_Inv (V:=V) Pow n Hn) as (s & Hnew & HInv & _ & Hheap & HM).
  assert (Hf : find_key s k [] = None) by done.
  destruct (Remove_absent_spec s [] k HInv Hf) as (c & Hc & Hrem).
  destruct (in_order_spec s [] HInv) as (es & Hes & Hfst & _).
  apply fmap_nil_inv in Hfst as ->.
  assert (HFront : Front s = Ok None).
  { pose proof (inv_chain _ _ HInv 0%nat ltac:(lia)) as Hch. simpl in Hch.
    unfold Front. by apply index_Ok. }
  assert (HLen : Len s = 0).
  { unfold Len. by rewrite (inv_Length _ _ HInv). }
  exists s, (set_list s (with_cache s c)).
  split; [done|]. split; [done|]. split; [done|].
  split; [done|]. split; [by rewrite (Get_spec s [] k HInv)|]. split; [done|].
  split; [done|]. split; done.
Qed.



(** X6.  On every reachable state [Remove(k)] returns exactly the entry
    that [Get(k)] finds: the same element when the key is present, nil
    when it is absent. *)
Theorem Remove_returns_what_Get_finds s (k : Z) :
  reachable Pow s ->
  exists found s', Get s k = Ok found /\ Remove s k = Ok (found, s').
Proof.
  intros (ps & m & HInv & _)%reachable_Inv.
  rewrite (Get_spec s ps k HInv). destruct (find_key s k ps) as [p|] eqn:Hf.
  - destruct (Remove_found_spec s ps k HInv p Hf) as (s' & c & -> & _). eauto.
  - destruct (Remove_absent_spec s ps k HInv Hf) as (c & _ & ->). eauto.
Qed.


(** X8. Elements are never moved, re-keyed or resized: after any sequence of
    operations every element allocated before it is still at its address,
    with the key and the number of levels it was created with. *)
Theorem elements_keep_key_and_height s (ops : list (op V)) :
  reachable Pow s ->
  exists s', run Pow s ops = Ok s' /\
    forall p e, heap s !! p = Some e ->
      exists e', heap s' !! p = Some e' /\ Key e' = Key e /\
                 length (next e') = length (next e).
Proof.
  intros (ps & m & HInv & Hm)%reachable_Inv.
  destruct (run_total Pow s ps ops HInv) as (s' & Hrun). exists s'. split; [done|].
  destruct (run_effect Pow ops s ps s' HInv Hrun) as (ps' & HInv' & Hlen & Hkey).
  intros p e He. pose proof (lookup_lt_Some _ _ _ He) as Hp.
  destruct (lookup_lt_is_Some_2 (heap s') p ltac:(lia)) as [e' He'].
  exists e'. split; [done|]. destruct (Hkey p Hp) as [Hk Hh].
  unfold keyOf, heightOf in Hk, Hh. rewrite He, He' in Hk, Hh. done.
Qed.

(** X9. A removed element is dead for good: no later operation writes to it
    (it keeps its key, value and forward pointers as they were before the
    removal) and it never shows up in the walk again, not even when its key
    is set again. *)
Theorem removed_element_is_frozen s (k : Z) p s1 (ops : list (op V)) :
  reachable Pow s -> Remove s k = Ok (Some p, s1) ->
  exists s2 es,
    run Pow s1 ops = Ok s2 /\ heap s2 !! p = heap s !! p /\
    in_order s2 = Ok es /\ p ∉ es.*1.
Proof.
  intros (ps & m & HInv & Hm)%reachable_Inv Hrem.
  destruct (find_key s k ps) as [p'|] eqn:Hf.
  2:{ destruct (Remove_absent_spec s ps k HInv Hf) as (c & _ & Hrem').
      rewrite Hrem in Hrem'. done. }
  destruct (Remove_found_spec s ps k HInv p' Hf) as (s0 & c & Hrem' & Hremoved & _).
  rewrite Hrem in Hrem'. injection Hrem' as <- <-.
  pose proof (removed_Inv s ps k HInv s1 p Hf Hremoved) as HInv1.
  destruct (found_split s ps k HInv p Hf) as (B & HB & Hps & Hnotin).
  rewrite HB in HInv1. simpl in HInv1.
  destruct (find_key_Some s ps k HInv p Hf) as [Hp Hkp].
  pose proof (inv_valid _ _ HInv) as Hvalid. rewrite Forall_forall in Hvalid.
  pose proof (Hvalid p Hp) as Hlt.
  destruct (lookup_lt_is_Some_2 (heap s) p Hlt) as [e He].
  assert (heap s1 !! p = Some e) as He1.
  { apply (element_ext s s1 p e He); [apply Hremoved..|].
    intros i. rewrite (rem_slot _ _ _ _ _ Hremoved). unfold unlink_slot.
    rewrite decide_False; [done|]. intros [_ E]. symmetry in E.
    destruct (pred_at_elem s ps k i) as [E'|(q & E' & Hq & Hkq & _)]; [congruence|].
    rewrite E in E'. injection E' as <-. lia. }
  destruct (run_total Pow s1 _ ops HInv1) as (s2 & Hrun).
  destruct (dead_run Pow ops s1 _ s2 p HInv1 Hrun) as (ps2 & HInv2 & _ & Hnot2 & Heq).
  { rewrite (rem_heap_len _ _ _ _ _ Hremoved). done. } { done. }
  destruct (in_order_spec s2 ps2 HInv2) as (es & Hes & Hfst & _).
  exists s2, es. rewrite Heq, He1, He, Hfst. done.
Qed.

(** X10. Removing twice: the second [Remove] of a key finds nothing, returns
    nil and changes neither the walk nor the length. *)
Theorem Remove_twice s (k : Z) :
  reachable Pow s ->
  exists removed s1 s2,
    Remove s k = Ok (removed, s1) /\ Get s1 k = Ok None /\
    Remove s1 k = Ok (None, s2) /\
    in_order s2 = in_order s1 /\ Len s2 = Len s1 /\ heap s2 = heap s1.
Proof.
  intros (ps & m & HInv & Hm)%reachable_Inv.
  assert (exists removed s1 ps1, Remove s k = Ok (removed, s1) /\ Inv s1 ps1 /\
            find_key s1 k ps1 = None) as (r & s1 & ps1 & Hrem & HInv1 & Hf1).
  { destruct (find_key s k ps) as [p|] eqn:Hf.
    - destruct (Remove_found_spec s ps k HInv p Hf) as (s1 & c & Hrem & Hremoved & _).
      exists (Some p), s1, (below s k ps ++ tail (above s k ps)).
      split; [done|]. split; [by eapply removed_Inv|by eapply removed_find_key].
    - destruct (Remove_absent_spec s ps k HInv Hf) as (c & Hc & Hrem).
      exists None, (set_list s (with_cache s c)), ps. split; [done|].
      split; [by apply Inv_with_cache|].
      destruct (find_key _ k ps) as [q|] eqn:Hf'; [|done].
      apply (find_key_iff _ ps k q (Inv_with_cache s ps c HInv Hc)) in Hf' as [Hq Hkq].
      assert (find_key s k ps = Some q) as E by by apply (find_key_iff s ps k q HInv).
      congruence. }
  destruct (Remove_absent_spec s1 ps1 k HInv1 Hf1) as (c & Hc & Hrem1).
  exists r, s1, (set_list s1 (with_cache s1 c)).
  split; [done|]. split; [by rewrite (Get_spec s1 ps1 k HInv1), Hf1|].
  split; [done|]. split; [by apply in_order_ext|done].
Qed.




(** X14. Where [randLevel] stops: it returns the first level [h >= 1] that
    is [maxLevel] or whose table entry [probTable[h]] the draw does not stay
    below; the draw is below all the entries from [1] to [h - 1]. The entry
    [probTable[0]] is never read. *)
Theorem randLevel_first_failure s (rnd : Z) :
  1 <= maxLevel s <= 64 ->
  length (probTable s) = Z.to_nat (maxLevel s) ->
  exists h, randLevel s rnd = Ok h /\ 1 <= h <= maxLevel s /\
    (forall j, 1 <= j < h ->
       exists t, probTable s !! Z.to_nat j = Some t /\
                 PrimFloat.ltb (rand_float rnd) t = true) /\
    (h < maxLevel s ->
       exists t, probTable s !! Z.to_nat h = Some t /\
                 PrimFloat.ltb (rand_float rnd) t = false).
Proof.
  intros HM Htab. unfold randLevel.
  destruct (randLevel_loop_least s (rand_float rnd) (S (Z.to_nat (maxLevel s))) 1)
    as (h & Hh & Hle & Hb & Hbelow & Hstop); [lia|done|lia|lia|].
  exists h. split; [done|]. split; [lia|]. done.
Qed.

(** X15. The height of a new element: [Set] of a key that is not in the list
    creates an element with [h] levels, where [h] is the number of leading
    powers [probability^1, probability^2, ...] the draw stays below, plus
    one, capped at [maxLevel]; [probability] is the one given to the last
    [SetProbability], or the default. *)
Theorem Set_height_follows_probability s (k : Z) (v : V) (rnd : Z) :
  reachable Pow s -> absent s k ->
  exists (h : Z) p s' e,
    Set_ s k v rnd = Ok (p, s') /\ heap s' !! p = Some e /\
    Key e = k /\ Z.of_nat (length (next e)) = h /\ 1 <= h <= maxLevel s /\
    (forall j, 1 <= j < h ->
       PrimFloat.ltb (rand_float rnd) (Pow (probability s) j) = true) /\
    (h < maxLevel s ->
       PrimFloat.ltb (rand_float rnd) (Pow (probability s) h) = false).
Proof.
  intros Hreach Habs. pose proof (reachable_table Pow s Hreach) as Htab.
  apply reachable_Inv in Hreach as (ps & m & HInv & Hm).
  apply (absent_iff s ps k HInv) in Habs.
  pose proof (inv_maxLevel _ _ HInv) as HM.
  destruct (Set_insert_level_spec s ps k HInv v rnd Habs) as (h & s' & Hh & Hrand & Hset & Hins).
  destruct (randLevel_loop_least s (rand_float rnd) (S (Z.to_nat (maxLevel s))) 1)
    as (h' & Hh' & Hle & Hb & Hbelow & Hstop); [lia|apply HInv|lia|lia|].
  unfold randLevel in Hrand. rewrite Hh' in Hrand. injection Hrand as ->.
  assert (is_Some (heap s' !! length (heap s))) as [e He].
  { apply lookup_lt_is_Some_2. rewrite (ins_len _ _ _ _ _ _ Hins). lia. }
  exists (Z.of_nat h), (length (heap s)), s', e. split; [done|]. split; [done|].
  pose proof (ins_key _ _ _ _ _ _ Hins (length (heap s))) as Hk.
  pose proof (ins_height _ _ _ _ _ _ Hins (length (heap s))) as Hht.
  unfold keyOf, heightOf in Hk, Hht. rewrite He in Hk, Hht.
  rewrite decide_True in Hk by done. rewrite decide_True in Hht by done.
  split; [done|]. split; [by rewrite Hht|]. split; [lia|]. split.
  - intros j Hj. destruct (Hbelow j Hj) as (t & Ht & Hlt).
    rewrite Htab, probabilityTable_lookup in Ht by lia. by injection Ht as <-.
  - intros Hlt. destruct (Hstop Hlt) as (t & Ht & Hge).
    rewrite Htab, probabilityTable_lookup in Ht by lia. by injection Ht as <-.
Qed.

(** X16. [SetProbability] does not alter any existing data: the walk, what
    [Get] finds, the length and the elements are as before; only the
    probability and its table change, the table holding the powers
    [p^0, ..., p^(maxLevel-1)] of the new probability. *)
Theorem SetProbability_keeps_data s (pr : float) (k : Z) :
  reachable Pow s ->
  in_order (SetProbability Pow s pr) = in_order s /\
  Get (SetProbability Pow s pr) k = Get s k /\
  Len (SetProbability Pow s pr) = Len s /\
  heap (SetProbability Pow s pr) = heap s /\
  probability (SetProbability Pow s pr) = pr /\
  forall j, 0 <= j < maxLevel s ->
    indexZ (probTable (SetProbability Pow s pr)) j = Ok (Pow pr j).
Proof.
  intros (ps & m & HInv & Hm)%reachable_Inv.
  split; [by apply in_order_ext|]. split.
  { rewrite (Get_spec _ ps k (Inv_SetProbability Pow s ps pr HInv)).
    by rewrite (Get_spec s ps k HInv). }
  split; [done|]. split; [done|]. split; [done|].
  intros j Hj. unfold indexZ. rewrite decide_True by lia.
  apply index_Ok. simpl. by apply probabilityTable_lookup.
Qed.

(** X17. The levels are nested: the chain of level [i] holds exactly the
    elements of the walk that have more than [i] levels, in the order of the
    walk. *)
Theorem level_is_filtered_walk s (i : nat) :
  reachable Pow s -> Z.of_nat i < maxLevel s ->
  exists es, in_order s = Ok es /\
    level_nodes s i = Ok (filter (fun pe : ptr * Element V => (i < length (next pe.2))%nat) es).
Proof.
  intros (ps & m & HInv & Hm)%reachable_Inv Hi.
  destruct (in_order_spec s ps HInv) as (es & Hes & Hfst & Hst).
  destruct (level_nodes_spec s ps i HInv) as (esi & Hesi & Hfsti & Hsti); [lia|].
  exists es. split; [done|]. rewrite Hesi. f_equal.
  destruct (stored_level s i es Hst) as [Hst' Hfst'].
  apply (stored_inj s); [done..|]. by rewrite Hfsti, Hfst', Hfst.
Qed.

(** X18. A list that was not made by [NewWithMaxLevel] (the zero value: no
    levels, no cache): [Get] finds nothing, [Front], [Set] and [Remove]
    panic on their first index. *)
Theorem zero_value_list s (k : Z) (v : V) (rnd : Z) :
  maxLevel s = 0 -> next s = [] -> prevNodesCache s = [] ->
  Get s k = Ok None /\ Front s = Panic /\
  Set_ s k v rnd = Panic /\ Remove s k = Panic.
Proof.
  intros HM Hn Hc.
  assert (level_count s = 0%nat) as Hl by (unfold level_count; by rewrite HM).
  unfold Get, Front, Set_, Remove, getPrevElementNodes. rewrite Hl, Hn, Hc. done.
Qed.

End Further.

(** * Keys of type float64: NaN *)

Section NaN_keys.

Import Keyed.

Context {V : Type}.
Variable Pow : float -> Z -> float.
Implicit Types (s : Keyed.Memory float V).

(** No comparison of IEEE 754 relates a NaN to anything. *)
Lemma nan_unordered : Keyed.unordered (T:=float) nan.
Proof.
  constructor; intros x; simpl;
    rewrite ?FloatAxioms.ltb_spec, ?FloatAxioms.leb_spec, ?FloatAxioms.eqb_spec;
    change (Prim2SF nan) with S754_nan;
    destruct (Prim2SF x) as [[]|[]| |[] ? ?]; reflexivity.
Qed.

(** X19. A NaN key is never found: with [float64] keys, on every list the
    operations produce, [Get(NaN)] returns nil and [Remove(NaN)] returns nil
    and removes nothing, whatever was set before. *)
Theorem NaN_key_is_never_found s :
  Keyed.reachable Pow s ->
  Keyed.Get s nan = Ok None /\
  exists s', Keyed.Remove s nan = Ok (None, s') /\
    Keyed.heap s' = Keyed.heap s /\ next s' = next s /\ Keyed.Len s' = Keyed.Len s.
Proof.
  intros Hok%keyed_reachable_ok.
  split; [apply keyed_Get_unordered; [apply nan_unordered|done]|].
  rewrite (keyed_Remove_unordered s nan nan_unordered Hok). by eexists.
Qed.

(** X20. [Set(NaN, v)] never updates: on every list the operations produce,
    each call allocates one more element and puts it in front of the list,
    whether or not a NaN was set before; [Len()] grows by one, [Front()] is
    the new element, its [Next()] is the former front, and [Get(NaN)] still
    finds nothing. *)
Theorem Set_NaN_adds_an_element s (v : V) (rnd : Z) :
  Keyed.reachable Pow s ->
  exists s' e,
    Keyed.Set_ s nan v rnd = Ok (length (Keyed.heap s), s') /\
    Keyed.reachable Pow s' /\
    Keyed.Len s' = int_wrap (Keyed.Len s + 1) /\
    Keyed.Front s' = Ok (Some (length (Keyed.heap s))) /\
    Keyed.heap s' !! length (Keyed.heap s) = Some e /\
    Keyed.Value e = v /\ Keyed.Next e = Keyed.Front s /\
    Keyed.Get s' nan = Ok None.
Proof.
  intros Hreach. pose proof (keyed_reachable_ok Pow s Hreach) as Hok.
  pose proof (Keyed.ok_maxLevel s Hok) as HM.
  destruct (keyed_Set_unordered_effect Pow s nan v rnd nan_unordered Hok)
    as (h & s' & Hh & Hset & Hheap & Hnext & HLen & Hok').
  eexists s', _. split; [done|]. split.
  { apply (keyed_reachable_step Pow s (Keyed.OpSet nan v rnd)); [done|].
    simpl. by rewrite Hset. }
  split; [done|]. split.
  { unfold Keyed.Front, index. rewrite Hnext.
    rewrite lookup_app_l by (rewrite length_replicate; lia).
    by rewrite lookup_replicate_2 by lia. }
  split. { rewrite Hheap. by rewrite lookup_app_r, Nat.sub_diag by lia. }
  split; [done|]. split.
  { unfold Keyed.Next, Keyed.Front, index. simpl. by rewrite lookup_take_lt by lia. }
  apply keyed_Get_unordered; [apply nan_unordered|done].
Qed.

(** X21. A NaN hides keys: once [Set(NaN, v)] has run, [Get(k)] returns nil
    for every key [k] that no element right behind the header was below (in
    a list sorted by its keys, the smallest key is one), although every
    element is still in the list. *)
Theorem Set_NaN_hides_front_keys s (v : V) (rnd : Z) (k : float) :
  Keyed.reachable Pow s -> Keyed.not_above_front s k ->
  exists s',
    Keyed.Set_ s nan v rnd = Ok (length (Keyed.heap s), s') /\
    Keyed.Get s' k = Ok None /\
    forall p e, Keyed.heap s !! p = Some e -> Keyed.heap s' !! p = Some e.
Proof.
  intros Hok%keyed_reachable_ok Hfront. pose proof (Keyed.ok_maxLevel s Hok) as HM.
  destruct (keyed_Set_unordered_effect Pow s nan v rnd nan_unordered Hok)
    as (h & s' & Hh & Hset & Hheap & Hnext & HLen & Hok').
  exists s'. split; [done|]. split.
  2:{ intros p e He. rewrite Hheap. rewrite lookup_app_l; [done|]. by eapply lookup_lt_Some. }
  assert (Keyed.not_above_front s' k) as Hfront'.
  { intros i p e. rewrite Hnext, Hheap. destruct (decide (i < h)%nat).
    - rewrite lookup_app_l by (rewrite length_replicate; lia).
      rewrite lookup_replicate_2 by lia. intros [= <-].
      rewrite lookup_app_r, Nat.sub_diag by lia. intros [= <-]. simpl.
      apply (Keyed.un_lt (T:=float) nan nan_unordered).
    - rewrite lookup_app_r by (rewrite length_replicate; lia).
      rewrite lookup_drop. intros Hp. pose proof (Keyed.ok_valid s Hok _ _ Hp) as Hlt.
      rewrite lookup_app_l by done. intros He. exact (Hfront _ p e Hp He). }
  destruct (keyed_Get_front s' k Hfront' Hok') as (nxt & Hnxt & ->).
  rewrite Hnext in Hnxt. rewrite lookup_app_l in Hnxt by (rewrite length_replicate; lia).
  rewrite lookup_replicate_2 in Hnxt by lia. injection Hnxt as <-.
  unfold Keyed.deref. rewrite Hheap. rewrite lookup_app_r, Nat.sub_diag by lia. simpl.
  by rewrite FloatAxioms.eqb_spec.
Qed.

End NaN_keys.

(** * Keys of any type *)

Section Any_keys.

Context {T V : Type} `{!Keyed.Sortable T}.
Variable Pow : float -> Z -> float.
Implicit Types (s : Keyed.Memory T V).

(** X22. Whatever the keys are and however they compare, the operations
    leave no dangling pointer: on every list they produce, for any key type,
    the header, the cache and the table have [maxLevel] entries, every
    pointer of the header and of every element is at an allocated element,
    and [Front()] does not panic. *)
Theorem keyed_lists_stay_well_formed s :
  Keyed.reachable Pow s ->
  Keyed.header_ok s /\ Keyed.ptrs_ok s /\ exists f, Keyed.Front s = Ok f.
Proof.
  intros [Hok Hp]%keyed_reachable_wf. split; [done|]. split; [done|].
  pose proof (Keyed.ok_maxLevel s Hok) as HM.
  destruct (index_lt (next s) 0) as (f & Hf & _); [rewrite (Keyed.ok_header s Hok); lia|].
  by exists f.
Qed.

(** X23. Whatever the keys are and however they compare (NaN keys, or
    comparisons that order nothing), no operation panics or runs forever:
    on every list the operations produce, [Get], [Set] and [Remove] return,
    and so does every further sequence of operations. *)
Theorem keyed_operations_do_not_panic s (k : T) (v : V) (rnd : Z)
    (ops : list (Keyed.op T V)) :
  Keyed.reachable Pow s ->
  (exists found, Keyed.Get s k = Ok found) /\
  (exists set, Keyed.Set_ s k v rnd = Ok set) /\
  (exists removed, Keyed.Remove s k = Ok removed) /\
  (exists s', Keyed.run Pow s ops = Ok s').
Proof.
  intros [ps Hinv]%keyed_reachable_inv.
  split; [by apply (keyed_Get_total s ps)|]. split; [|split].
  - destruct (keyed_Set_inv s ps k v rnd Hinv) as (p & s' & _ & -> & _). by eexists.
  - destruct (keyed_Remove_inv s ps k Hinv) as (r & s' & _ & -> & _). by eexists.
  - destruct (keyed_run_inv Pow ops s ps Hinv) as (s' & _ & -> & _). by eexists.
Qed.

(** X24. Whatever the keys are, [Len()] counts the walk: on every list the
    operations produce, the walk from [Front()] along [Next()] ends, meets
    no element twice, and meets as many elements as [Len()] says; each of
    them has between one and [maxLevel] levels. *)
Theorem keyed_Len_counts_walk s :
  Keyed.reachable Pow s ->
  exists es,
    Keyed.in_order s = Ok es /\
    Keyed.Len s = int_wrap (Z.of_nat (length es)) /\
    NoDup es.*1 /\
    Forall (fun pe : ptr * Keyed.Element T V =>
              Keyed.heap s !! pe.1 = Some pe.2 /\
              1 <= Z.of_nat (length (next pe.2)) <= maxLevel s) es.
Proof.
  intros (ps & z & Hsp & HInv)%keyed_reachable_inv.
  destruct (in_order_spec z ps HInv) as (esz & Hesz & Hfst & _).
  unfold in_order in Hesz. apply bind_Ok in Hesz as (f & Hf & Hfollow).
  destruct (keyed_follow s z Hsp _ _ _ Hfollow) as (es & Hes & Hfst' & Hst).
  exists es. split; [|split; [|split]].
  - unfold Keyed.in_order, Keyed.Front, Keyed.walk_fuel.
    unfold Front in Hf. rewrite (proj1 Hsp), Hf. simpl.
    by rewrite (same_pointers_length s z Hsp).
  - unfold Keyed.Len. rewrite (proj1 Hsp), (inv_Length _ _ HInv).
    by rewrite <- Hfst, <- Hfst', !length_fmap.
  - rewrite Hfst', Hfst. by apply (Inv_NoDup z).
  - rewrite Forall_forall in Hst. apply Forall_forall. intros [p e] Hin.
    pose proof (Hst _ Hin) as He. simpl in *. split; [done|].
    assert (p ∈ ps) as Hp.
    { rewrite <- Hfst, <- Hfst'. apply list_elem_of_fmap. by exists (p, e). }
    pose proof (inv_valid _ _ HInv) as Hv. rewrite Forall_forall in Hv.
    pose proof (inv_heights _ _ HInv p (Hv p Hp)) as Hh.
    destruct (keyed_element s z Hsp p) as (e1 & e0 & He1 & He0 & Hnx).
    { by apply lookup_lt_is_Some_2, Hv. }
    rewrite He in He1. injection He1 as <-.
    unfold heightOf in Hh. rewrite He0 in Hh. rewrite Hnx, (proj1 Hsp). lia.
Qed.

End Any_keys.

(** * The claims on the concrete scenario *)

Lemma demo_reachable : reachable pow_iter demo.
Proof. exists 4, demo_ops. vm_compute. reflexivity. Defined.

Ltac not_in_list :=
  let H := fresh "H" in
  intros H; repeat (apply elem_of_cons in H as [H|H]; [discriminate H|]);
  by apply elem_of_nil in H.

Lemma demo_absent_3 : absent demo 3.
Proof.
  unfold absent. eexists. split; [vm_compute; reflexivity|]. vm_compute. not_in_list.
Defined.





Lemma Remove_absent_no_change_witness :
  reachable pow_iter demo /\ absent demo 3 /\
  exists s',
    Remove demo 3 = Ok (None, s') /\
    s' = set_list demo (with_cache demo (prevNodesCache s')) /\
    heap s' = heap demo /\
    next s' = next demo /\
    (forall r i, slot s' r i = slot demo r i) /\
    Len s' = Len demo /\
    in_order s' = in_order demo.
Proof.
  split; [exact demo_reachable|]. split; [exact demo_absent_3|].
  apply (Remove_absent_no_change pow_iter demo 3); [exact demo_reachable|exact demo_absent_3].
Defined.



Lemma randLevel_in_range_witness :
  (1 <= maxLevel demo <= 64 /\
   length [1%float; 0.5%float; 0.25%float; 0.125%float] = Z.to_nat (maxLevel demo) /\
   exists h,
     randLevel (set_list demo (with_probability demo (probability demo)
                  [1%float; 0.5%float; 0.25%float; 0.125%float])) (2 ^ 61) = Ok h /\
     1 <= h <= maxLevel demo) /\
  (reachable pow_iter demo /\
   Forall (fun e : Element string => 1 <= Z.of_nat (length (next e)) <= maxLevel demo)
     (heap demo)).
Proof.
  split.
  - split; [vm_compute; split; discriminate|]. split; [reflexivity|].
    apply (proj1 (randLevel_in_range (V:=string) pow_iter)); [vm_compute; split; discriminate|reflexivity].
  - split; [exact demo_reachable|].
    apply (proj2 (randLevel_in_range (V:=string) pow_iter)). exact demo_reachable.
Defined.

Lemma operations_do_not_panic_witness :
  reachable pow_iter demo /\
  length (next demo) = Z.to_nat (maxLevel demo) /\
  length (probTable demo) = Z.to_nat (maxLevel demo) /\
  length (prevNodesCache demo) = Z.to_nat (maxLevel demo) /\
  (forall i, (i < Z.to_nat (maxLevel demo))%nat ->
     exists es, level_nodes demo i = Ok es /\
       Forall (fun pe : ptr * Element string => (i < length (next pe.2))%nat) es) /\
  Forall (fun e : Element string => exists nxt, Next e = Ok nxt) (heap demo) /\
  (exists f, Front demo = Ok f) /\
  forall (k : Z) (v : string) (rnd : Z),
    (exists found, Get demo k = Ok found) /\
    (exists prevs, getPrevElementNodes demo k = Ok prevs) /\
    (exists h, randLevel demo rnd = Ok h /\ 1 <= h <= maxLevel demo) /\
    (exists set, Set_ demo k v rnd = Ok set) /\
    (exists removed, Remove demo k = Ok removed).
Proof.
  split; [exact demo_reachable|].
  apply (operations_do_not_panic pow_iter demo). exact demo_reachable.
Defined.

Lemma demo_Remove_2 : Remove demo 2 = Ok (Some 1%nat, demo_removed).
Proof. vm_compute. reflexivity. Defined.

Lemma Remove_keeps_removed_entry_witness :
  reachable pow_iter demo /\
  Remove demo 2 = Ok (Some 1%nat, demo_removed) /\
  exists e es prevs s1,
    in_order demo = Ok es /\
    heap demo !! 1%nat = Some e /\ heap demo_removed !! 1%nat = Some e /\ Key e = 2 /\
    (exists xs ys, es.*1 = xs ++ 1%nat :: ys /\ Next e = Ok (head ys)) /\
    getPrevElementNodes demo 2 = Ok (prevs, s1) /\
    length (heap demo_removed) = length (heap demo) /\
    (forall q, keyOf demo_removed q = keyOf demo q /\
               valueOf demo_removed q = valueOf demo q /\
               heightOf demo_removed q = heightOf demo q) /\
    (forall r i, slot demo_removed r i <> slot demo r i ->
       prevs !! i = Some (Some r) /\ (i < length (next e))%nat) /\
    maxLevel demo_removed = maxLevel demo /\ probability demo_removed = probability demo /\
    probTable demo_removed = probTable demo /\ stdout demo_removed = stdout demo /\
    prevNodesCache demo_removed = prevNodesCache s1 /\
    Len demo_removed = int_wrap (Len demo - 1).
Proof.
  split; [exact demo_reachable|]. split; [exact demo_Remove_2|].
  apply (Remove_keeps_removed_entry pow_iter demo 2 1%nat demo_removed);
    [exact demo_reachable|exact demo_Remove_2].
Defined.

Lemma Set_never_prints_witness : reachable pow_iter demo /\ stdout demo = [].
Proof.
  split; [exact demo_reachable|]. apply (Set_never_prints pow_iter demo).
  exact demo_reachable.
Defined.


(** The scenario of the specification: after [Set(5, a)], [Set(2, b)],
    [Set(8, c)], [Set(5, z)] the list has three entries, [Get(5)] finds
    [z] and the walk meets the keys 2, 5, 8; [Remove(2)] returns the entry
    holding [b], after which the walk meets 5, 8 and [Get(2)] finds
    nothing. *)
Example spec_scenario :
  run_new pow_iter 4 demo_ops = Ok demo /\
  Len demo = 3 /\
  lookup_value demo 5 = Ok (Some "z"%string) /\
  walk_entries demo = Ok [(2, "b"%string); (5, "z"%string); (8, "c"%string)] /\
  Remove demo 2 = Ok (Some 1%nat, demo_removed) /\
  (e <- deref demo_removed 1;; Ok (Key e, Value e)) = Ok (2, "b"%string) /\
  walk_entries demo_removed = Ok [(5, "z"%string); (8, "c"%string)] /\
  lookup_value demo_removed 2 = Ok None /\
  Len demo_removed = 2.
Proof. repeat (split; [vm_compute; reflexivity|]). vm_compute. reflexivity. Qed.

(** * The further properties on the concrete scenario *)

Lemma fresh_list_is_empty_witness :
  1 <= 4 <= 64 /\
  exists s s',
    NewWithMaxLevel (V:=string) pow_iter 4 = Ok s /\
    Len s = 0 /\ Front s = Ok None /\ in_order s = Ok [] /\
    Get s 7 = Ok None /\
    Remove s 7 = Ok (None, s') /\
    Len s' = 0 /\ Front s' = Ok None /\ heap s' = [].
Proof.
  split; [lia|]. apply (fresh_list_is_empty (V:=string) pow_iter 4 7). lia.
Defined.



Lemma Remove_returns_what_Get_finds_witness :
  reachable pow_iter demo /\
  exists found s', Get demo 5 = Ok found /\ Remove demo 5 = Ok (found, s').
Proof.
  split; [exact demo_reachable|]. apply (Remove_returns_what_Get_finds pow_iter demo 5).
  exact demo_reachable.
Defined.


Lemma elements_keep_key_and_height_witness :
  reachable pow_iter demo /\
  exists s', run pow_iter demo reset_ops = Ok s' /\
    forall p e, heap demo !! p = Some e ->
      exists e', heap s' !! p = Some e' /\ Key e' = Key e /\
                 length (next e') = length (next e).
Proof.
  split; [exact demo_reachable|].
  apply (elements_keep_key_and_height pow_iter demo reset_ops). exact demo_reachable.
Defined.

Lemma removed_element_is_frozen_witness :
  reachable pow_iter demo /\
  Remove demo 2 = Ok (Some 1%nat, demo_removed) /\
  exists s2 es,
    run pow_iter demo_removed [OpSet 2 "n"%string 0; OpSet 3 "m"%string 0] = Ok s2 /\
    heap s2 !! 1%nat = heap demo !! 1%nat /\
    in_order s2 = Ok es /\ 1%nat ∉ es.*1.
Proof.
  split; [exact demo_reachable|]. split; [exact demo_Remove_2|].
  apply (removed_element_is_frozen pow_iter demo 2 1%nat demo_removed);
    [exact demo_reachable|exact demo_Remove_2].
Defined.

Lemma Remove_twice_witness :
  reachable pow_iter demo /\
  exists removed s1 s2,
    Remove demo 2 = Ok (removed, s1) /\ Get s1 2 = Ok None /\
    Remove s1 2 = Ok (None, s2) /\
    in_order s2 = in_order s1 /\ Len s2 = Len s1 /\ heap s2 = heap s1.
Proof.
  split; [exact demo_reachable|]. apply (Remove_twice pow_iter demo 2).
  exact demo_reachable.
Defined.




Lemma randLevel_first_failure_witness :
  1 <= maxLevel demo <= 64 /\
  length (probTable demo) = Z.to_nat (maxLevel demo) /\
  exists h, randLevel demo (2 ^ 61) = Ok h /\ 1 <= h <= maxLevel demo /\
    (forall j, 1 <= j < h ->
       exists t, probTable demo !! Z.to_nat j = Some t /\
                 PrimFloat.ltb (rand_float (2 ^ 61)) t = true) /\
    (h < maxLevel demo ->
       exists t, probTable demo !! Z.to_nat h = Some t /\
                 PrimFloat.ltb (rand_float (2 ^ 61)) t = false).
Proof.
  split; [vm_compute; split; discriminate|]. split; [reflexivity|].
  apply (randLevel_first_failure demo (2 ^ 61)); [vm_compute; split; discriminate|reflexivity].
Defined.

Lemma Set_height_follows_probability_witness :
  reachable pow_iter demo /\ absent demo 3 /\
  exists (h : Z) p s' e,
    Set_ demo 3 "q"%string (2 ^ 61) = Ok (p, s') /\ heap s' !! p = Some e /\
    Key e = 3 /\ Z.of_nat (length (next e)) = h /\ 1 <= h <= maxLevel demo /\
    (forall j, 1 <= j < h ->
       PrimFloat.ltb (rand_float (2 ^ 61)) (pow_iter (probability demo) j) = true) /\
    (h < maxLevel demo ->
       PrimFloat.ltb (rand_float (2 ^ 61)) (pow_iter (probability demo) h) = false).
Proof.
  split; [exact demo_reachable|]. split; [exact demo_absent_3|].
  apply (Set_height_follows_probability pow_iter demo 3 "q"%string (2 ^ 61));
    [exact demo_reachable|exact demo_absent_3].
Defined.

Lemma SetProbability_keeps_data_witness :
  reachable pow_iter demo /\
  in_order (SetProbability pow_iter demo 0.5%float) = in_order demo /\
  Get (SetProbability pow_iter demo 0.5%float) 5 = Get demo 5 /\
  Len (SetProbability pow_iter demo 0.5%float) = Len demo /\
  heap (SetProbability pow_iter demo 0.5%float) = heap demo /\
  probability (SetProbability pow_iter demo 0.5%float) = 0.5%float /\
  forall j, 0 <= j < maxLevel demo ->
    indexZ (probTable (SetProbability pow_iter demo 0.5%float)) j = Ok (pow_iter 0.5%float j).
Proof.
  split; [exact demo_reachable|].
  apply (SetProbability_keeps_data pow_iter demo 0.5%float 5). exact demo_reachable.
Defined.

Lemma level_is_filtered_walk_witness :
  reachable pow_iter demo /\ Z.of_nat 1 < maxLevel demo /\
  exists es, in_order demo = Ok es /\
    level_nodes demo 1 =
      Ok (filter (fun pe : ptr * Element string => (1 < length (next pe.2))%nat) es).
Proof.
  split; [exact demo_reachable|]. split; [reflexivity|].
  apply (level_is_filtered_walk pow_iter demo 1); [exact demo_reachable|reflexivity].
Defined.

Lemma zero_value_list_witness :
  maxLevel empty_memory = 0 /\ next empty_memory = [] /\ prevNodesCache empty_memory = [] /\
  Get empty_memory 5 = Ok None /\ Front empty_memory = Panic /\
  Set_ empty_memory 5 "a"%string 0 = Panic /\ Remove empty_memory 5 = Panic.
Proof.
  split; [reflexivity|]. split; [reflexivity|]. split; [reflexivity|].
  apply (zero_value_list empty_memory 5 "a"%string 0); reflexivity.
Defined.

Lemma float_demo_reachable : Keyed.reachable pow_iter float_demo.
Proof. exists 4, float_ops. vm_compute. reflexivity. Defined.

Lemma float_demo_front : Keyed.not_above_front float_demo 0.5%float.
Proof.
  intros i p e Hi He.
  do 4 (destruct i as [|i];
        [vm_compute in Hi; try discriminate Hi; injection Hi as <-;
         vm_compute in He; injection He as <-; reflexivity|]).
  vm_compute in Hi. discriminate Hi.
Defined.

Lemma NaN_key_is_never_found_witness :
  Keyed.reachable pow_iter float_demo /\
  Keyed.Get float_demo nan = Ok None /\
  exists s', Keyed.Remove float_demo nan = Ok (None, s') /\
    Keyed.heap s' = Keyed.heap float_demo /\
    next (Keyed.sl s') = next (Keyed.sl float_demo) /\
    Keyed.Len s' = Keyed.Len float_demo.
Proof.
  split; [exact float_demo_reachable|].
  apply (NaN_key_is_never_found pow_iter float_demo). exact float_demo_reachable.
Defined.

Lemma Set_NaN_adds_an_element_witness :
  Keyed.reachable pow_iter float_demo /\
  exists s' e,
    Keyed.Set_ float_demo nan "n"%string 0 = Ok (length (Keyed.heap float_demo), s') /\
    Keyed.reachable pow_iter s' /\
    Keyed.Len s' = int_wrap (Keyed.Len float_demo + 1) /\
    Keyed.Front s' = Ok (Some (length (Keyed.heap float_demo))) /\
    Keyed.heap s' !! length (Keyed.heap float_demo) = Some e /\
    Keyed.Value e = "n"%string /\ Keyed.Next e = Keyed.Front float_demo /\
    Keyed.Get s' nan = Ok None.
Proof.
  split; [exact float_demo_reachable|].
  apply (Set_NaN_adds_an_element pow_iter float_demo "n"%string 0).
  exact float_demo_reachable.
Defined.

Lemma Set_NaN_hides_front_keys_witness :
  Keyed.reachable pow_iter float_demo /\ Keyed.not_above_front float_demo 0.5%float /\
  Keyed.Get float_demo 0.5%float = Ok (Some 1%nat) /\
  exists s',
    Keyed.Set_ float_demo nan "n"%string 0 = Ok (length (Keyed.heap float_demo), s') /\
    Keyed.Get s' 0.5%float = Ok None /\
    forall p e, Keyed.heap float_demo !! p = Some e -> Keyed.heap s' !! p = Some e.
Proof.
  split; [exact float_demo_reachable|]. split; [exact float_demo_front|].
  split; [vm_compute; reflexivity|].
  apply (Set_NaN_hides_front_keys pow_iter float_demo "n"%string 0 0.5%float);
    [exact float_demo_reachable|exact float_demo_front].
Defined.

Lemma keyed_lists_stay_well_formed_witness :
  Keyed.reachable pow_iter float_demo /\
  Keyed.header_ok float_demo /\ Keyed.ptrs_ok float_demo /\
  exists f, Keyed.Front float_demo = Ok f.
Proof.
  split; [exact float_demo_reachable|].
  apply (keyed_lists_stay_well_formed pow_iter float_demo). exact float_demo_reachable.
Defined.

Lemma keyed_operations_do_not_panic_witness :
  Keyed.reachable pow_iter float_demo /\
  (exists found, Keyed.Get float_demo nan = Ok found) /\
  (exists set, Keyed.Set_ float_demo nan "n"%string 0 = Ok set) /\
  (exists removed, Keyed.Remove float_demo nan = Ok removed) /\
  (exists s', Keyed.run pow_iter float_demo
                [Keyed.OpSet nan "n"%string 0; Keyed.OpSet 0.5%float "c"%string 0;
                 Keyed.OpRemove 1.5%float] = Ok s').
Proof.
  split; [exact float_demo_reachable|].
  apply (keyed_operations_do_not_panic pow_iter float_demo nan "n"%string 0
           [Keyed.OpSet nan "n"%string 0; Keyed.OpSet 0.5%float "c"%string 0;
            Keyed.OpRemove 1.5%float]).
  exact float_demo_reachable.
Defined.

Lemma keyed_Len_counts_walk_witness :
  Keyed.reachable pow_iter float_demo /\
  exists es,
    Keyed.in_order float_demo = Ok es /\
    Keyed.Len float_demo = int_wrap (Z.of_nat (length es)) /\
    NoDup es.*1 /\
    Forall (fun pe : ptr * Keyed.Element float string =>
              Keyed.heap float_demo !! pe.1 = Some pe.2 /\
              1 <= Z.of_nat (length (next pe.2)) <= maxLevel float_demo) es.
Proof.
  split; [exact float_demo_reachable|].
  apply (keyed_Len_counts_walk pow_iter float_demo). exact float_demo_reachable.
Defined.
